(** * bf1942-ingest: a shallow embedding of the ingestion engine

    The development follows the layout of the repository:

    - [Py]            the handful of Python built-ins the engine leans on
                      ([str.lower], [int(str)], truthiness of [x or y]);
    - [Config]        [engine/config.py], the typed settings;
    - [Scheduler]     [engine/scheduler.py], [_safe_int] and the re-enqueue
                      delay computed by [Scheduler._worker];
    - [ServerQuerier] [engine/server_querier.py], [query_server];
    - [MasterList]    [engine/master_list.py], [fetch_servers];
    - [DataProcessor] [engine/data_processor.py], the store and the three
                      ingestion functions;
    - [Str]           [str.split] and the decimal form of an integer;
    - [SchedulerTasks] the tasks of [Scheduler]: the refresh of the
                      exclusions, the seeding, the master-list poller and
                      the workers, each cut at its suspension points;
    - [ExclusionsTable] the [exclusions] table of [engine/database.py]
                      with its generated columns.

    Python [str] is [string], for the strings whose code points are below
    256; Python [int] is [Z]; a [dict] with string keys is a
    [gmap string _]; a [set] is a [gset _]; a table of the relational
    store is the list of its rows in insertion order. *)

From Stdlib Require Import ZArith QArith Ascii String.
From stdpp Require Import base decidable option list gmap sets strings pretty.

#[local] Set Warnings "-clear-no-such-hyp".

Local Open Scope string_scope.
Local Open Scope list_scope.
Local Open Scope Z_scope.

(* ===================================================================== *)
(** * Python built-ins *)
(* ===================================================================== *)

(** A [str] is the sequence of its code points, and the model covers the
    strings whose code points are below 256 (the Latin-1 range, which
    holds the ASCII range): the character [c] of a [string] is the code
    point [nat_of_ascii c].  A [str] that holds a code point beyond 255
    is outside the model. *)

Module Py.

(** [str.lower] of one code point below 256: the letters [A]..[Z] and,
    beyond ASCII, the capital letters U+00C0..U+00DE other than the
    multiplication sign U+00D7 are shifted by 32; every other character
    is kept. *)
Definition lower_ascii (c : ascii) : ascii :=
  let n := nat_of_ascii c in
  if ((65 <=? n) && (n <=? 90)
      || (192 <=? n) && (n <=? 222) && negb (n =? 215))%nat
  then ascii_of_nat (n + 32) else c.

Fixpoint lower (s : string) : string :=
  match s with
  | EmptyString => EmptyString
  | String c s' => String (lower_ascii c) (lower s')
  end.

(** Truthiness of a value that is [None] or a [str]: only a non-empty
    string is truthy. *)
Definition truthy (v : option string) : bool :=
  match v with
  | Some (String _ _) => true
  | _ => false
  end.

(** [a or b]. *)
Definition or_ (a b : option string) : option string :=
  if truthy a then a else b.

(** Characters [int] skips around a literal: TAB, LF, VT, FF, CR and the
    space, and the two blanks beyond ASCII, U+0085 and U+00A0, which
    [int] turns into spaces before it reads the string.  The separators
    U+001C..U+001F are not skipped. *)
Definition is_space (c : ascii) : bool :=
  let n := nat_of_ascii c in
  ((9 <=? n) && (n <=? 13) || (n =? 32) || (n =? 133) || (n =? 160))%nat.

Definition digit_val (c : ascii) : option Z :=
  let n := nat_of_ascii c in
  if ((48 <=? n) && (n <=? 57))%nat then Some (Z.of_nat (n - 48)) else None.

Fixpoint lstrip (l : list ascii) : list ascii :=
  match l with
  | c :: l' => if is_space c then lstrip l' else l
  | [] => []
  end.

Definition strip (l : list ascii) : list ascii :=
  reverse (lstrip (reverse (lstrip l))).

(** The digits of a decimal literal; a single underscore may separate two
    digits.  [after_digit] tells whether the previous character was a
    digit, so that a leading, trailing or doubled underscore is refused,
    as is the empty literal. *)
Fixpoint digits (l : list ascii) (acc : Z) (after_digit : bool) : option Z :=
  match l with
  | [] => if after_digit then Some acc else None
  | c :: l' =>
      match digit_val c with
      | Some d => digits l' (10 * acc + d) true
      | None =>
          if Ascii.eqb c "_"%char && after_digit then digits l' acc false
          else None
      end
  end.

(** The default of [sys.get_int_max_str_digits()]: a literal of more
    digits is refused. *)
Definition int_max_str_digits : Z := 4300.

(** The number of digits of a literal, underscores not counted. *)
Definition count_digits (l : list ascii) : Z :=
  Z.of_nat (length (filter (λ c, is_Some (digit_val c)) l)).

(** The literal after the sign. *)
Definition literal (l : list ascii) : option Z :=
  n ← digits l 0 false;
  if int_max_str_digits <? count_digits l then None else Some n.

(** [int(s)] for a [str] in base ten; [None] stands for [ValueError]. *)
Definition int (s : string) : option Z :=
  match strip (list_ascii_of_string s) with
  | c :: l' =>
      if Ascii.eqb c "+"%char then literal l'
      else if Ascii.eqb c "-"%char then Z.opp <$> literal l'
      else literal (c :: l')
  | [] => None
  end.

(** A character that can occur in a literal [int] accepts. *)
Definition numeric_char (c : ascii) : bool :=
  is_space c || bool_decide (is_Some (digit_val c))
  || Ascii.eqb c "_"%char || Ascii.eqb c "+"%char || Ascii.eqb c "-"%char.

End Py.

(* ===================================================================== *)
(** * engine/config.py *)
(* ===================================================================== *)

Module Config.

Record Settings := {
  POSTGRES_DSN : string;
  MASTER_LIST_POLL_INTERVAL_S : Z;
  MASTER_LIST_MAX_BACKOFF_S : Z;
  POLL_INTERVAL_ACTIVE_S : Z;
  POLL_INTERVAL_EMPTY_S : Z;
  POLL_INTERVAL_OFFLINE_S : Z;
  OFFLINE_FAILURE_THRESHOLD : Z;
  SERVER_QUERY_TIMEOUT_S : Q;
  WORKER_COUNT : Z
}.

(** The defaults of the class; [POSTGRES_DSN] has none. *)
Definition defaults (dsn : string) : Settings := {|
  POSTGRES_DSN := dsn;
  MASTER_LIST_POLL_INTERVAL_S := 60;
  MASTER_LIST_MAX_BACKOFF_S := 300;
  POLL_INTERVAL_ACTIVE_S := 20;
  POLL_INTERVAL_EMPTY_S := 180;
  POLL_INTERVAL_OFFLINE_S := 900;
  OFFLINE_FAILURE_THRESHOLD := 3;
  SERVER_QUERY_TIMEOUT_S := 4 # 1;
  WORKER_COUNT := 200
|}.

End Config.

(* ===================================================================== *)
(** * The result of a probe *)
(* ===================================================================== *)

Module GameSpy1.

(** What [GameSpy1.get_status] returns: the [info] dictionary and one
    dictionary per player, every value a string. *)
Record Status := {
  info : gmap string string;
  players : list (gmap string string)
}.

#[global] Instance Status_eq_dec : EqDecision Status.
Proof. solve_decision. Defined.

End GameSpy1.

(* ===================================================================== *)
(** * engine/scheduler.py *)
(* ===================================================================== *)

Module Scheduler.
Import Config.

Definition _safe_int (value : option string) (default : Z) : Z :=
  match value with
  | None => default
  | Some EmptyString => default
  | Some s =>
      match Py.int s with
      | Some n => n
      | None => default
      end
  end.

Section Worker.
Context (settings : Settings).

(** [num_players = _safe_int(info.get('numplayers'))] *)
Definition num_players (info : gmap string string) : Z :=
  _safe_int (info !! "numplayers") 0.

(** The value handed to [_safe_int] for the remaining time:
    [info.get('roundtimeremain') or info.get('roundtime')]. *)
Definition time_remaining_raw (info : gmap string string) : option string :=
  Py.or_ (info !! "roundtimeremain") (info !! "roundtime").

Definition time_remaining (info : gmap string string) : Z :=
  _safe_int (time_remaining_raw info) 0.

(** The remaining time the way the specification words it: parsed from
    [roundtimeremain], and from [roundtime] exactly when the former is
    missing.  Compared with [time_remaining] below. *)
Definition time_remaining_spec (info : gmap string string) : Z :=
  match info !! "roundtimeremain" with
  | Some v => _safe_int (Some v) 0
  | None => _safe_int (info !! "roundtime") 0
  end.

(** The [delay] of the success branch of [_worker]. *)
Definition success_delay (info : gmap string string) : Z :=
  let delay := POLL_INTERVAL_ACTIVE_S settings in
  if num_players info =? 0 then POLL_INTERVAL_EMPTY_S settings
  else if (0 <? time_remaining info)
          && (time_remaining info <? POLL_INTERVAL_ACTIVE_S settings + 5)
       then time_remaining info + 3
       else delay.

(** The [delay] after one probe: [result] is what [query_server] gave. *)
Definition worker_delay (result : option GameSpy1.Status) : Z :=
  match result with
  | Some r => success_delay (GameSpy1.info r)
  | None => POLL_INTERVAL_OFFLINE_S settings
  end.
End Worker.

End Scheduler.

(* ===================================================================== *)
(** * engine/server_querier.py *)
(* ===================================================================== *)

Module ServerQuerier.
Import Config.

(** One [GameSpy1(host, port, timeout).get_status()] call. *)
Record Attempt := {
  host : string;
  port : Z;
  timeout : Q
}.

Section Query.
Context (settings : Settings).

(** The network as seen by the querier: what a [get_status] call
    answers, [None] when it raises. *)
Context (get_status : Attempt → option GameSpy1.Status).

Definition standard_query_port : Z := 23000.

(** [timeout = settings.SERVER_QUERY_TIMEOUT_S / 2] *)
Definition timeout_per_attempt : Q := (SERVER_QUERY_TIMEOUT_S settings / 2)%Q.

(** The first call and the fallback call. *)
Definition primary (ip : string) (port : Z) : Attempt :=
  {| host := ip; port := port; timeout := timeout_per_attempt |}.

Definition fallback (ip : string) : Attempt :=
  {| host := ip; port := standard_query_port; timeout := timeout_per_attempt |}.

(** [query_server] returns its result together with the calls it made,
    in order. *)
Definition query_server (ip : string) (port : Z)
    : list Attempt * option GameSpy1.Status :=
  match get_status (primary ip port) with
  | Some status => ([primary ip port], Some status)
  | None =>
      if bool_decide (port ≠ standard_query_port) then
        match get_status (fallback ip) with
        | Some status => ([primary ip port; fallback ip], Some status)
        | None => ([primary ip port; fallback ip], None)
        end
      else ([primary ip port], None)
  end.
End Query.

End ServerQuerier.

(* ===================================================================== *)
(** * engine/master_list.py *)
(* ===================================================================== *)

Module MasterList.

#[local] Set Warnings "-register-all".

(** A [float]: its rational value when it is finite; [json.loads] also
    yields the infinities (for [Infinity], [-Infinity] and for a literal
    too large, as [1e400]) and nan (for [NaN]). *)
Inductive Float :=
  | Finite (q : Q)
  | Infinite (negative : bool)
  | NaN.

(** A decoded JSON document, as [response.json()] builds it. *)
Inductive Json :=
  | JNull
  | JBool (b : bool)
  | JInt (n : Z)
  | JFloat (x : Float)
  | JStr (s : string)
  | JArr (items : list Json)
  | JObj (members : list (string * Json)).

(** What the GET of the master list comes to. *)
Inductive Response :=
  | TransportError                (* [session.get] raises *)
  | HttpError (code : Z)          (* [raise_for_status] raises *)
  | NotJson                       (* [response.json()] raises *)
  | Body (data : Json).

(** [for item in data]: a list gives its items, a dictionary its keys, a
    string its characters; anything else is not iterable ([TypeError]). *)
Definition iter (data : Json) : option (list Json) :=
  match data with
  | JArr items => Some items
  | JObj members => Some ((λ kv, JStr kv.1) <$> members)
  | JStr s => Some ((λ c, JStr (String c EmptyString)) <$> list_ascii_of_string s)
  | _ => None
  end.

(** [isinstance(item, list) and len(item) == 2] *)
Definition is_pair (item : Json) : bool :=
  match item with
  | JArr [_; _] => true
  | _ => false
  end.

(** [int(x)] for a decoded JSON value; [None] when it raises. *)
Definition int_of (x : Json) : option Z :=
  match x with
  | JInt n => Some n
  | JBool b => Some (if b then 1 else 0)
  | JFloat (Finite q) => Some (Z.quot (Qnum q) (Z.pos (Qden q)))
  | JFloat (Infinite _) | JFloat NaN => None
  | JStr s => Py.int s
  | JNull | JArr _ | JObj _ => None
  end.

(** [(item[0], int(item[1]))] for an item that passed the filter. *)
Definition entry (item : Json) : option (Json * Z) :=
  match item with
  | JArr [ip; port] => p ← int_of port; Some (ip, p)
  | _ => None
  end.

(** The list comprehension: an exception in any element aborts it. *)
Definition comprehension (data : Json) : option (list (Json * Z)) :=
  items ← iter data;
  mapM entry (filter (λ item, is_pair item = true) items).

(** [fetch_servers]: [None] is the fetch failure, every exception ends
    there. *)
Definition fetch_servers (response : Response) : option (list (Json * Z)) :=
  match response with
  | Body data => comprehension data
  | TransportError | HttpError _ | NotJson => None
  end.

(** The parse the way the specification words it: an entry that is not a
    two-element array or whose port [int] refuses is dropped, the others
    are returned, and only a failed exchange gives [None].  Compared with
    [fetch_servers] below. *)
Definition fetch_servers_spec (response : Response) : option (list (Json * Z)) :=
  match response with
  | Body data => Some (omap entry (default [] (iter data)))
  | TransportError | HttpError _ | NotJson => None
  end.

End MasterList.

(* ===================================================================== *)
(** * The relational store

    One record per table of [engine/database.py], with the columns the
    engine reads or writes.  A JSONB column holds the value that was
    written: on the values the engine stores (strings, integers, [None],
    lists and string-keyed dictionaries of these) [json.loads] undoes
    [json.dumps].  The length and range limits of the column types are not
    part of the model, nor are the [rounds] table and the statistics
    view, which the engine never reads.  Of the trigger on
    [server_snapshots], which fills [rounds], the model keeps what the
    engine can observe: the cases in which it raises and so refuses the
    snapshot. *)
(* ===================================================================== *)

(** [text::integer], as PostgreSQL reads a decimal integer: blanks, an
    optional sign, at least one digit, blanks, and a value within the
    range of [INTEGER]. *)
Module Pg.

Definition int4_min : Z := -2147483648.
Definition int4_max : Z := 2147483647.

(** [isspace]: TAB, LF, VT, FF, CR and the space. *)
Definition is_space (c : ascii) : bool :=
  let n := nat_of_ascii c in
  ((9 <=? n) && (n <=? 13) || (n =? 32))%nat.

Fixpoint skip_spaces (l : list ascii) : list ascii :=
  match l with
  | c :: l' => if is_space c then skip_spaces l' else l
  | [] => []
  end.

(** The digits at the head of [l], their value continued from [acc], and
    what follows them. *)
Fixpoint read_digits (l : list ascii) (acc : Z) : Z * list ascii :=
  match l with
  | c :: l' =>
      match Py.digit_val c with
      | Some d => read_digits l' (10 * acc + d)
      | None => (acc, l)
      end
  | [] => (acc, [])
  end.

(** The digits, then blanks up to the end; the sign is applied before
    the range is checked. *)
Definition read_number (negative : bool) (l : list ascii) : option Z :=
  match l with
  | c :: _ =>
      if bool_decide (is_Some (Py.digit_val c)) then
        let '(n, rest) := read_digits l 0 in
        let value := if negative then - n else n in
        match skip_spaces rest with
        | [] =>
            if (int4_min <=? value) && (value <=? int4_max)
            then Some value else None
        | _ :: _ => None
        end
      else None
  | [] => None
  end.

(** [None] when the cast raises. *)
Definition int4 (s : string) : option Z :=
  match skip_spaces (list_ascii_of_string s) with
  | c :: l' =>
      if Ascii.eqb c "-"%char then read_number true l'
      else if Ascii.eqb c "+"%char then read_number false l'
      else read_number false (c :: l')
  | [] => None
  end.

End Pg.

(** A normalized player, as built by [process_server_success] and as read
    back from a snapshot; [name] is [None] when the key is absent. *)
Record Player := {
  name : option string;
  keyhash : option string;
  score : Z;
  ping : Z;
  team : Z;
  kills : Z;
  deaths : Z
}.

#[global] Instance Player_eq_dec : EqDecision Player.
Proof. solve_decision. Defined.

(** [normalized_data = {"mapname": ..., "players": ...}] *)
Record NormalizedData := {
  mapname : string;
  data_players : list Player
}.

#[global] Instance NormalizedData_eq_dec : EqDecision NormalizedData.
Proof. solve_decision. Defined.

(** [info_to_save]: the raw info with its ['players'] key bound to the
    normalized players. *)
Record SavedInfo := {
  saved_fields : gmap string string;
  saved_players : list Player
}.

Inductive server_status := online | offline.

#[global] Instance server_status_eq_dec : EqDecision server_status.
Proof. solve_decision. Defined.

Module Servers.
Record row := {
  id : Z;
  ip : string;
  port : Z;
  hostname : option string;
  status : server_status;
  last_seen : Z;
  first_seen : Z;
  consecutive_failures : Z;
  active_mod : option string;
  gametype : option string;
  info : option SavedInfo
}.
End Servers.

Module ServerSnapshots.
Record row := {
  server_id : Z;
  timestamp : Z;
  data : NormalizedData;
  raw : GameSpy1.Status
}.
End ServerSnapshots.

Module PlayerSessions.
Record row := {
  server_id : Z;
  player_name : string;
  player_name_norm : string;
  keyhash : option string;
  join_ts : Z;
  leave_ts : option Z
}.

#[global] Instance row_eq_dec : EqDecision row.
Proof. solve_decision. Defined.
End PlayerSessions.

Record Db := {
  servers : list Servers.row;
  servers_id_seq : Z;                 (* next value of the SERIAL of [servers] *)
  server_snapshots : list ServerSnapshots.row;
  player_sessions : list PlayerSessions.row;
  unique_maps : gset string
}.

Definition empty_db : Db := {|
  servers := [];
  servers_id_seq := 1;
  server_snapshots := [];
  player_sessions := [];
  unique_maps := ∅
|}.

(** The three exclusion sets handed to the data processor.  A [server_id]
    entry is the string ["ip:port"] or the pair [(ip, port)]. *)
Record Exclusions := {
  excluded_gametype : gset string;
  excluded_player_name : gset string;
  excluded_server_id : gset (string + string * Z)
}.

Definition no_exclusions : Exclusions := {|
  excluded_gametype := ∅;
  excluded_player_name := ∅;
  excluded_server_id := ∅
|}.

(* ===================================================================== *)
(** * engine/data_processor.py *)
(* ===================================================================== *)

Module DataProcessor.
Import Config.

Definition _coerce_int (value : option string) (default : Z) : Z :=
  match value with
  | None => default
  | Some EmptyString => default
  | Some s =>
      match Py.int s with
      | Some n => n
      | None => default
      end
  end.

(** ** The statements sent to the store *)

Definition with_sessions (db : Db) (rows : list PlayerSessions.row) : Db := {|
  servers := servers db;
  servers_id_seq := servers_id_seq db;
  server_snapshots := server_snapshots db;
  player_sessions := rows;
  unique_maps := unique_maps db
|}.

(** [UPDATE player_sessions SET leave_ts = $1 WHERE server_id = $2 AND
    player_name_norm = ANY($3) AND leave_ts IS NULL] *)
Definition close_row (timestamp server_id : Z) (names : gset string)
    (r : PlayerSessions.row) : PlayerSessions.row :=
  if bool_decide (PlayerSessions.server_id r = server_id
                  ∧ PlayerSessions.player_name_norm r ∈ names
                  ∧ PlayerSessions.leave_ts r = None)
  then {| PlayerSessions.server_id := PlayerSessions.server_id r;
          PlayerSessions.player_name := PlayerSessions.player_name r;
          PlayerSessions.player_name_norm := PlayerSessions.player_name_norm r;
          PlayerSessions.keyhash := PlayerSessions.keyhash r;
          PlayerSessions.join_ts := PlayerSessions.join_ts r;
          PlayerSessions.leave_ts := Some timestamp |}
  else r.

Definition close_sessions (timestamp server_id : Z) (names : gset string)
    (rows : list PlayerSessions.row) : list PlayerSessions.row :=
  close_row timestamp server_id names <$> rows.

(** [SELECT ... FROM server_snapshots WHERE server_id = $1
    ORDER BY timestamp DESC LIMIT 1], read through the index on
    [(server_id, timestamp DESC)]: among rows of equal timestamp the one
    inserted first is taken. *)
Fixpoint newest (rows : list ServerSnapshots.row) : option ServerSnapshots.row :=
  match rows with
  | [] => None
  | r :: rows' =>
      match newest rows' with
      | None => Some r
      | Some b =>
          if ServerSnapshots.timestamp b <=? ServerSnapshots.timestamp r
          then Some r else Some b
      end
  end.

Definition latest_snapshot (db : Db) (server_id : Z) : option ServerSnapshots.row :=
  newest (filter (λ r, ServerSnapshots.server_id r = server_id) (server_snapshots db)).

(** [INSERT INTO servers ... ON CONFLICT (ip, port) DO UPDATE SET ...
    RETURNING ...]: the row of (ip, port) is rewritten by [update] when
    there is one, and [insert] applied to a fresh id is appended when
    there is none.  The row written is returned. *)
Definition on_address (ip : string) (port : Z) (r : Servers.row) : Prop :=
  Servers.ip r = ip ∧ Servers.port r = port.

#[global] Instance on_address_dec ip port r : Decision (on_address ip port r).
Proof. unfold on_address. apply _. Defined.

Definition upsert_server (db : Db) (ip : string) (port : Z)
    (insert : Z → Servers.row) (update : Servers.row → Servers.row)
    : Db * Servers.row :=
  let '(rows, written) :=
    match list_find (on_address ip port) (servers db) with
    | Some (i, r) => (<[i := update r]> (servers db), update r)
    | None => (servers db ++ [insert (servers_id_seq db)],
               insert (servers_id_seq db))
    end in
  ({| servers := rows;
      servers_id_seq := servers_id_seq db + 1;
      server_snapshots := server_snapshots db;
      player_sessions := player_sessions db;
      unique_maps := unique_maps db |}, written).

(** ** [_update_player_sessions] *)

(** [raw_name = player.get("name")] when it passes [if not raw_name:
    continue]: the key is present and the name is not empty. *)
Definition raw_name (player : Player) : option string :=
  match name player with
  | Some (String _ _ as s) => Some s
  | _ => None
  end.

(** One turn of the loop of [_build_index]. *)
Definition index_step (index : gmap string Player) (player : Player)
    : gmap string Player :=
  match raw_name player with
  | Some raw_name => <[Py.lower raw_name := player]> index
  | None => index
  end.

Definition _build_index (players : list Player) : gmap string Player :=
  foldl index_step ∅ players.

(** The rows of [new_sessions_data], in the order the set is walked. *)
Definition new_session (server_id timestamp : Z)
    (current_index : gmap string Player) (norm_name : string)
    : option PlayerSessions.row :=
  player ← current_index !! norm_name;
  raw_name ← raw_name player;
  Some {| PlayerSessions.server_id := server_id;
          PlayerSessions.player_name := raw_name;
          PlayerSessions.player_name_norm := norm_name;
          PlayerSessions.keyhash := keyhash player;
          PlayerSessions.join_ts := timestamp;
          PlayerSessions.leave_ts := None |}.

Definition new_sessions_data (server_id timestamp : Z)
    (joined_players : gset string) (current_index : gmap string Player)
    : list PlayerSessions.row :=
  omap (new_session server_id timestamp current_index)
       (elements joined_players).

Definition joined_players (prev_players current_players : list Player) : gset string :=
  dom (_build_index current_players) ∖ dom (_build_index prev_players).

Definition left_players (prev_players current_players : list Player) : gset string :=
  dom (_build_index prev_players) ∖ dom (_build_index current_players).

(** The two statements the function sends to the pool.  Each
    [pool.execute] and [pool.executemany] is awaited before the next line
    runs and commits on its own, so the store passes through the state
    between them. *)
Inductive statement :=
  | UpdateLeave (timestamp server_id : Z) (names : gset string)
  | InsertSessions (rows : list PlayerSessions.row).

Definition execute (db : Db) (st : statement) : Db :=
  match st with
  | UpdateLeave timestamp server_id names =>
      with_sessions db
        (close_sessions timestamp server_id names (player_sessions db))
  | InsertSessions rows => with_sessions db (player_sessions db ++ rows)
  end.

(** The statements of one call, in the order they are sent: the UPDATE
    under [if left_players:], then the INSERT under [if joined_players:]
    and [if new_sessions_data:]. *)
Definition session_statements (server_id : Z)
    (prev_players current_players : list Player) (timestamp : Z)
    : list statement :=
  let current_index := _build_index current_players in
  let joined := joined_players prev_players current_players in
  let left := left_players prev_players current_players in
  (if bool_decide (left ≠ ∅)
   then [UpdateLeave timestamp server_id left] else [])
  ++ (if bool_decide (joined ≠ ∅) then
        let rows :=
          new_sessions_data server_id timestamp joined current_index in
        if bool_decide (rows ≠ []) then [InsertSessions rows] else []
      else []).

Definition _update_player_sessions (db : Db) (server_id : Z)
    (prev_players current_players : list Player) (timestamp : Z) : Db :=
  foldl execute db
    (session_statements server_id prev_players current_players timestamp).

(** ** [process_server_success] *)

Definition server_identifier (ip : string) (port : Z) : string :=
  ip +:+ ":" +:+ pretty port.

Definition server_excluded (exclusions : Exclusions) (ip : string) (port : Z) : Prop :=
  inl (server_identifier ip port) ∈ excluded_server_id exclusions
  ∨ inr (ip, port) ∈ excluded_server_id exclusions.

Definition get (d : gmap string string) (key fallback : string) : string :=
  default fallback (d !! key).

Definition normalize_player (p : gmap string string) : Player := {|
  name := Some (get p "player" "N/A");
  keyhash := p !! "keyhash";
  score := _coerce_int (p !! "score") 0;
  ping := _coerce_int (p !! "ping") 0;
  team := _coerce_int (p !! "team") 0;
  kills := _coerce_int (p !! "kills") 0;
  deaths := _coerce_int (p !! "deaths") 0
|}.

(** The loop that builds [normalized_players] (the source runs it twice,
    to the same list). *)
Definition normalized_players (exclusions : Exclusions)
    (players_raw : list (gmap string string)) : list Player :=
  normalize_player <$>
    filter (λ p, get p "player" "N/A" ∉ excluded_player_name exclusions)
           players_raw.

(** The pre-check: the probe is dropped before any write. *)
Definition excluded (exclusions : Exclusions) (ip : string) (port : Z)
    (raw_data : GameSpy1.Status) : Prop :=
  server_excluded exclusions ip port
  ∨ get (GameSpy1.info raw_data) "gametype" "N/A" ∈ excluded_gametype exclusions.

Definition previous_players_of (previous_snapshot : option ServerSnapshots.row)
    : list Player :=
  match previous_snapshot with
  | Some snap => data_players (ServerSnapshots.data snap)
  | None => []
  end.

(** ** The trigger [identify_round_change]

    It runs after every INSERT into [server_snapshots]; when it raises,
    the INSERT is undone and the statement raises. *)

(** [COALESCE((raw->'info'->>'roundtimeremain')::integer, 0)]; [None]
    when the cast raises. *)
Definition round_time (raw : GameSpy1.Status) : option Z :=
  match GameSpy1.info raw !! "roundtimeremain" with
  | Some text => Pg.int4 text
  | None => Some 0
  end.

(** [SELECT ... INTO last_snapshot FROM server_snapshots WHERE server_id
    = NEW.server_id AND timestamp < NEW.timestamp ORDER BY timestamp DESC
    LIMIT 1] *)
Definition last_snapshot (db : Db) (new : ServerSnapshots.row)
    : option ServerSnapshots.row :=
  newest (filter (λ r, ServerSnapshots.server_id r = ServerSnapshots.server_id new
                       ∧ ServerSnapshots.timestamp r < ServerSnapshots.timestamp new)
            (server_snapshots db)).

(** The trigger raises when [roundtimeremain] of the new row is present
    and is not the text of an integer, when that of the row it selects
    is not, and when [last_snapshot.last_round_time + 60], computed for
    a row of the same map, leaves the range of [INTEGER]. *)
Definition identify_round_change_raises (db : Db) (new : ServerSnapshots.row)
    : bool :=
  match round_time (ServerSnapshots.raw new) with
  | None => true
  | Some new_round_time =>
      match last_snapshot db new with
      | None => false
      | Some last =>
          match round_time (ServerSnapshots.raw last) with
          | None => true
          | Some last_round_time =>
              bool_decide (mapname (ServerSnapshots.data last)
                           = mapname (ServerSnapshots.data new))
              && (Pg.int4_max <? last_round_time + 60)
          end
      end
  end.

(** ** [process_server_success]

    The statements are sent one by one, each in its own transaction:
    when the INSERT of the snapshot raises, what was written before it
    stays written. *)
Definition process_server_success_outcome (db : Db) (ip : string) (port : Z)
    (raw_data : GameSpy1.Status) (exclusions : Exclusions) (timestamp : Z)
    : Db * bool :=
  let info := GameSpy1.info raw_data in
  let players_raw := GameSpy1.players raw_data in
  if bool_decide (server_excluded exclusions ip port) then (db, false) else
  let gametype := get info "gametype" "N/A" in
  if bool_decide (gametype ∈ excluded_gametype exclusions) then (db, false) else
  let normalized_players := normalized_players exclusions players_raw in
  let info_jsonb :=
    {| saved_fields := delete "players" info;
       saved_players := normalized_players |} in
  let hostname := get info "hostname" "N/A" in
  let mapname := Py.lower (get info "mapname" "N/A") in
  let active_mod := get info "active_mods" "N/A" in
  let '(db, written) :=
    upsert_server db ip port
      (λ id, {| Servers.id := id; Servers.ip := ip; Servers.port := port;
                Servers.hostname := Some hostname;
                Servers.status := online;
                Servers.last_seen := timestamp;
                Servers.first_seen := timestamp;
                Servers.consecutive_failures := 0;
                Servers.active_mod := Some active_mod;
                Servers.gametype := Some gametype;
                Servers.info := Some info_jsonb |})
      (λ r, {| Servers.id := Servers.id r; Servers.ip := Servers.ip r;
               Servers.port := Servers.port r;
               Servers.hostname := Some hostname;
               Servers.status := online;
               Servers.last_seen := timestamp;
               Servers.first_seen := Servers.first_seen r;
               Servers.consecutive_failures := 0;
               Servers.active_mod := Some active_mod;
               Servers.gametype := Some gametype;
               Servers.info := Some info_jsonb |}) in
  let server_id := Servers.id written in
  let db :=
    if bool_decide (mapname ≠ "n/a")
    then {| servers := servers db; servers_id_seq := servers_id_seq db;
            server_snapshots := server_snapshots db;
            player_sessions := player_sessions db;
            unique_maps := {[mapname]} ∪ unique_maps db |}
    else db in
  let previous_snapshot := latest_snapshot db server_id in
  let previous_data := ServerSnapshots.data <$> previous_snapshot in
  let previous_raw := ServerSnapshots.raw <$> previous_snapshot in
  let previous_players := previous_players_of previous_snapshot in
  let db := _update_player_sessions db server_id previous_players
              normalized_players timestamp in
  let normalized_data :=
    {| mapname := mapname; data_players := normalized_players |} in
  let raw_payload :=
    {| GameSpy1.info := info; GameSpy1.players := players_raw |} in
  if bool_decide (previous_data = Some normalized_data
                  ∧ previous_raw = Some raw_payload)
  then (db, false)
  else
    let snapshot :=
      {| ServerSnapshots.server_id := server_id;
         ServerSnapshots.timestamp := timestamp;
         ServerSnapshots.data := normalized_data;
         ServerSnapshots.raw := raw_payload |} in
    if identify_round_change_raises db snapshot then (db, true)
    else ({| servers := servers db; servers_id_seq := servers_id_seq db;
             server_snapshots := server_snapshots db ++ [snapshot];
             player_sessions := player_sessions db;
             unique_maps := unique_maps db |}, false).

(** The store that the call leaves, and whether it raises. *)
Definition process_server_success (db : Db) (ip : string) (port : Z)
    (raw_data : GameSpy1.Status) (exclusions : Exclusions) (timestamp : Z) : Db :=
  (process_server_success_outcome db ip port raw_data exclusions timestamp).1.

Definition process_server_success_raises (db : Db) (ip : string) (port : Z)
    (raw_data : GameSpy1.Status) (exclusions : Exclusions) (timestamp : Z)
    : bool :=
  (process_server_success_outcome db ip port raw_data exclusions timestamp).2.


(** ** [process_server_failure] *)

Definition process_server_failure (settings : Settings) (db : Db)
    (ip : string) (port : Z) (timestamp : Z) : Db :=
  let threshold := OFFLINE_FAILURE_THRESHOLD settings in
  let '(db, failure_row) :=
    upsert_server db ip port
      (λ id, {| Servers.id := id; Servers.ip := ip; Servers.port := port;
                Servers.hostname := None;
                Servers.status := offline;
                Servers.last_seen := timestamp;
                Servers.first_seen := timestamp;
                Servers.consecutive_failures := 1;
                Servers.active_mod := None;
                Servers.gametype := None;
                Servers.info := None |})
      (λ r, {| Servers.id := Servers.id r; Servers.ip := Servers.ip r;
               Servers.port := Servers.port r;
               Servers.hostname := Servers.hostname r;
               Servers.status :=
                 if threshold <=? Servers.consecutive_failures r + 1
                 then offline else Servers.status r;
               Servers.last_seen := timestamp;
               Servers.first_seen := Servers.first_seen r;
               Servers.consecutive_failures := Servers.consecutive_failures r + 1;
               Servers.active_mod := Servers.active_mod r;
               Servers.gametype := Servers.gametype r;
               Servers.info := Servers.info r |}) in
  if threshold <=? Servers.consecutive_failures failure_row then
    let server_id := Servers.id failure_row in
    let previous_snapshot := latest_snapshot db server_id in
    let previous_players := previous_players_of previous_snapshot in
    _update_player_sessions db server_id previous_players [] timestamp
  else db.

End DataProcessor.

(* ===================================================================== *)
(** * Vocabulary of the properties and sample inputs *)
(* ===================================================================== *)

Section Vocabulary.
Import Config Scheduler ServerQuerier MasterList DataProcessor.

(** The normalized names a player list brings to the diff: the
    lower-cased names of the records that carry a non-empty name. *)
Definition names_norm (players : list Player) : gset string :=
  list_to_set (Py.lower <$> omap raw_name players).

(** A session is open while its [leave_ts] is NULL. *)
Definition is_open (r : PlayerSessions.row) : Prop :=
  PlayerSessions.leave_ts r = None.

Definition session_key (r : PlayerSessions.row) : Z * string :=
  (PlayerSessions.server_id r, PlayerSessions.player_name_norm r).

(** The (server, normalized name) of every open session, one entry per
    row. *)
Definition open_keys (rows : list PlayerSessions.row) : list (Z * string) :=
  session_key <$> filter is_open rows.

(** P3: for every (server, normalized name) at most one session row is
    open. *)
Definition at_most_one_open (rows : list PlayerSessions.row) : Prop :=
  NoDup (open_keys rows).

(** The open sessions of a server are sessions of players of the list:
    the store and the previous player list tell the same story. *)
Definition sessions_agree (server_id : Z) (players : list Player)
    (rows : list PlayerSessions.row) : Prop :=
  Forall (λ k, k.1 = server_id → k.2 ∈ names_norm players) (open_keys rows).

(** The effect of the UPDATE on one row. *)
Definition closed_at (timestamp : Z) (r : PlayerSessions.row) : PlayerSessions.row :=
  {| PlayerSessions.server_id := PlayerSessions.server_id r;
     PlayerSessions.player_name := PlayerSessions.player_name r;
     PlayerSessions.player_name_norm := PlayerSessions.player_name_norm r;
     PlayerSessions.keyhash := PlayerSessions.keyhash r;
     PlayerSessions.join_ts := PlayerSessions.join_ts r;
     PlayerSessions.leave_ts := Some timestamp |}.


Definition info_round_ending : gmap string string :=
  <["numplayers" := "16"]> (<["roundtimeremain" := "7"]> ∅).

Definition info_empty_server : gmap string string :=
  <["numplayers" := ""]> (<["roundtimeremain" := "7"]> ∅).


Definition info_blank_remaining : gmap string string :=
  <["numplayers" := "16"]>
    (<["roundtimeremain" := ""]> (<["roundtime" := "15"]> ∅)).

(** A network on which only the standard query port answers. *)
Definition only_standard_port (a : Attempt) : option GameSpy1.Status :=
  if bool_decide (port a = 23000)
  then Some {| GameSpy1.info := ∅; GameSpy1.players := [] |}
  else None.

Definition body_with_bad_port : Response :=
  Body (JArr [JArr [JStr "1.2.3.4"; JStr "14567"];
              JArr [JStr "5.6.7.8"; JStr "abc"]]).

(** The row of an address in [servers], and the id the upsert of that
    address returns: the id of the row, or the next value of the
    sequence when there is no row yet. *)
Definition find_server (db : Db) (ip : string) (port : Z) : option Servers.row :=
  snd <$> list_find (on_address ip port) (servers db).

Definition target_id (db : Db) (ip : string) (port : Z) : Z :=
  from_option Servers.id (servers_id_seq db) (find_server db ip port).

(** The value of [consecutive_failures] that a failed probe leaves. *)
Definition failures_after (r : option Servers.row) : Z :=
  from_option (λ r, Servers.consecutive_failures r + 1) 1 r.

(** The row a failed probe writes over [r]. *)
Definition failed_again (threshold timestamp : Z) (r : Servers.row) : Servers.row :=
  {| Servers.id := Servers.id r; Servers.ip := Servers.ip r;
     Servers.port := Servers.port r;
     Servers.hostname := Servers.hostname r;
     Servers.status :=
       if threshold <=? Servers.consecutive_failures r + 1
       then offline else Servers.status r;
     Servers.last_seen := timestamp;
     Servers.first_seen := Servers.first_seen r;
     Servers.consecutive_failures := Servers.consecutive_failures r + 1;
     Servers.active_mod := Servers.active_mod r;
     Servers.gametype := Servers.gametype r;
     Servers.info := Servers.info r |}.

(** The row a failed probe inserts for an address seen for the first
    time. *)
Definition first_failure (id : Z) (ip : string) (port timestamp : Z) : Servers.row :=
  {| Servers.id := id; Servers.ip := ip; Servers.port := port;
     Servers.hostname := None; Servers.status := offline;
     Servers.last_seen := timestamp; Servers.first_seen := timestamp;
     Servers.consecutive_failures := 1;
     Servers.active_mod := None; Servers.gametype := None;
     Servers.info := None |}.

(** The upsert of the failure path. *)
Definition failure_upsert (settings : Settings) (db : Db) (ip : string)
    (port timestamp : Z) : Db * Servers.row :=
  upsert_server db ip port
    (λ id, first_failure id ip port timestamp)
    (failed_again (OFFLINE_FAILURE_THRESHOLD settings) timestamp).

(** A run of failed probes, each given by its address and its time. *)
Definition ingest_failures (settings : Settings) (db : Db)
    (probes : list (string * Z * Z)) : Db :=
  foldl (λ db probe, process_server_failure settings db probe.1.1 probe.1.2 probe.2)
        db probes.

(** The row an accepted probe writes: [id], address and [first_seen]
    are those of the row it replaces, or fresh. *)
Definition online_row (id : Z) (ip : string) (port first_seen timestamp : Z)
    (exclusions : Exclusions) (raw_data : GameSpy1.Status) : Servers.row :=
  let info := GameSpy1.info raw_data in
  {| Servers.id := id; Servers.ip := ip; Servers.port := port;
     Servers.hostname := Some (get info "hostname" "N/A");
     Servers.status := online;
     Servers.last_seen := timestamp;
     Servers.first_seen := first_seen;
     Servers.consecutive_failures := 0;
     Servers.active_mod := Some (get info "active_mods" "N/A");
     Servers.gametype := Some (get info "gametype" "N/A");
     Servers.info :=
       Some {| saved_fields := delete "players" info;
               saved_players :=
                 normalized_players exclusions (GameSpy1.players raw_data) |}
  |}.

(** The upsert of the success path. *)
Definition success_upsert (db : Db) (ip : string) (port : Z)
    (raw_data : GameSpy1.Status) (exclusions : Exclusions) (timestamp : Z)
    : Db * Servers.row :=
  upsert_server db ip port
    (λ id, online_row id ip port timestamp timestamp exclusions raw_data)
    (λ r, online_row (Servers.id r) (Servers.ip r) (Servers.port r)
            (Servers.first_seen r) timestamp exclusions raw_data).

(** [INSERT INTO unique_maps ... ON CONFLICT DO NOTHING], made when the
    map name is not ["n/a"]. *)
Definition record_map (db : Db) (mapname : string) : Db :=
  if bool_decide (mapname ≠ "n/a")
  then {| servers := servers db; servers_id_seq := servers_id_seq db;
          server_snapshots := server_snapshots db;
          player_sessions := player_sessions db;
          unique_maps := {[mapname]} ∪ unique_maps db |}
  else db.

(** [INSERT INTO server_snapshots ...] *)
Definition insert_snapshot (db : Db) (snap : ServerSnapshots.row) : Db :=
  {| servers := servers db; servers_id_seq := servers_id_seq db;
     server_snapshots := server_snapshots db ++ [snap];
     player_sessions := player_sessions db;
     unique_maps := unique_maps db |}.

(** The snapshot an accepted probe stands for. *)
Definition normalized_data_of (exclusions : Exclusions)
    (raw_data : GameSpy1.Status) : NormalizedData :=
  {| mapname := Py.lower (get (GameSpy1.info raw_data) "mapname" "N/A");
     data_players := normalized_players exclusions (GameSpy1.players raw_data) |}.

Definition snapshot_of (server_id timestamp : Z) (exclusions : Exclusions)
    (raw_data : GameSpy1.Status) : ServerSnapshots.row :=
  {| ServerSnapshots.server_id := server_id;
     ServerSnapshots.timestamp := timestamp;
     ServerSnapshots.data := normalized_data_of exclusions raw_data;
     ServerSnapshots.raw := raw_data |}.

(** The verdict of the trigger on the snapshot of a probe: [true] when
    it raises. *)
Definition snapshot_refused (db : Db) (ip : string) (port : Z)
    (raw_data : GameSpy1.Status) (exclusions : Exclusions) (timestamp : Z)
    : bool :=
  identify_round_change_raises db
    (snapshot_of (target_id db ip port) timestamp exclusions raw_data).

(** The probe brings nothing new: both its normalized data and its raw
    payload equal those of the prior snapshot. *)
Definition same_as_prior (prior : option ServerSnapshots.row)
    (exclusions : Exclusions) (raw_data : GameSpy1.Status) : Prop :=
  ServerSnapshots.data <$> prior = Some (normalized_data_of exclusions raw_data)
  ∧ ServerSnapshots.raw <$> prior = Some raw_data.

(** Every stored snapshot of the server is older than [timestamp]. *)
Definition newer_than_all (db : Db) (server_id timestamp : Z) : Prop :=
  Forall (λ r, ServerSnapshots.server_id r = server_id →
               ServerSnapshots.timestamp r < timestamp)
         (server_snapshots db).

(** One ingestion, as the worker triggers it after a probe, with the
    time it reads from the clock. *)
Inductive ingestion :=
  | Succeeded (ip : string) (port : Z) (raw_data : GameSpy1.Status)
      (exclusions : Exclusions) (timestamp : Z)
  | Failed (ip : string) (port : Z) (timestamp : Z).

Definition ingestion_time (e : ingestion) : Z :=
  match e with
  | Succeeded _ _ _ _ timestamp => timestamp
  | Failed _ _ timestamp => timestamp
  end.

Definition ingest (settings : Settings) (db : Db) (e : ingestion) : Db :=
  match e with
  | Succeeded ip port raw_data exclusions timestamp =>
      process_server_success db ip port raw_data exclusions timestamp
  | Failed ip port timestamp =>
      process_server_failure settings db ip port timestamp
  end.

Definition ingest_all (settings : Settings) (db : Db) (es : list ingestion) : Db :=
  foldl (ingest settings) db es.

(** Whether the ingestion raises: only the snapshot INSERT of the
    success path can. *)
Definition ingest_raises (settings : Settings) (db : Db) (e : ingestion)
    : bool :=
  match e with
  | Succeeded ip port raw_data exclusions timestamp =>
      process_server_success_raises db ip port raw_data exclusions timestamp
  | Failed _ _ _ => false
  end.

(** No ingestion of the run raises. *)
Fixpoint clean_run (settings : Settings) (db : Db) (es : list ingestion)
    : Prop :=
  match es with
  | [] => True
  | e :: es' =>
      ingest_raises settings db e = false
      ∧ clean_run settings (ingest settings db e) es'
  end.

(** The clock readings of a run go strictly up, starting above [t]. *)
Fixpoint increasing_from (t : Z) (es : list ingestion) : Prop :=
  match es with
  | [] => True
  | e :: es' => t < ingestion_time e ∧ increasing_from (ingestion_time e) es'
  end.

(** The state in which the ingestion paths keep the store: P3 holds, the
    open sessions of every server belong to players of its latest
    snapshot, and no snapshot is later than [t]. *)
Definition consistent (db : Db) (t : Z) : Prop :=
  at_most_one_open (player_sessions db)
  ∧ (∀ server_id,
       sessions_agree server_id
         (previous_players_of (latest_snapshot db server_id))
         (player_sessions db))
  ∧ Forall (λ r, ServerSnapshots.timestamp r ≤ t) (server_snapshots db).

(** Sample players and a store in which Alice is on server 1. *)
Definition player_named (n : string) : Player :=
  {| name := Some n; keyhash := None; score := 0; ping := 0; team := 0;
     kills := 0; deaths := 0 |}.

Definition nameless_player : Player :=
  {| name := None; keyhash := None; score := 0; ping := 0; team := 0;
     kills := 0; deaths := 0 |}.

Definition session_of_alice : PlayerSessions.row :=
  {| PlayerSessions.server_id := 1;
     PlayerSessions.player_name := "Alice";
     PlayerSessions.player_name_norm := "alice";
     PlayerSessions.keyhash := None;
     PlayerSessions.join_ts := 10;
     PlayerSessions.leave_ts := None |}.

Definition db_alice_present : Db :=
  with_sessions empty_db [session_of_alice].

(** A probe that finds Alice on the map Wake. *)
Definition probe_alice : GameSpy1.Status :=
  {| GameSpy1.info := <["mapname" := "Wake"]> (<["numplayers" := "1"]> ∅);
     GameSpy1.players := [<["player" := "Alice"]> (<["score" := "12"]> ∅)] |}.

(** A probe that finds Alice and Bob. *)
Definition probe_alice_and_bob : GameSpy1.Status :=
  {| GameSpy1.info := <["mapname" := "Wake"]> (<["numplayers" := "2"]> ∅);
     GameSpy1.players :=
       [<["player" := "Alice"]> (<["score" := "12"]> ∅);
        <["player" := "Bob"]> (<["score" := "7"]> ∅)] |}.

Definition excluding_alice : Exclusions :=
  {| excluded_gametype := ∅;
     excluded_player_name := {["Alice"]};
     excluded_server_id := ∅ |}.

(** The same probe from a server that words its remaining time. *)
Definition probe_alice_soon : GameSpy1.Status :=
  {| GameSpy1.info :=
       <["mapname" := "Wake"]>
         (<["numplayers" := "1"]> (<["roundtimeremain" := "soon"]> ∅));
     GameSpy1.players := [<["player" := "Alice"]> (<["score" := "12"]> ∅)] |}.

Definition db_after_soon : Db :=
  process_server_success empty_db "1.2.3.4" 14567 probe_alice_soon
    no_exclusions 100.

(** The store after that probe of 1.2.3.4:14567 at time 100. *)
Definition db_after_probe : Db :=
  process_server_success empty_db "1.2.3.4" 14567 probe_alice no_exclusions 100.
End Vocabulary.

(* ===================================================================== *)
(** * More built-ins: [str.split] *)
(* ===================================================================== *)

Module Str.

(** [s.split(sep)] for a separator of one character: the fields between
    the separators, empty ones included; there is always at least one. *)
Fixpoint split (sep : ascii) (s : string) : list string :=
  match s with
  | EmptyString => [EmptyString]
  | String c s' =>
      if Ascii.eqb c sep then EmptyString :: split sep s'
      else match split sep s' with
           | field :: fields => String c field :: fields
           | [] => [String c EmptyString]
           end
  end.

(** The characters of a string, and the test that a character is none of
    them. *)
Definition chars (s : string) : list ascii := list_ascii_of_string s.

Definition free_of (c : ascii) (s : string) : Prop := c ∉ chars s.

Definition is_digit (c : ascii) : Prop := is_Some (Py.digit_val c).

(** The number a run of digits stands for, continuing from [acc]. *)
Definition decimal (l : list ascii) (acc : Z) : Z :=
  foldl (λ acc c, 10 * acc + default 0 (Py.digit_val c)) acc l.

End Str.

(* ===================================================================== *)
(** * engine/scheduler.py: the state of the scheduler and its tasks

    The queue is the content of the [asyncio.PriorityQueue], whose
    [get] hands out the least tuple.  A clock reading is a rational (the
    rounding of floating-point sums is not part of the model).  Each
    function below is the stretch of a task that runs without yielding:
    the queue is unbounded, so [put] never suspends, and a [get] that
    returns goes on to the exclusion test at once. *)
(* ===================================================================== *)

Module SchedulerTasks.
Import Config DataProcessor.

(** A row of [SELECT type, value, server_ip, server_port FROM exclusions]. *)
Record ExclusionRow := {
  type : string;
  value : string;
  server_ip : option string;
  server_port : option Z
}.

Record State := {
  _queue : list (Q * string * Z);
  _known_servers : gset string;
  _parked_servers : gset (string * Z);
  _exclusions : Exclusions
}.

(** [Scheduler.__init__] *)
Definition init : State := {|
  _queue := [];
  _known_servers := ∅;
  _parked_servers := ∅;
  _exclusions := no_exclusions
|}.

Definition _is_server_excluded (self : State) (ip : string) (port : Z) : Prop :=
  server_excluded (_exclusions self) ip port.

(** [await self._queue.put(entry)] *)
Definition put (self : State) (entry : Q * string * Z) : State := {|
  _queue := _queue self ++ [entry];
  _known_servers := _known_servers self;
  _parked_servers := _parked_servers self;
  _exclusions := _exclusions self
|}.

(** [self._parked_servers.add((ip, port))] *)
Definition park (self : State) (ip : string) (port : Z) : State := {|
  _queue := _queue self;
  _known_servers := _known_servers self;
  _parked_servers := {[(ip, port)]} ∪ _parked_servers self;
  _exclusions := _exclusions self
|}.

(** [self._known_servers.add(server_id)] *)
Definition know (self : State) (server_id : string) : State := {|
  _queue := _queue self;
  _known_servers := {[server_id]} ∪ _known_servers self;
  _parked_servers := _parked_servers self;
  _exclusions := _exclusions self
|}.

(** ** [_refresh_exclusions] *)

(** [if server_ip and server_port]: both present, the string not empty,
    the number not zero. *)
Definition ip_and_port (row : ExclusionRow) : option (string * Z) :=
  match server_ip row, server_port row with
  | Some (String _ _ as ip), Some port =>
      if bool_decide (port ≠ 0) then Some (ip, port) else None
  | _, _ => None
  end.

(** One turn of the loop that fills [temp_exclusions]. *)
Definition add_row (temp : Exclusions) (row : ExclusionRow) : Exclusions :=
  if bool_decide (type row = "server_id") then
    match ip_and_port row with
    | Some (ip, port) =>
        {| excluded_gametype := excluded_gametype temp;
           excluded_player_name := excluded_player_name temp;
           excluded_server_id :=
             {[inl (server_identifier ip port)]}
             ∪ ({[inr (ip, port)]} ∪ excluded_server_id temp) |}
    | None =>
        match value row with
        | String _ _ as value =>
            {| excluded_gametype := excluded_gametype temp;
               excluded_player_name := excluded_player_name temp;
               excluded_server_id := {[inl value]} ∪ excluded_server_id temp |}
        | EmptyString => temp
        end
    end
  else if bool_decide (type row = "gametype") then
    {| excluded_gametype := {[value row]} ∪ excluded_gametype temp;
       excluded_player_name := excluded_player_name temp;
       excluded_server_id := excluded_server_id temp |}
  else if bool_decide (type row = "player_name") then
    {| excluded_gametype := excluded_gametype temp;
       excluded_player_name := {[value row]} ∪ excluded_player_name temp;
       excluded_server_id := excluded_server_id temp |}
  else temp.

Definition temp_exclusions (rows : list ExclusionRow) : Exclusions :=
  foldl add_row no_exclusions rows.

(** One turn of the loop over the parked servers; [clock] is the reading
    of [time.time()] made for that server. *)
Definition release (clock : string * Z → Q) (self : State)
    (server : string * Z) : State :=
  if bool_decide (_is_server_excluded self server.1 server.2) then self
  else {| _queue := _queue self ++ [(clock server, server.1, server.2)];
          _known_servers := _known_servers self;
          _parked_servers := _parked_servers self ∖ {[server]};
          _exclusions := _exclusions self |}.

Definition _refresh_exclusions (rows : list ExclusionRow)
    (clock : string * Z → Q) (self : State) : State :=
  let self := {| _queue := _queue self;
                 _known_servers := _known_servers self;
                 _parked_servers := _parked_servers self;
                 _exclusions := temp_exclusions rows |} in
  foldl (release clock) self (elements (_parked_servers self)).

(** One turn of [_update_exclusions_cache]: [rows] is [None] when the
    query raises, which the loop logs and survives. *)
Definition _update_exclusions_cache (rows : option (list ExclusionRow))
    (clock : string * Z → Q) (self : State) : State :=
  match rows with
  | Some rows => _refresh_exclusions rows clock self
  | None => self
  end.

(** ** [_seed_known_servers] *)

Definition seed_one (now : Q) (self : State) (row : string * Z) : State :=
  let ip := row.1 in
  let port := row.2 in
  let server_identifier := server_identifier ip port in
  if bool_decide (server_identifier ∈ _known_servers self) then self
  else
    let self := know self server_identifier in
    if bool_decide (_is_server_excluded self ip port) then park self ip port
    else put self (now, ip, port).

(** [exclusion_rows] and [rows] are [None] when their query raises. *)
Definition _seed_known_servers (exclusion_rows : option (list ExclusionRow))
    (clock : string * Z → Q) (rows : option (list (string * Z))) (now : Q)
    (self : State) : State :=
  let self := _update_exclusions_cache exclusion_rows clock self in
  match rows with
  | Some rows => foldl (seed_one now) self rows
  | None => self
  end.

(** ** [_master_list_poller] *)

(** [ip, port_str = server_id.split(":")] then [port = int(port_str)];
    [None] when the unpacking or [int] raises. *)
Definition parse_server_id (server_id : string) : option (string * Z) :=
  match Str.split ":" server_id with
  | [ip; port_str] => port ← Py.int port_str; Some (ip, port)
  | _ => None
  end.

(** One turn of the loop over [new_servers]. *)
Definition discover_one (clock : string → Q) (self : State)
    (server_id : string) : option State :=
  address ← parse_server_id server_id;
  let ip := address.1 in
  let port := address.2 in
  let self := know self server_id in
  if bool_decide (_is_server_excluded self ip port)
  then Some (park self ip port)
  else Some (put self (clock server_id, ip, port)).

(** The loop over [new_servers]: the state it reaches, and whether it
    ran to its end ([false] when a turn raises; what the earlier turns
    did stays done). *)
Fixpoint discover (clock : string → Q) (new_servers : list string)
    (self : State) : State * bool :=
  match new_servers with
  | [] => (self, true)
  | server_id :: rest =>
      match discover_one clock self server_id with
      | Some self => discover clock rest self
      | None => (self, false)
      end
  end.

(** One turn of the [while True] of the poller, for servers whose
    address is a string.  [servers] is what [fetch_servers] returned;
    the result is the state reached and the new [backoff_delay] with the
    time slept, or [None] in their place when the turn raises (nothing
    catches it: the task ends). *)
Definition _master_list_poller (settings : Settings) (clock : string → Q)
    (servers : option (list (string * Z))) (self : State) (backoff_delay : Z)
    : State * option (Z * Z) :=
  let poll_interval := MASTER_LIST_POLL_INTERVAL_S settings in
  match servers with
  | None =>
      let backoff_delay :=
        Z.min (backoff_delay * 2) (MASTER_LIST_MAX_BACKOFF_S settings) in
      (self, Some (backoff_delay, backoff_delay))
  | Some servers =>
      let backoff_delay := poll_interval in
      match servers with
      | [] => (self, Some (backoff_delay, poll_interval))
      | _ =>
          let current_server_ids : gset string :=
            list_to_set ((λ s, server_identifier s.1 s.2) <$> servers) in
          let new_servers := current_server_ids ∖ _known_servers self in
          let reached := discover clock (elements new_servers) self in
          (reached.1,
           if reached.2 then Some (backoff_delay, poll_interval) else None)
      end
  end.

(** ** [_worker] *)

(** The order of the tuples [(next_poll_time, ip, port)]. *)
Definition entry_leb (a b : Q * string * Z) : bool :=
  match (a.1.1 ?= b.1.1)%Q with
  | Lt => true
  | Gt => false
  | Eq =>
      match String.compare a.1.2 b.1.2 with
      | Lt => true
      | Gt => false
      | Eq => a.2 <=? b.2
      end
  end.

(** [PriorityQueue.get] on a queue that is not empty: a least entry and
    what is left. *)
Fixpoint pop_min (queue : list (Q * string * Z))
    : option ((Q * string * Z) * list (Q * string * Z)) :=
  match queue with
  | [] => None
  | e :: queue' =>
      match pop_min queue' with
      | None => Some (e, [])
      | Some (m, rest) =>
          if entry_leb e m then Some (e, queue') else Some (m, e :: rest)
      end
  end.

(** From [get] to the first suspension: the entry taken is parked when
    its server is excluded, and is kept by the worker otherwise.  [None]
    when the queue is empty (the worker waits). *)
Definition worker_take (self : State)
    : option (State * option (Q * string * Z)) :=
  match pop_min (_queue self) with
  | None => None
  | Some (entry, rest) =>
      let self := {| _queue := rest;
                     _known_servers := _known_servers self;
                     _parked_servers := _parked_servers self;
                     _exclusions := _exclusions self |} in
      if bool_decide (_is_server_excluded self entry.1.2 entry.2)
      then Some (park self entry.1.2 entry.2, None)
      else Some (self, Some entry)
  end.

(** [sleep_duration = next_poll_time - time.time()], slept when
    positive. *)
Definition sleep_duration (next_poll_time now : Q) : Q :=
  if Qlt_le_dec 0 (next_poll_time - now) then (next_poll_time - now)%Q else 0%Q.

(** From the answer of the querier to the end of the turn: the result is
    handed to the data processor with the exclusions of that moment and
    the address is put back, due [delay] after [now].  [now] is the
    reading made after the query, [timestamp] the one the data processor
    makes.  When the data processor raises, nothing catches it: the task
    ends there, the address is not put back ([None]) and the store keeps
    what was written. *)
Definition worker_finish (settings : Settings) (self : State) (db : Db)
    (ip : string) (port : Z) (result : option GameSpy1.Status)
    (now : Q) (timestamp : Z) : option State * Db :=
  let delay := Scheduler.worker_delay settings result in
  let requeued := put self ((now + inject_Z delay)%Q, ip, port) in
  match result with
  | Some status =>
      let outcome :=
        process_server_success_outcome db ip port status (_exclusions self)
          timestamp in
      if outcome.2 then (None, outcome.1) else (Some requeued, outcome.1)
  | None =>
      (Some requeued, process_server_failure settings db ip port timestamp)
  end.

End SchedulerTasks.

(* ===================================================================== *)
(** * The [exclusions] table

    The table of [engine/database.py] as the scheduler reads it, with its
    two generated columns.  [created_at] is left out, and the length
    limits of the text columns are not part of the model. *)
(* ===================================================================== *)

Module ExclusionsTable.

Record row := {
  id : Z;
  type : string;
  value : string;
  notes : option string
}.

(** [split_part(value, ':', n)]: the n-th field, counted from 1, and the
    empty string when there is none. *)
Definition split_part (s : string) (n : nat) : string :=
  nth (n - 1) (Str.split ":" s) EmptyString.

(** [s ~ '^[0-9]+$'] *)
Definition is_digits (s : string) : bool :=
  match Str.chars s with
  | [] => false
  | l => forallb (λ c, bool_decide (is_Some (Py.digit_val c))) l
  end.

(** The value of a string of digits, read as by [::INTEGER]. *)
Definition digits_value (s : string) : Z := Str.decimal (Str.chars s) 0.

Definition int4_max : Z := 2147483647.

(** The generated column [server_ip]. *)
Definition generated_ip (type value : string) : option string :=
  if bool_decide (type = "server_id") then Some (split_part value 1) else None.

(** The generated column [server_port]; [inr tt] when the cast raises
    "integer out of range": no row is stored with such a value. *)
Definition generated_port (type value : string) : option Z + unit :=
  if bool_decide (type = "server_id") && is_digits (split_part value 2) then
    if digits_value (split_part value 2) <=? int4_max
    then inl (Some (digits_value (split_part value 2)))
    else inr tt
  else inl None.

(** What the scheduler reads of a row. *)
Definition read_row (r : row) : SchedulerTasks.ExclusionRow :=
  {| SchedulerTasks.type := type r;
     SchedulerTasks.value := value r;
     SchedulerTasks.server_ip := generated_ip (type r) (value r);
     SchedulerTasks.server_port :=
       match generated_port (type r) (value r) with
       | inl port => port
       | inr _ => None
       end |}.

(** [SELECT type, value, server_ip, server_port FROM exclusions] *)
Definition select (rows : list row) : list SchedulerTasks.ExclusionRow :=
  read_row <$> rows.

End ExclusionsTable.

(* ===================================================================== *)
(** * Vocabulary of the properties of the scheduler and of the store *)
(* ===================================================================== *)

Section MoreVocabulary.
Import Config DataProcessor SchedulerTasks.

(** The canonical string of an address. *)
Definition identifier (address : string * Z) : string :=
  server_identifier address.1 address.2.

Definition address_of (entry : Q * string * Z) : string * Z :=
  (entry.1.2, entry.2).

(** The addresses that have an entry in the queue, one per entry. *)
Definition queued (self : State) : list (string * Z) :=
  address_of <$> _queue self.

(** P1 on the three collections: every active address (in the queue or
    in flight) occurs once, a parked address is not active, and the known
    servers are the identifiers of exactly these addresses. *)
Definition tracked_sets (active : list (string * Z))
    (parked : gset (string * Z)) (known : gset string) : Prop :=
  NoDup active
  ∧ (∀ a, a ∈ parked → a ∉ active)
  ∧ (∀ id, id ∈ known ↔ ∃ a, (a ∈ active ∨ a ∈ parked) ∧ identifier a = id).

(** [in_flight] lists the addresses whose entry a worker has taken and
    not yet put back. *)
Definition tracked (self : State) (in_flight : list (string * Z)) : Prop :=
  tracked_sets (queued self ++ in_flight) (_parked_servers self)
    (_known_servers self).

(** Every parked server is excluded by the exclusions in force. *)
Definition parked_are_excluded (self : State) : Prop :=
  ∀ a, a ∈ _parked_servers self → _is_server_excluded self a.1 a.2.

(** The scheduler at work: its state, the addresses in flight, the store
    and the [backoff_delay] of the poller. *)
Record System := {
  scheduler : State;
  in_flight : list (string * Z);
  store : Db;
  backoff_delay : Z
}.

Definition start (settings : Settings) : System := {|
  scheduler := init;
  in_flight := [];
  store := empty_db;
  backoff_delay := MASTER_LIST_POLL_INTERVAL_S settings
|}.

(** One uninterrupted stretch of one of the tasks. *)
Inductive step (settings : Settings) : System → System → Prop :=
  | seed_step sys exclusion_rows clock rows now :
      step settings sys
        {| scheduler :=
             _seed_known_servers exclusion_rows clock rows now (scheduler sys);
           in_flight := in_flight sys; store := store sys;
           backoff_delay := backoff_delay sys |}
  | refresh_step sys rows clock :
      step settings sys
        {| scheduler := _update_exclusions_cache rows clock (scheduler sys);
           in_flight := in_flight sys; store := store sys;
           backoff_delay := backoff_delay sys |}
  | poll_step sys clock servers :
      let turn :=
        _master_list_poller settings clock servers (scheduler sys)
          (backoff_delay sys) in
      step settings sys
        {| scheduler := turn.1; in_flight := in_flight sys;
           store := store sys;
           backoff_delay := from_option fst (backoff_delay sys) turn.2 |}
  | take_and_park_step sys self :
      worker_take (scheduler sys) = Some (self, None) →
      step settings sys
        {| scheduler := self; in_flight := in_flight sys; store := store sys;
           backoff_delay := backoff_delay sys |}
  | take_step sys self entry :
      worker_take (scheduler sys) = Some (self, Some entry) →
      step settings sys
        {| scheduler := self; in_flight := address_of entry :: in_flight sys;
           store := store sys; backoff_delay := backoff_delay sys |}
  | finish_step sys before after ip port result now timestamp :
      in_flight sys = before ++ (ip, port) :: after →
      let turn :=
        worker_finish settings (scheduler sys) (store sys) ip port result
          now timestamp in
      step settings sys
        {| scheduler := default (scheduler sys) turn.1;
           in_flight :=
             match turn.1 with
             | Some _ => before ++ after
             | None => in_flight sys
             end;
           store := turn.2;
           backoff_delay := backoff_delay sys |}.

Definition reachable (settings : Settings) (sys : System) : Prop :=
  rtc (step settings) (start settings) sys.

(** Consecutive turns of the poller, one per fetch, as long as none
    raises: the state and the [backoff_delay] reached, and the times
    slept. *)
Fixpoint poller_run (settings : Settings) (clock : string → Q)
    (fetches : list (option (list (string * Z)))) (self : State)
    (backoff_delay : Z) : option (State * Z * list Z) :=
  match fetches with
  | [] => Some (self, backoff_delay, [])
  | servers :: fetches =>
      let turn := _master_list_poller settings clock servers self backoff_delay in
      '(backoff_delay, slept) ← turn.2;
      '(self, backoff_delay, sleeps) ←
        poller_run settings clock fetches turn.1 backoff_delay;
      Some (self, backoff_delay, slept :: sleeps)
  end.

(** UNIQUE(ip, port) and the SERIAL of [servers]: no two rows share an
    address or an id, and every id is below the next value of the
    sequence. *)
Definition servers_well_keyed (db : Db) : Prop :=
  NoDup ((λ r, (Servers.ip r, Servers.port r)) <$> servers db)
  ∧ NoDup (Servers.id <$> servers db)
  ∧ Forall (λ r, Servers.id r < servers_id_seq db) (servers db).

(** Sample inputs. *)
Definition noon : string * Z → Q := λ _, 1200%Q.

Definition exclusion_row (ty v : string) : ExclusionRow :=
  ExclusionsTable.read_row
    {| ExclusionsTable.id := 1; ExclusionsTable.type := ty;
       ExclusionsTable.value := v; ExclusionsTable.notes := None |}.

Definition two_servers : State :=
  _seed_known_servers (Some []) noon
    (Some [("1.2.3.4", 14567); ("5.6.7.8", 23000)]) 1000%Q init.

(** The system once the scheduler has seeded two servers while the first
    is excluded, and the same system after a refresh that finds the
    table empty. *)
Definition seeded (settings : Settings) : System := {|
  scheduler :=
    _seed_known_servers (Some [exclusion_row "server_id" "1.2.3.4:14567"])
      noon (Some [("1.2.3.4", 14567); ("5.6.7.8", 23000)]) 1000%Q init;
  in_flight := [];
  store := empty_db;
  backoff_delay := MASTER_LIST_POLL_INTERVAL_S settings
|}.

Definition refreshed (settings : Settings) : System := {|
  scheduler :=
    _update_exclusions_cache (Some []) noon (scheduler (seeded settings));
  in_flight := [];
  store := empty_db;
  backoff_delay := MASTER_LIST_POLL_INTERVAL_S settings
|}.

(** No session of the server is open. *)
Definition no_open_session (server_id : Z) (rows : list PlayerSessions.row)
    : Prop :=
  Forall (λ k, k.1 ≠ server_id) (open_keys rows).

(** The accepted probes of a run bring the map [m]. *)
Definition brings_map (m : string) (e : ingestion) : Prop :=
  match e with
  | Succeeded ip port raw_data exclusions _ =>
      ¬ excluded exclusions ip port raw_data
      ∧ Py.lower (get (GameSpy1.info raw_data) "mapname" "N/A") = m
  | Failed _ _ _ => False
  end.
(** What the ingestion keeps of the store.  A session row stays as it is
    or, when it was open, is closed; a server row keeps its id, its
    address and [first_seen]; the snapshots stay at the head of their
    table, the session and server rows at their places, and no map name
    is forgotten. *)
Definition session_kept (r r' : PlayerSessions.row) : Prop :=
  r' = r ∨ (is_open r ∧ ∃ timestamp, r' = closed_at timestamp r).

Definition server_kept (r r' : Servers.row) : Prop :=
  Servers.id r' = Servers.id r ∧ Servers.ip r' = Servers.ip r
  ∧ Servers.port r' = Servers.port r
  ∧ Servers.first_seen r' = Servers.first_seen r.

Definition history_kept (db db' : Db) : Prop :=
  server_snapshots db `prefix_of` server_snapshots db'
  ∧ (∀ i r, player_sessions db !! i = Some r →
            ∃ r', player_sessions db' !! i = Some r' ∧ session_kept r r')
  ∧ (∀ i r, servers db !! i = Some r →
            ∃ r', servers db' !! i = Some r' ∧ server_kept r r')
  ∧ unique_maps db ⊆ unique_maps db'.

(** The store after the probe of Alice's server and three failed probes
    of it, as many as the default threshold. *)
Definition db_after_outage : Db :=
  ingest_failures (defaults "") db_after_probe
    [("1.2.3.4", 14567, 200); ("1.2.3.4", 14567, 300);
     ("1.2.3.4", 14567, 400)].

(** A probe in which one player record has no ['player'] key. *)
Definition probe_without_name : GameSpy1.Status :=
  {| GameSpy1.info := <["mapname" := "Wake"]> ∅;
     GameSpy1.players := [<["score" := "3"]> ∅] |}.
End MoreVocabulary.

(* ===================================================================== *)
(** * Properties of the built-ins *)
(* ===================================================================== *)

Section PyFacts.
Import Py.

Lemma lower_nonempty s : lower s = "" → s = "".
Proof. by destruct s. Qed.

Lemma lstrip_keeps c l : c ∈ l → is_space c = false → c ∈ lstrip l.
Proof.
  intros Hin Hc. induction l as [|x l IH]; [done|]. simpl.
  destruct (is_space x) eqn:Hx; [|done].
  apply elem_of_cons in Hin as [->|Hin]; [congruence | by apply IH].
Qed.

Lemma strip_keeps c l : c ∈ l → is_space c = false → c ∈ strip l.
Proof.
  intros Hin Hc. unfold strip.
  apply elem_of_reverse, lstrip_keeps; [|done].
  by apply elem_of_reverse, lstrip_keeps.
Qed.

Lemma digits_refuses c l acc b :
  c ∈ l → digit_val c = None → Ascii.eqb c "_" = false →
  digits l acc b = None.
Proof.
  intros Hin Hd Hu. revert acc b.
  induction l as [|x l IH]; intros acc b; [by apply elem_of_nil in Hin|].
  simpl. destruct (decide (x = c)) as [->|Hne].
  - by rewrite Hd, Hu.
  - apply elem_of_cons in Hin as [->|Hin]; [done|].
    destruct (digit_val x); [by apply IH|].
    destruct (Ascii.eqb x "_" && b); [by apply IH | done].
Qed.

(** A string holding a character that no integer literal contains is
    refused by [int]. *)
Lemma int_non_numeric s c :
  c ∈ list_ascii_of_string s → numeric_char c = false → int s = None.
Proof.
  intros Hin Hc. unfold numeric_char in Hc.
  apply orb_false_iff in Hc as [Hc Hminus].
  apply orb_false_iff in Hc as [Hc Hplus].
  apply orb_false_iff in Hc as [Hc Hunder].
  apply orb_false_iff in Hc as [Hc Hdigit].
  assert (digit_val c = None) as Hd.
  { apply bool_decide_eq_false in Hdigit.
    destruct (digit_val c) eqn:E; [|done]. exfalso; eauto. }
  pose proof (strip_keeps _ _ Hin Hc) as Hs.
  assert (Hlit : ∀ l, c ∈ l → literal l = None).
  { intros l Hl. unfold literal. by erewrite digits_refuses. }
  unfold int. destruct (strip (list_ascii_of_string s)) as [|x l];
    [done|].
  destruct (Ascii.eqb x "+") eqn:Hp.
  { apply Ascii.eqb_eq in Hp as ->.
    apply elem_of_cons in Hs as [->|Hs]; [done|]. by apply Hlit. }
  destruct (Ascii.eqb x "-") eqn:Hm; [|by apply Hlit].
  apply Ascii.eqb_eq in Hm as ->.
  apply elem_of_cons in Hs as [->|Hs]; [done|].
  by rewrite Hlit.
Qed.
End PyFacts.

(* ===================================================================== *)
(** * The delay policy of the worker *)
(* ===================================================================== *)

Section SchedulerFacts.
Import Config Scheduler.

Lemma safe_int_missing d : _safe_int None d = d.
Proof. done. Qed.

Lemma safe_int_empty d : _safe_int (Some "") d = d.
Proof. done. Qed.

Lemma safe_int_refused s d : Py.int s = None → _safe_int (Some s) d = d.
Proof. intros H. destruct s; [done|]. simpl. by rewrite H. Qed.

Lemma safe_int_parsed s n d : Py.int s = Some n → _safe_int (Some s) d = n.
Proof. intros H. destruct s; [done|]. simpl. by rewrite H. Qed.

Lemma or_left a b s : a = Some s → s ≠ "" → Py.or_ a b = a.
Proof. intros -> Hs. by destruct s. Qed.

Lemma or_right a b : a = None ∨ a = Some "" → Py.or_ a b = b.
Proof. by intros [-> | ->]. Qed.

(** C4, as stated, fails: not every successful probe result is followed
    by a re-enqueue.  This result has 16 players and an empty
    [roundtimeremain] (with [roundtime = 15] the table gives 18 s); the
    store refuses its snapshot, whose [roundtimeremain] the trigger
    cannot read as an integer, the data processor raises and the worker
    ends without putting the address back. *)
Lemma C4_counterexample :
  worker_delay (defaults "")
    (Some {| GameSpy1.info := info_blank_remaining; GameSpy1.players := [] |})
  = 18
  ∧ DataProcessor.process_server_success_raises empty_db "1.2.3.4" 14567
      {| GameSpy1.info := info_blank_remaining; GameSpy1.players := [] |}
      no_exclusions 100 = true
  ∧ (SchedulerTasks.worker_finish (defaults "") SchedulerTasks.init empty_db
       "1.2.3.4" 14567
       (Some {| GameSpy1.info := info_blank_remaining;
                GameSpy1.players := [] |})
       1000%Q 100).1 = None.
Proof. vm_compute. done. Qed.



(** C5, as stated, fails: with [roundtimeremain] present but empty the
    worker takes [roundtime] (15 here), whereas a fallback made exactly
    when the key is missing would parse the empty string to 0. *)
Lemma C5_counterexample :
  info_blank_remaining !! "roundtimeremain" = Some ""
  ∧ time_remaining info_blank_remaining = 15
  ∧ time_remaining_spec info_blank_remaining = 0
  ∧ time_remaining info_blank_remaining
    ≠ time_remaining_spec info_blank_remaining.
Proof. vm_compute. repeat split; discriminate. Qed.

(** C5, amended. [numplayers] that is missing, empty or refused by
    [int] parses to 0 (so does one holding any character foreign to an
    integer literal).  The remaining time is parsed from
    [roundtimeremain] when that is present and non-empty, from
    [roundtime] exactly when [roundtimeremain] is missing or empty, and
    is 0 when both are missing; a value [int] refuses parses to 0
    without any further fallback. *)
Theorem C5_defensive_parsing (info : gmap string string) :
  (info !! "numplayers" = None → num_players info = 0)
  ∧ (info !! "numplayers" = Some "" → num_players info = 0)
  ∧ (∀ s, info !! "numplayers" = Some s → Py.int s = None →
          num_players info = 0)
  ∧ (∀ s c, info !! "numplayers" = Some s →
            c ∈ list_ascii_of_string s → Py.numeric_char c = false →
            num_players info = 0)
  ∧ (∀ s, info !! "roundtimeremain" = Some s → s ≠ "" →
          time_remaining_raw info = Some s
          ∧ time_remaining info = _safe_int (Some s) 0)
  ∧ (info !! "roundtimeremain" = None ∨ info !! "roundtimeremain" = Some "" →
       time_remaining_raw info = info !! "roundtime"
       ∧ time_remaining info = _safe_int (info !! "roundtime") 0)
  ∧ ((∃ s, info !! "roundtimeremain" = Some s ∧ s ≠ ""
           ∧ info !! "roundtime" ≠ Some s) →
       time_remaining_raw info ≠ info !! "roundtime")
  ∧ (info !! "roundtimeremain" = None → info !! "roundtime" = None →
       time_remaining info = 0)
  ∧ (∀ s, info !! "roundtimeremain" = Some s → Py.int s = None →
          time_remaining info = 0 ∨ s = "").
Proof.
  unfold num_players, time_remaining, time_remaining_raw.
  repeat split.
  - by intros ->.
  - by intros ->.
  - intros s -> Hs. by apply safe_int_refused.
  - intros s c -> Hin Hc. eapply safe_int_refused, int_non_numeric; eauto.
  - rewrite (or_left _ _ s); done.
  - rewrite (or_left _ _ s); [by rewrite H | done..].
  - by rewrite or_right.
  - by rewrite or_right.
  - intros (s & Hs & Hne & Hrt). rewrite (or_left _ _ s); [|done..].
    by rewrite Hs.
  - intros H1 H2. by rewrite or_right, H2 by auto.
  - intros s Hs Hint. destruct (decide (s = "")) as [|Hne]; [by right|left].
    rewrite (or_left _ _ s), Hs; [|done..]. by apply safe_int_refused.
Qed.

Lemma C5_defensive_parsing_witness :
  num_players (∅ : gmap string string) = 0
  ∧ num_players info_empty_server = 0
  ∧ num_players (<["numplayers" := "many"]> ∅) = 0
  ∧ time_remaining info_round_ending = 7
  ∧ time_remaining info_blank_remaining = 15
  ∧ time_remaining (<["roundtime" := "42"]> ∅) = 42
  ∧ time_remaining (∅ : gmap string string) = 0.
Proof.
  split; [|split; [|split; [|split; [|split; [|split]]]]].
  - destruct (C5_defensive_parsing ∅) as (H & _).
    apply H. reflexivity.
  - destruct (C5_defensive_parsing info_empty_server) as (_ & H & _).
    apply H. reflexivity.
  - destruct (C5_defensive_parsing (<["numplayers" := "many"]> ∅))
      as (_ & _ & H & _).
    apply (H "many"); reflexivity.
  - destruct (C5_defensive_parsing info_round_ending)
      as (_ & _ & _ & _ & H & _).
    destruct (H "7") as [_ ->]; [reflexivity | discriminate | reflexivity].
  - destruct (C5_defensive_parsing info_blank_remaining)
      as (_ & _ & _ & _ & _ & H & _).
    destruct H as [_ ->]; [right; reflexivity | reflexivity].
  - destruct (C5_defensive_parsing (<["roundtime" := "42"]> ∅))
      as (_ & _ & _ & _ & _ & H & _).
    destruct H as [_ ->]; [left; reflexivity | reflexivity].
  - destruct (C5_defensive_parsing ∅) as (_ & _ & _ & _ & _ & _ & _ & H & _).
    apply H; reflexivity.
Defined.
End SchedulerFacts.

(* ===================================================================== *)
(** * The querier *)
(* ===================================================================== *)

Section QuerierFacts.
Import Config ServerQuerier.
Context (settings : Settings) (get_status : Attempt → option GameSpy1.Status).

Lemma query_server_primary_ok ip port status :
  get_status (primary settings ip port) = Some status →
  query_server settings get_status ip port
  = ([primary settings ip port], Some status).
Proof. unfold query_server. by intros ->. Qed.

Lemma query_server_fallback ip port :
  get_status (primary settings ip port) = None → port ≠ 23000 →
  query_server settings get_status ip port
  = ([primary settings ip port; fallback settings ip],
     get_status (fallback settings ip)).
Proof.
  unfold query_server, standard_query_port.
  intros -> Hp. rewrite bool_decide_eq_true_2 by done.
  by destruct (get_status _).
Qed.

Lemma query_server_standard_port ip :
  get_status (primary settings ip 23000) = None →
  query_server settings get_status ip 23000
  = ([primary settings ip 23000], None).
Proof. unfold query_server. by intros ->. Qed.
End QuerierFacts.

Section QuerierClaim.
Import Config ServerQuerier.

(** C8. [query_server] first calls [get_status] on host [ip], port
    [port], with half of [SERVER_QUERY_TIMEOUT_S] (2 s by default).  If that call succeeds
    its result is returned and nothing else is tried.  If it raises, one
    further call is made, on (ip, 23000) with the same timeout, exactly
    when the port is not 23000, and its outcome is the result; a server
    on port 23000 is asked once only.  The result is [None] exactly when
    every call made has failed.  One or two calls are made, all to host
    [ip] with that timeout, the first to [port] and the second to
    23000. *)
Theorem C8_query_server (settings : Settings)
    (get_status : Attempt → option GameSpy1.Status) (ip : string) (port : Z) :
  let attempts := (query_server settings get_status ip port).1 in
  let result := (query_server settings get_status ip port).2 in
  attempts !! 0%nat = Some (primary settings ip port)
  ∧ (∀ status, get_status (primary settings ip port) = Some status →
       attempts = [primary settings ip port] ∧ result = Some status)
  ∧ (get_status (primary settings ip port) = None →
       (port ≠ 23000 ↔ attempts = [primary settings ip port; fallback settings ip])
       ∧ (port = 23000 ↔ attempts = [primary settings ip port])
       ∧ (port ≠ 23000 → result = get_status (fallback settings ip))
       ∧ (port = 23000 → result = None))
  ∧ (result = None ↔ Forall (λ a, get_status a = None) attempts)
  ∧ (∀ status, result = Some status →
       ∃ i a, attempts !! i = Some a ∧ get_status a = Some status
              ∧ ∀ j b, (j < i)%nat → attempts !! j = Some b →
                       get_status b = None)
  ∧ (∀ a, a ∈ attempts → timeout a = (SERVER_QUERY_TIMEOUT_S settings / 2)%Q)
  ∧ (∀ a, a ∈ attempts → host a = ip)
  ∧ (∀ dsn, (SERVER_QUERY_TIMEOUT_S (defaults dsn) / 2 == 2)%Q)
  ∧ (∀ i a, attempts !! i = Some a →
       host a = ip
       ∧ ServerQuerier.port a = match i with 0%nat => port | _ => 23000 end
       ∧ timeout a = (SERVER_QUERY_TIMEOUT_S settings / 2)%Q)
  ∧ (1 ≤ length attempts ≤ 2)%nat.
Proof.
  intros attempts result. subst attempts result.
  assert (∀ l : list Attempt,
            l = [primary settings ip port]
            ∨ l = [primary settings ip port; fallback settings ip] →
            (∀ i a, l !! i = Some a →
               host a = ip
               ∧ ServerQuerier.port a
                 = match i with 0%nat => port | _ => 23000 end
               ∧ timeout a = (SERVER_QUERY_TIMEOUT_S settings / 2)%Q)
            ∧ (1 ≤ length l ≤ 2)%nat) as Hcalls.
  { intros l [-> | ->]; (split; [|simpl; lia]).
    - intros [|i] a; [|done]. by intros [= <-].
    - intros [|[|i]] a; [| |done]; by intros [= <-]. }
  destruct (get_status (primary settings ip port)) as [status|] eqn:Hprim.
  - rewrite (query_server_primary_ok _ _ _ _ _ Hprim). cbn [fst snd].
    destruct (Hcalls [primary settings ip port]) as [Hc1 Hc2]; [by left|].
    split_and!; try done; try (simpl; lia).
    + split; [done|]. intros H. rewrite Forall_singleton in H. congruence.
    + intros ? [= <-]. exists 0%nat, (primary settings ip port).
      split_and!; [done..|]. intros; lia.
    + intros a ->%list_elem_of_singleton. done.
    + intros a ->%list_elem_of_singleton. done.
  - destruct (decide (port = 23000)) as [->|Hport].
    + rewrite (query_server_standard_port _ _ _ Hprim). cbn [fst snd].
      destruct (Hcalls [primary settings ip 23000]) as [Hc1 Hc2]; [by left|].
      split_and!; try done; try (simpl; lia).
      * split; [|done]. intros _. by apply Forall_singleton.
      * intros a ->%list_elem_of_singleton. done.
      * intros a ->%list_elem_of_singleton. done.
    + rewrite (query_server_fallback _ _ _ _ Hprim Hport). cbn [fst snd].
      destruct (Hcalls [primary settings ip port; fallback settings ip])
        as [Hc1 Hc2]; [by right|].
      split_and!; try done; try (simpl; lia).
      * split.
        -- intros H. by apply Forall_cons_2, Forall_singleton.
        -- intros H. apply Forall_cons in H as [_ H].
           by rewrite Forall_singleton in H.
      * intros status Hfb. exists 1%nat, (fallback settings ip).
        split_and!; [done..|].
        intros [|j] b Hj; [|lia]. by intros [= <-].
      * intros a [->|Ha]%elem_of_cons; [done|].
        by apply list_elem_of_singleton in Ha as ->.
      * intros a [->|Ha]%elem_of_cons; [done|].
        by apply list_elem_of_singleton in Ha as ->.
Qed.

Lemma C8_query_server_witness :
  (query_server (defaults "") only_standard_port "1.2.3.4" 14567).1
    = [{| host := "1.2.3.4"; port := 14567; timeout := (4 # 1) / 2 |};
       {| host := "1.2.3.4"; port := 23000; timeout := (4 # 1) / 2 |}]
  ∧ (query_server (defaults "") only_standard_port "1.2.3.4" 14567).2
    = Some {| GameSpy1.info := ∅; GameSpy1.players := [] |}
  ∧ (query_server (defaults "") (λ _, None) "1.2.3.4" 23000).1
    = [primary (defaults "") "1.2.3.4" 23000]
  ∧ (query_server (defaults "") (λ _, None) "1.2.3.4" 23000).2 = None.
Proof.
  destruct (C8_query_server (defaults "") only_standard_port "1.2.3.4" 14567)
    as (_ & _ & H & _).
  destruct (H eq_refl) as (Ha & _ & Hr & _).
  destruct (C8_query_server (defaults "") (λ _, None) "1.2.3.4" 23000)
    as (_ & _ & H' & _).
  destruct (H' eq_refl) as (_ & Ha' & _ & Hr').
  split; [apply Ha; discriminate|].
  split; [rewrite Hr; [reflexivity | discriminate]|].
  split; [apply Ha'; reflexivity | apply Hr'; reflexivity].
Defined.
End QuerierClaim.

(* ===================================================================== *)
(** * The master-list client *)
(* ===================================================================== *)

Section MasterListFacts.
Import MasterList.

Lemma fetch_servers_array items :
  fetch_servers (Body (JArr items))
  = mapM entry (filter (λ item, is_pair item = true) items).
Proof. done. Qed.

(** Entries that are not two-element arrays are dropped one by one. *)
Lemma fetch_servers_drops_non_pairs items :
  Forall (λ item, is_pair item = false) items →
  fetch_servers (Body (JArr items)) = Some [].
Proof.
  intros H. rewrite fetch_servers_array.
  induction H as [|x l Hx _ IH]; [done|].
  rewrite filter_cons_False; [done | congruence].
Qed.

Lemma fetch_servers_skips_non_pair item items :
  is_pair item = false →
  fetch_servers (Body (JArr (item :: items)))
  = fetch_servers (Body (JArr items)).
Proof.
  intros H. rewrite !fetch_servers_array, filter_cons_False; [done|congruence].
Qed.

(** The fetch of a JSON array fails exactly when one of its two-element
    entries has a port that [int] refuses. *)
Lemma fetch_servers_fails_iff items :
  fetch_servers (Body (JArr items)) = None
  ↔ ∃ ip port, JArr [ip; port] ∈ items ∧ int_of port = None.
Proof.
  rewrite fetch_servers_array, mapM_None, Exists_exists. split.
  - intros (item & [Hpair Hin]%list_elem_of_filter & Hentry).
    destruct item as [| | | | |[|ip [|port [|]]]|]; try done.
    exists ip, port. split; [done|].
    simpl in Hentry. by destruct (int_of port).
  - intros (ip & port & Hin & Hport).
    exists (JArr [ip; port]). split; [by apply list_elem_of_filter|].
    simpl. by rewrite Hport.
Qed.

(** C7. A master list in which one entry carries a non-numeric port:
    the entry is not dropped, the whole fetch fails ([None], the result
    that makes the poller back off), where dropping the entry would have
    returned the other one.  A list whose only entry is such an entry
    gives [None] as well, not the empty list. *)
Theorem C7_non_numeric_port_fails_fetch :
  fetch_servers body_with_bad_port = None
  ∧ fetch_servers_spec body_with_bad_port = Some [(JStr "1.2.3.4", 14567)]
  ∧ fetch_servers (Body (JArr [JArr [JStr "5.6.7.8"; JStr "abc"]])) = None
  ∧ fetch_servers_spec (Body (JArr [JArr [JStr "5.6.7.8"; JStr "abc"]]))
    = Some [].
Proof. vm_compute. done. Qed.
End MasterListFacts.

(* ===================================================================== *)
(** * The session transition *)
(* ===================================================================== *)

Section SessionFacts.
Import DataProcessor.

Lemma raw_name_None p :
  raw_name p = None ↔ name p = None ∨ name p = Some "".
Proof.
  unfold raw_name. destruct (name p) as [[|c s]|].
  - split; [by right | done].
  - split; [done | by intros [?|?]].
  - split; [by left | done].
Qed.

Lemma raw_name_Some p s : raw_name p = Some s → name p = Some s ∧ s ≠ "".
Proof.
  unfold raw_name. destruct (name p) as [[|c s']|]; [done| |done].
  by intros [= <-].
Qed.

Lemma names_norm_cons p players :
  names_norm (p :: players)
  = match raw_name p with
    | Some s => {[Py.lower s]} ∪ names_norm players
    | None => names_norm players
    end.
Proof. unfold names_norm. simpl. by destruct (raw_name p). Qed.

Lemma elem_of_names_norm n players :
  n ∈ names_norm players
  ↔ ∃ p s, p ∈ players ∧ raw_name p = Some s ∧ Py.lower s = n.
Proof.
  unfold names_norm. rewrite elem_of_list_to_set, list_elem_of_fmap.
  setoid_rewrite list_elem_of_omap. naive_solver.
Qed.

(** *** The index *)

Lemma dom_index_from (m : gmap string Player) players :
  dom (foldl index_step m players) = dom m ∪ names_norm players.
Proof.
  revert m. induction players as [|p players IH]; intros m.
  - unfold names_norm. simpl. set_solver.
  - simpl. rewrite IH, names_norm_cons. unfold index_step.
    destruct (raw_name p); [rewrite dom_insert_L|]; set_solver.
Qed.

Lemma dom_build_index players : dom (_build_index players) = names_norm players.
Proof. unfold _build_index. rewrite dom_index_from. set_solver. Qed.

Lemma index_from_lookup (m : gmap string Player) players n p :
  foldl index_step m players !! n = Some p →
  m !! n = Some p
  ∨ (p ∈ players ∧ ∃ s, raw_name p = Some s ∧ Py.lower s = n).
Proof.
  revert m. induction players as [|q players IH]; intros m; [by left|].
  simpl. intros [H|(Hin & H)]%IH.
  - unfold index_step in H.
    destruct (raw_name q) as [s|] eqn:Hq; [|by left].
    apply lookup_insert_Some in H as [[<- <-]|[_ H]]; [|by left].
    right. split; [apply elem_of_cons; by left | eauto].
  - right. split; [apply elem_of_cons; by right | done].
Qed.

Lemma build_index_lookup players n p :
  _build_index players !! n = Some p →
  p ∈ players ∧ ∃ s, raw_name p = Some s ∧ Py.lower s = n.
Proof. intros [H|H]%index_from_lookup; [done | done]. Qed.

(** Records without a usable name leave no trace in the index. *)
Lemma index_from_filter (m : gmap string Player) players :
  foldl index_step m players
  = foldl index_step m (filter (λ p, is_Some (raw_name p)) players).
Proof.
  revert m. induction players as [|p players IH]; intros m; [done|].
  simpl. destruct (raw_name p) as [s|] eqn:Hp.
  - rewrite filter_cons_True by (rewrite Hp; eauto). simpl. apply IH.
  - rewrite filter_cons_False by (rewrite Hp; by intros [? ?]).
    unfold index_step at 2. rewrite Hp. apply IH.
Qed.

Lemma build_index_filter players :
  _build_index players
  = _build_index (filter (λ p, is_Some (raw_name p)) players).
Proof. apply index_from_filter. Qed.

(** *** The two statements *)

Lemma close_row_empty ts sid r : close_row ts sid ∅ r = r.
Proof.
  unfold close_row. rewrite bool_decide_eq_false_2; [done|set_solver].
Qed.

Lemma close_sessions_empty ts sid rows : close_sessions ts sid ∅ rows = rows.
Proof.
  unfold close_sessions. induction rows as [|r rows IH]; [done|].
  by rewrite fmap_cons, close_row_empty, IH.
Qed.

Lemma new_sessions_data_empty sid ts index :
  new_sessions_data sid ts ∅ index = [].
Proof. unfold new_sessions_data. by rewrite elements_empty. Qed.

(** The table after the call: the old rows with the sessions of the
    names that left closed, followed by one new row per name that
    joined. *)
Lemma update_sessions_rows db sid prev cur ts :
  player_sessions (_update_player_sessions db sid prev cur ts)
  = close_sessions ts sid (left_players prev cur) (player_sessions db)
    ++ new_sessions_data sid ts (joined_players prev cur) (_build_index cur).
Proof.
  unfold _update_player_sessions, session_statements. cbv zeta.
  rewrite foldl_app.
  set (db1 := foldl execute db _).
  assert (Hleft : player_sessions db1
    = close_sessions ts sid (left_players prev cur) (player_sessions db)).
  { subst db1. case_bool_decide as H; [done|]. simpl.
    by rewrite H, close_sessions_empty. }
  clearbody db1.
  destruct (decide (joined_players prev cur = ∅)) as [Hj|Hj].
  - rewrite bool_decide_eq_false_2 by (by intros ?). simpl.
    by rewrite Hleft, Hj, new_sessions_data_empty, app_nil_r.
  - rewrite bool_decide_eq_true_2 by done.
    destruct (decide (new_sessions_data sid ts (joined_players prev cur)
                        (_build_index cur) = [])) as [Hr|Hr].
    + rewrite bool_decide_eq_false_2 by (by intros ?). simpl.
      by rewrite Hleft, Hr, app_nil_r.
    + rewrite bool_decide_eq_true_2 by done. simpl. by rewrite Hleft.
Qed.

Lemma update_sessions_frame db sid prev cur ts :
  let db' := _update_player_sessions db sid prev cur ts in
  servers db' = servers db ∧ servers_id_seq db' = servers_id_seq db
  ∧ server_snapshots db' = server_snapshots db
  ∧ unique_maps db' = unique_maps db.
Proof.
  unfold _update_player_sessions, session_statements.
  repeat case_bool_decide; done.
Qed.
End SessionFacts.

Section SessionInvariant.
Import DataProcessor.

Lemma filter_all {A} (P : A → Prop) `{∀ x, Decision (P x)} (l : list A) :
  Forall P l → filter P l = l.
Proof.
  induction 1 as [|x l Hx _ IH]; [done|].
  by rewrite filter_cons_True, IH.
Qed.

Lemma pair_with_inj (sid : Z) : Inj (=) (=) (λ n : string, (sid, n)).
Proof. by intros ?? [= ->]. Qed.

Lemma new_session_Some sid ts index n r :
  new_session sid ts index n = Some r →
  ∃ p s, index !! n = Some p ∧ raw_name p = Some s
         ∧ r = {| PlayerSessions.server_id := sid;
                  PlayerSessions.player_name := s;
                  PlayerSessions.player_name_norm := n;
                  PlayerSessions.keyhash := keyhash p;
                  PlayerSessions.join_ts := ts;
                  PlayerSessions.leave_ts := None |}.
Proof.
  unfold new_session. intros H.
  destruct (index !! n) as [p|]; simpl in H; [|done].
  destruct (raw_name p) as [s|] eqn:Hs; simpl in H; [|done].
  injection H as <-. by exists p, s.
Qed.

Lemma new_session_indexed sid ts cur n :
  n ∈ names_norm cur → is_Some (new_session sid ts (_build_index cur) n).
Proof.
  rewrite <- dom_build_index, elem_of_dom. intros [p Hp].
  destruct (build_index_lookup _ _ _ Hp) as (_ & s & Hs & _).
  unfold new_session. rewrite Hp. simpl. rewrite Hs. simpl. eauto.
Qed.

(** Every name walked gives a row, and the row carries that name. *)
Lemma new_sessions_keys sid ts cur (l : list string) :
  (∀ n, n ∈ l → n ∈ names_norm cur) →
  session_key <$> omap (new_session sid ts (_build_index cur)) l
  = (λ n, (sid, n)) <$> l.
Proof.
  induction l as [|n l IH]; intros H; [done|].
  destruct (new_session_indexed sid ts cur n) as [r Hr].
  { apply H, elem_of_cons. by left. }
  simpl. rewrite Hr.
  destruct (new_session_Some _ _ _ _ _ Hr) as (p & s & _ & _ & ->).
  rewrite fmap_cons. f_equal. apply IH. intros m Hm.
  apply H, elem_of_cons. by right.
Qed.

Lemma new_sessions_open sid ts index (l : list string) :
  Forall is_open (omap (new_session sid ts index) l).
Proof.
  apply Forall_forall. intros r (n & _ & Hr)%list_elem_of_omap.
  by destruct (new_session_Some _ _ _ _ _ Hr) as (p & s & _ & _ & ->).
Qed.

Lemma joined_subseteq prev cur : joined_players prev cur ⊆ names_norm cur.
Proof. unfold joined_players. rewrite !dom_build_index. set_solver. Qed.

Lemma open_keys_new sid ts prev cur :
  open_keys (new_sessions_data sid ts (joined_players prev cur)
               (_build_index cur))
  = (λ n, (sid, n)) <$> elements (joined_players prev cur).
Proof.
  unfold open_keys, new_sessions_data.
  rewrite filter_all by apply new_sessions_open.
  apply new_sessions_keys. intros n Hn%elem_of_elements.
  by apply joined_subseteq in Hn.
Qed.

Lemma close_row_spec ts sid names r :
  close_row ts sid names r
  = if decide (PlayerSessions.server_id r = sid
               ∧ PlayerSessions.player_name_norm r ∈ names ∧ is_open r)
    then closed_at ts r else r.
Proof. unfold close_row. case_bool_decide; by case_decide. Qed.

Lemma open_keys_cons r rows :
  open_keys (r :: rows)
  = if decide (is_open r) then session_key r :: open_keys rows
    else open_keys rows.
Proof.
  unfold open_keys. rewrite filter_cons. by case_decide.
Qed.

Lemma open_keys_app rows1 rows2 :
  open_keys (rows1 ++ rows2) = open_keys rows1 ++ open_keys rows2.
Proof. unfold open_keys. by rewrite filter_app, fmap_app. Qed.

(** Closing removes from the open sessions those of the server whose
    name left, and no other. *)
Lemma open_keys_close ts sid names rows :
  open_keys (close_sessions ts sid names rows)
  = filter (λ k, ¬ (k.1 = sid ∧ k.2 ∈ names)) (open_keys rows).
Proof.
  unfold close_sessions. induction rows as [|r rows IH]; [done|].
  rewrite fmap_cons, !open_keys_cons, close_row_spec.
  destruct (decide (PlayerSessions.server_id r = sid
                    ∧ PlayerSessions.player_name_norm r ∈ names
                    ∧ is_open r)) as [(Hs & Hn & Ho)|Hc].
  - rewrite decide_False by done. rewrite decide_True by done.
    rewrite filter_cons_False; [done|]. simpl. by intros [].
  - destruct (decide (is_open r)) as [Ho|Ho]; [|done].
    rewrite filter_cons_True; [by rewrite IH|].
    simpl. intros [? ?]. by apply Hc.
Qed.

(** The transition keeps P3, and makes the store agree with the current
    list, when the store agreed with the previous one. *)
Lemma update_sessions_invariant db sid prev cur ts :
  at_most_one_open (player_sessions db) →
  sessions_agree sid prev (player_sessions db) →
  at_most_one_open
    (player_sessions (_update_player_sessions db sid prev cur ts))
  ∧ sessions_agree sid cur
      (player_sessions (_update_player_sessions db sid prev cur ts)).
Proof.
  unfold at_most_one_open, sessions_agree. intros Hone Hagree.
  rewrite update_sessions_rows, open_keys_app, open_keys_close, open_keys_new.
  rewrite Forall_forall in Hagree.
  assert (Hl : left_players prev cur = names_norm prev ∖ names_norm cur)
    by (unfold left_players; by rewrite !dom_build_index).
  assert (Hj : joined_players prev cur = names_norm cur ∖ names_norm prev)
    by (unfold joined_players; by rewrite !dom_build_index).
  split.
  - apply NoDup_app. split_and!.
    + by apply NoDup_filter.
    + intros k [Hk Hin]%list_elem_of_filter
             (n & -> & Hn%elem_of_elements)%list_elem_of_fmap.
      specialize (Hagree _ Hin eq_refl). simpl in Hagree. set_solver.
    + apply (@NoDup_fmap_2 _ _ _ (pair_with_inj sid)), NoDup_elements.
  - apply Forall_app. split; apply Forall_forall.
    + intros k [Hk Hin]%list_elem_of_filter Hs.
      specialize (Hagree _ Hin Hs). rewrite Hl in Hk.
      destruct (decide (k.2 ∈ names_norm cur)); [done|].
      exfalso. apply Hk. set_solver.
    + intros k (n & -> & Hn%elem_of_elements)%list_elem_of_fmap _.
      simpl. set_solver.
Qed.
End SessionInvariant.

Section SessionClaims.
Import DataProcessor.

Lemma joined_players_eq prev cur :
  joined_players prev cur = names_norm cur ∖ names_norm prev.
Proof. unfold joined_players. by rewrite !dom_build_index. Qed.

Lemma left_players_eq prev cur :
  left_players prev cur = names_norm prev ∖ names_norm cur.
Proof. unfold left_players. by rewrite !dom_build_index. Qed.

(** What a row opened by the transition holds. *)
Lemma opened_row sid ts prev cur r :
  r ∈ new_sessions_data sid ts (joined_players prev cur) (_build_index cur) →
  ∃ p, _build_index cur !! PlayerSessions.player_name_norm r = Some p
       ∧ p ∈ cur
       ∧ name p = Some (PlayerSessions.player_name r)
       ∧ PlayerSessions.player_name r ≠ ""
       ∧ PlayerSessions.player_name_norm r
         = Py.lower (PlayerSessions.player_name r)
       ∧ PlayerSessions.player_name_norm r ∈ joined_players prev cur
       ∧ PlayerSessions.keyhash r = keyhash p
       ∧ PlayerSessions.server_id r = sid
       ∧ PlayerSessions.join_ts r = ts
       ∧ PlayerSessions.leave_ts r = None.
Proof.
  unfold new_sessions_data.
  intros (n & Hn%elem_of_elements & Hr)%list_elem_of_omap.
  destruct (new_session_Some _ _ _ _ _ Hr) as (p & s & Hp & Hs & ->).
  destruct (build_index_lookup _ _ _ Hp) as (Hin & s' & Hs' & Hlow).
  assert (s' = s) as -> by congruence.
  destruct (raw_name_Some _ _ Hs) as [Hname Hne].
  exists p. simpl. by split_and!.
Qed.



(** The condition on the store cannot be dropped: called with a previous
    list that does not name Alice on a store where her session is open,
    the transition opens a second one. *)
Lemma transition_needs_agreement :
  at_most_one_open (player_sessions db_alice_present)
  ∧ ¬ sessions_agree 1 [] (player_sessions db_alice_present)
  ∧ ¬ at_most_one_open
        (player_sessions
           (_update_player_sessions db_alice_present 1
              [] [player_named "Alice"] 50)).
Proof.
  split_and!; apply (bool_decide_unpack _); vm_compute; exact I.
Qed.

(** C10. A record whose name is missing or empty is ignored by the
    transition, in the previous and in the current list alike: it is
    left out of the index, so that dropping all such records changes
    neither the index nor the outcome of the call (it opens and closes
    nothing); and every session row that is opened has a non-empty
    [player_name] and a non-empty [player_name_norm]. *)
Theorem C10_nameless_records_ignored (db : Db) (server_id : Z)
    (prev curr : list Player) (timestamp : Z) :
  let named := filter (λ p, is_Some (raw_name p)) in
  (∀ p, raw_name p = None ↔ name p = None ∨ name p = Some "")
  ∧ _build_index prev = _build_index (named prev)
  ∧ _build_index curr = _build_index (named curr)
  ∧ (∀ n p, _build_index prev !! n = Some p ∨ _build_index curr !! n = Some p →
            ∃ s, name p = Some s ∧ s ≠ "")
  ∧ _update_player_sessions db server_id prev curr timestamp
    = _update_player_sessions db server_id (named prev) (named curr) timestamp
  ∧ (∀ p, raw_name p = None →
       _update_player_sessions db server_id (p :: prev) curr timestamp
       = _update_player_sessions db server_id prev curr timestamp
       ∧ _update_player_sessions db server_id prev (p :: curr) timestamp
         = _update_player_sessions db server_id prev curr timestamp)
  ∧ (∀ r, r ∈ new_sessions_data server_id timestamp
                (joined_players prev curr) (_build_index curr) →
          PlayerSessions.player_name r ≠ ""
          ∧ PlayerSessions.player_name_norm r ≠ "").
Proof.
  intros named. subst named.
  assert (Hupd : ∀ prev1 prev2 curr1 curr2,
    _build_index prev1 = _build_index prev2 →
    _build_index curr1 = _build_index curr2 →
    _update_player_sessions db server_id prev1 curr1 timestamp
    = _update_player_sessions db server_id prev2 curr2 timestamp).
  { intros ???? Hp Hc.
    unfold _update_player_sessions, session_statements, joined_players,
      left_players.
    by rewrite Hp, Hc. }
  split_and!.
  - apply raw_name_None.
  - apply build_index_filter.
  - apply build_index_filter.
  - intros n p [H|H]; apply build_index_lookup in H as (_ & s & Hs & _);
      exists s; by apply raw_name_Some.
  - apply Hupd; apply build_index_filter.
  - intros p Hp. split; apply Hupd; try done.
    all: unfold _build_index; simpl; unfold index_step at 2; by rewrite Hp.
  - intros r Hr.
    destruct (opened_row _ _ _ _ _ Hr) as (p & _ & _ & _ & Hne & Hnorm & _).
    split; [done|]. rewrite Hnorm. intros H. by apply lower_nonempty in H.
Qed.

Lemma C10_nameless_records_ignored_witness :
  _update_player_sessions db_alice_present 1
    [nameless_player; player_named "Alice"]
    [player_named ""; player_named "Alice"] 50
  = db_alice_present.
Proof.
  destruct (C10_nameless_records_ignored db_alice_present 1
              [player_named "Alice"] [player_named ""; player_named "Alice"] 50)
    as (_ & _ & _ & _ & _ & H & _).
  destruct (H nameless_player) as [-> _]; [reflexivity|].
  destruct (C10_nameless_records_ignored db_alice_present 1
              [player_named "Alice"] [player_named "Alice"] 50)
    as (_ & _ & _ & _ & _ & H' & _).
  destruct (H' (player_named "")) as [_ ->]; [reflexivity|].
  vm_compute. reflexivity.
Defined.
End SessionClaims.

(* ===================================================================== *)
(** * The upsert of a server row *)
(* ===================================================================== *)

Section ListFind.
Context {A : Type} (P : A → Prop) `{!∀ x, Decision (P x)}.

Lemma list_find_insert_same (l : list A) i x y :
  list_find P l = Some (i, x) → P y →
  list_find P (<[i:=y]> l) = Some (i, y).
Proof.
  intros (Hl & Hx & Hleast)%list_find_Some Hy.
  apply list_find_insert_Some. right; left.
  split_and!; [done|done|by eapply lookup_lt_Some|done|].
  intros i' z Hz Hlt. by eapply Hleast.
Qed.

Lemma list_find_insert_other (l : list A) i x y :
  l !! i = Some x → ¬ P x → ¬ P y →
  list_find P (<[i:=y]> l) = list_find P l.
Proof.
  revert i. induction l as [|a l IH]; intros i Hi Hx Hy; [done|].
  destruct i as [|i]; simpl in *.
  - injection Hi as ->. by rewrite !decide_False.
  - case_decide; [done|]. by erewrite IH.
Qed.

Lemma list_find_snoc_other (l : list A) y :
  ¬ P y → snd <$> list_find P (l ++ [y]) = snd <$> list_find P l.
Proof.
  intros Hy. destruct (list_find P l) as [[j z]|] eqn:E.
  - by rewrite (list_find_app_l _ _ _ _ _ E).
  - rewrite list_find_app_r by done. simpl. by rewrite decide_False.
Qed.

Lemma list_find_snoc_new (l : list A) y :
  list_find P l = None → P y →
  list_find P (l ++ [y]) = Some (length l, y).
Proof.
  intros Hl Hy. rewrite list_find_app_r by done. simpl.
  by rewrite decide_True.
Qed.
End ListFind.

Section Upsert.
Import DataProcessor.
Context (ip : string) (port : Z).
Context (insert : Z → Servers.row) (update : Servers.row → Servers.row).
Hypothesis insert_address : ∀ id, on_address ip port (insert id).
Hypothesis update_address :
  ∀ r, Servers.ip (update r) = Servers.ip r
       ∧ Servers.port (update r) = Servers.port r.
Hypothesis insert_id : ∀ id, Servers.id (insert id) = id.
Hypothesis update_id : ∀ r, Servers.id (update r) = Servers.id r.

Lemma upsert_server_frame db :
  server_snapshots (upsert_server db ip port insert update).1
    = server_snapshots db
  ∧ player_sessions (upsert_server db ip port insert update).1
    = player_sessions db
  ∧ unique_maps (upsert_server db ip port insert update).1 = unique_maps db
  ∧ servers_id_seq (upsert_server db ip port insert update).1
    = servers_id_seq db + 1.
Proof.
  unfold upsert_server.
  by destruct (list_find _ _) as [[i r]|].
Qed.

Lemma upsert_server_existing db i r :
  list_find (on_address ip port) (servers db) = Some (i, r) →
  servers (upsert_server db ip port insert update).1
    = <[i := update r]> (servers db)
  ∧ (upsert_server db ip port insert update).2 = update r.
Proof. unfold upsert_server. by intros ->. Qed.

Lemma upsert_server_new db :
  list_find (on_address ip port) (servers db) = None →
  servers (upsert_server db ip port insert update).1
    = servers db ++ [insert (servers_id_seq db)]
  ∧ (upsert_server db ip port insert update).2 = insert (servers_id_seq db).
Proof. unfold upsert_server. by intros ->. Qed.

(** The row written is the one a later lookup of the address finds. *)
Lemma upsert_server_find db :
  find_server (upsert_server db ip port insert update).1 ip port
  = Some (upsert_server db ip port insert update).2.
Proof.
  unfold find_server.
  destruct (list_find (on_address ip port) (servers db)) as [[i r]|] eqn:E.
  - destruct (upsert_server_existing _ _ _ E) as [-> ->].
    erewrite list_find_insert_same; [done..|].
    apply list_find_Some in E as (_ & [Hi Hp] & _).
    destruct (update_address r) as [Hi' Hp']. split; congruence.
  - destruct (upsert_server_new _ E) as [-> ->].
    by erewrite list_find_snoc_new.
Qed.

(** Its id is the one the address had, or the fresh one. *)
Lemma upsert_server_id db :
  Servers.id (upsert_server db ip port insert update).2 = target_id db ip port.
Proof.
  unfold target_id, find_server.
  destruct (list_find (on_address ip port) (servers db)) as [[i r]|] eqn:E.
  - destruct (upsert_server_existing _ _ _ E) as [_ ->]. by rewrite update_id.
  - destruct (upsert_server_new _ E) as [_ ->]. by rewrite insert_id.
Qed.

(** The rows of the other addresses are left alone. *)
Lemma upsert_server_other db ip' port' :
  (ip', port') ≠ (ip, port) →
  find_server (upsert_server db ip port insert update).1 ip' port'
  = find_server db ip' port'.
Proof.
  intros Hne. unfold find_server.
  destruct (list_find (on_address ip port) (servers db)) as [[i r]|] eqn:E.
  - destruct (upsert_server_existing _ _ _ E) as [-> _].
    apply list_find_Some in E as (Hl & [Hi Hp] & _).
    destruct (update_address r) as [Hi' Hp'].
    erewrite list_find_insert_other; [done..| |].
    + intros [??]. apply Hne. congruence.
    + intros [??]. apply Hne. congruence.
  - destruct (upsert_server_new _ E) as [-> _].
    apply list_find_snoc_other. intros [??].
    destruct (insert_address (servers_id_seq db)). apply Hne. congruence.
Qed.
End Upsert.

(* ===================================================================== *)
(** * Failure ingestion *)
(* ===================================================================== *)

Section FailureFacts.
Import Config DataProcessor.

Lemma latest_snapshot_ext db1 db2 sid :
  server_snapshots db1 = server_snapshots db2 →
  latest_snapshot db1 sid = latest_snapshot db2 sid.
Proof. unfold latest_snapshot. by intros ->. Qed.

Lemma update_sessions_ext db1 db2 sid prev cur ts :
  player_sessions db1 = player_sessions db2 →
  player_sessions (_update_player_sessions db1 sid prev cur ts)
  = player_sessions (_update_player_sessions db2 sid prev cur ts).
Proof. intros H. by rewrite !update_sessions_rows, H. Qed.

(** With no current player the transition closes, and only closes. *)
Lemma update_sessions_all_left db sid prev ts :
  player_sessions (_update_player_sessions db sid prev [] ts)
  = close_sessions ts sid (names_norm prev) (player_sessions db).
Proof.
  rewrite update_sessions_rows, joined_players_eq, left_players_eq.
  replace (names_norm []) with (∅ : gset string) by done.
  rewrite difference_empty_L.
  replace (∅ ∖ names_norm prev) with (∅ : gset string) by set_solver.
  by rewrite new_sessions_data_empty, app_nil_r.
Qed.

Lemma process_server_failure_eq settings db ip port ts :
  process_server_failure settings db ip port ts
  = let u := failure_upsert settings db ip port ts in
    if OFFLINE_FAILURE_THRESHOLD settings
       <=? Servers.consecutive_failures u.2
    then _update_player_sessions u.1 (Servers.id u.2)
           (previous_players_of (latest_snapshot u.1 (Servers.id u.2)))
           [] ts
    else u.1.
Proof.
  unfold process_server_failure, failure_upsert.
  change (λ id : Z, {| Servers.id := id; Servers.ip := ip;
                       Servers.port := port; Servers.hostname := None;
                       Servers.status := offline; Servers.last_seen := ts;
                       Servers.first_seen := ts;
                       Servers.consecutive_failures := 1;
                       Servers.active_mod := None; Servers.gametype := None;
                       Servers.info := None |})
    with (λ id : Z, first_failure id ip port ts).
  by destruct (upsert_server _ _ _ _ _) as [db1 w].
Qed.

Lemma failure_upsert_written settings db ip port ts :
  let u := failure_upsert settings db ip port ts in
  Servers.id u.2 = target_id db ip port
  ∧ Servers.consecutive_failures u.2
    = failures_after (find_server db ip port)
  ∧ find_server u.1 ip port = Some u.2
  ∧ server_snapshots u.1 = server_snapshots db
  ∧ player_sessions u.1 = player_sessions db
  ∧ unique_maps u.1 = unique_maps db.
Proof.
  unfold failure_upsert. split_and!.
  - by apply upsert_server_id.
  - unfold failures_after, find_server.
    destruct (list_find _ (servers db)) as [[i r]|] eqn:E.
    + by destruct (upsert_server_existing ip port
                     (λ id, first_failure id ip port ts)
                     (failed_again (OFFLINE_FAILURE_THRESHOLD settings) ts)
                     _ _ _ E) as [_ ->].
    + by destruct (upsert_server_new ip port
                     (λ id, first_failure id ip port ts)
                     (failed_again (OFFLINE_FAILURE_THRESHOLD settings) ts)
                     _ E) as [_ ->].
  - by apply upsert_server_find.
  - apply upsert_server_frame.
  - apply upsert_server_frame.
  - apply upsert_server_frame.
Qed.

Lemma process_server_failure_servers settings db ip port ts :
  servers (process_server_failure settings db ip port ts)
  = servers (failure_upsert settings db ip port ts).1.
Proof.
  rewrite process_server_failure_eq. cbv zeta.
  destruct (_ <=? _); [|done]. apply update_sessions_frame.
Qed.

Lemma process_server_failure_find settings db ip port ts ip' port' :
  find_server (process_server_failure settings db ip port ts) ip' port'
  = if decide ((ip', port') = (ip, port))
    then Some (failure_upsert settings db ip port ts).2
    else find_server db ip' port'.
Proof.
  unfold find_server at 1. rewrite process_server_failure_servers.
  fold (find_server (failure_upsert settings db ip port ts).1 ip' port').
  unfold failure_upsert. case_decide as H.
  - injection H as -> ->. by apply upsert_server_find.
  - by apply upsert_server_other.
Qed.
End FailureFacts.

(* ===================================================================== *)
(** * Success ingestion *)
(* ===================================================================== *)

Section SuccessFacts.
Import Config DataProcessor.

Lemma process_server_success_outcome_excluded db ip port raw excl ts :
  excluded excl ip port raw →
  process_server_success_outcome db ip port raw excl ts = (db, false).
Proof.
  unfold excluded, process_server_success_outcome. intros [H|H].
  - by rewrite bool_decide_eq_true_2.
  - case_bool_decide; [done|]. by rewrite bool_decide_eq_true_2.
Qed.

Lemma process_server_success_excluded db ip port raw excl ts :
  excluded excl ip port raw →
  process_server_success db ip port raw excl ts = db.
Proof.
  intros H. unfold process_server_success.
  by rewrite process_server_success_outcome_excluded.
Qed.

(** The accepted probe, step by step. *)
Lemma process_server_success_outcome_eq db ip port raw excl ts :
  ¬ excluded excl ip port raw →
  process_server_success_outcome db ip port raw excl ts
  = let u := success_upsert db ip port raw excl ts in
    let sid := Servers.id u.2 in
    let db1 := record_map u.1 (mapname (normalized_data_of excl raw)) in
    let prior := latest_snapshot db1 sid in
    let db2 := _update_player_sessions db1 sid (previous_players_of prior)
                 (normalized_players excl (GameSpy1.players raw)) ts in
    if bool_decide (ServerSnapshots.data <$> prior
                      = Some (normalized_data_of excl raw)
                    ∧ ServerSnapshots.raw <$> prior = Some raw)
    then (db2, false)
    else if identify_round_change_raises db2 (snapshot_of sid ts excl raw)
         then (db2, true)
         else (insert_snapshot db2 (snapshot_of sid ts excl raw), false).
Proof.
  intros Hacc. unfold excluded in Hacc.
  unfold process_server_success_outcome.
  rewrite bool_decide_eq_false_2 by tauto.
  rewrite bool_decide_eq_false_2 by tauto.
  destruct raw as [inf pls]. cbv zeta.
  change (upsert_server db ip port _ _)
    with (success_upsert db ip port
            {| GameSpy1.info := inf; GameSpy1.players := pls |} excl ts).
  by destruct (success_upsert _ _ _ _ _ _) as [db1 w].
Qed.

Lemma process_server_success_eq db ip port raw excl ts :
  ¬ excluded excl ip port raw →
  process_server_success db ip port raw excl ts
  = let u := success_upsert db ip port raw excl ts in
    let sid := Servers.id u.2 in
    let db1 := record_map u.1 (mapname (normalized_data_of excl raw)) in
    let prior := latest_snapshot db1 sid in
    let db2 := _update_player_sessions db1 sid (previous_players_of prior)
                 (normalized_players excl (GameSpy1.players raw)) ts in
    if bool_decide (ServerSnapshots.data <$> prior
                      = Some (normalized_data_of excl raw)
                    ∧ ServerSnapshots.raw <$> prior = Some raw)
    then db2
    else if identify_round_change_raises db2 (snapshot_of sid ts excl raw)
         then db2
         else insert_snapshot db2 (snapshot_of sid ts excl raw).
Proof.
  intros Hacc. unfold process_server_success.
  rewrite process_server_success_outcome_eq by done. cbv zeta.
  case_bool_decide; [done|]. by destruct (identify_round_change_raises _ _).
Qed.

Lemma success_upsert_written db ip port raw excl ts :
  let u := success_upsert db ip port raw excl ts in
  Servers.id u.2 = target_id db ip port
  ∧ Servers.consecutive_failures u.2 = 0
  ∧ Servers.status u.2 = online
  ∧ Servers.last_seen u.2 = ts
  ∧ find_server u.1 ip port = Some u.2
  ∧ server_snapshots u.1 = server_snapshots db
  ∧ player_sessions u.1 = player_sessions db.
Proof.
  unfold success_upsert.
  assert (∀ b : Db * Servers.row,
            (∃ id i p f, b.2 = online_row id i p f ts excl raw) →
            Servers.consecutive_failures b.2 = 0
            ∧ Servers.status b.2 = online ∧ Servers.last_seen b.2 = ts)
    as Hrow by (by intros b (?&?&?&?&->)).
  split_and!.
  - by apply upsert_server_id.
  - apply Hrow. unfold upsert_server.
    destruct (list_find _ _) as [[i r]|]; simpl; eauto.
  - apply Hrow. unfold upsert_server.
    destruct (list_find _ _) as [[i r]|]; simpl; eauto.
  - apply Hrow. unfold upsert_server.
    destruct (list_find _ _) as [[i r]|]; simpl; eauto.
  - by apply upsert_server_find.
  - apply upsert_server_frame.
  - apply upsert_server_frame.
Qed.

Lemma record_map_frame db m :
  servers (record_map db m) = servers db
  ∧ server_snapshots (record_map db m) = server_snapshots db
  ∧ player_sessions (record_map db m) = player_sessions db.
Proof. unfold record_map. by case_bool_decide. Qed.

Section Accepted.
Context (db : Db) (ip : string) (port : Z) (raw : GameSpy1.Status).
Context (excl : Exclusions) (ts : Z).
Hypothesis accepted : ¬ excluded excl ip port raw.

Local Abbreviation sid := (target_id db ip port).
Local Abbreviation prior := (latest_snapshot db sid).
Local Abbreviation db' := (process_server_success db ip port raw excl ts).

Lemma success_prior :
  latest_snapshot
    (record_map (success_upsert db ip port raw excl ts).1
       (mapname (normalized_data_of excl raw)))
    (Servers.id (success_upsert db ip port raw excl ts).2)
  = prior.
Proof.
  destruct (success_upsert_written db ip port raw excl ts)
    as (-> & _ & _ & _ & _ & Hsnap & _).
  apply latest_snapshot_ext.
  by rewrite (proj1 (proj2 (record_map_frame _ _))).
Qed.

Lemma success_sessions :
  player_sessions db'
  = player_sessions
      (_update_player_sessions db sid (previous_players_of prior)
         (normalized_players excl (GameSpy1.players raw)) ts).
Proof.
  rewrite process_server_success_eq by done. cbv zeta.
  rewrite success_prior.
  destruct (success_upsert_written db ip port raw excl ts)
    as (-> & _ & _ & _ & _ & _ & Hsess).
  assert (player_sessions
            (_update_player_sessions
               (record_map (success_upsert db ip port raw excl ts).1
                  (mapname (normalized_data_of excl raw)))
               sid (previous_players_of prior)
               (normalized_players excl (GameSpy1.players raw)) ts)
          = player_sessions
              (_update_player_sessions db sid (previous_players_of prior)
                 (normalized_players excl (GameSpy1.players raw)) ts))
    as Heq.
  { apply update_sessions_ext.
    by rewrite (proj2 (proj2 (record_map_frame _ _))). }
  case_bool_decide; [done|]. by destruct (identify_round_change_raises _ _).
Qed.

Lemma identify_round_change_ext db1 db2 snap :
  server_snapshots db1 = server_snapshots db2 →
  identify_round_change_raises db1 snap = identify_round_change_raises db2 snap.
Proof.
  intros H. unfold identify_round_change_raises, last_snapshot. by rewrite H.
Qed.

Lemma success_refused :
  identify_round_change_raises
    (_update_player_sessions
       (record_map (success_upsert db ip port raw excl ts).1
          (mapname (normalized_data_of excl raw)))
       (Servers.id (success_upsert db ip port raw excl ts).2)
       (previous_players_of prior)
       (normalized_players excl (GameSpy1.players raw)) ts)
    (snapshot_of (Servers.id (success_upsert db ip port raw excl ts).2) ts
       excl raw)
  = snapshot_refused db ip port raw excl ts.
Proof.
  destruct (success_upsert_written db ip port raw excl ts)
    as (-> & _ & _ & _ & _ & Hsnap & _).
  unfold snapshot_refused. apply identify_round_change_ext.
  rewrite (proj1 (proj2 (proj2 (update_sessions_frame _ _ _ _ _)))).
  by rewrite (proj1 (proj2 (record_map_frame _ _))).
Qed.

(** The call raises exactly when the probe brings something new and the
    trigger refuses its snapshot. *)
Lemma success_raises :
  process_server_success_raises db ip port raw excl ts
  = negb (bool_decide (same_as_prior prior excl raw))
    && snapshot_refused db ip port raw excl ts.
Proof.
  unfold process_server_success_raises.
  rewrite process_server_success_outcome_eq by done. cbv zeta.
  rewrite success_prior, success_refused. unfold same_as_prior.
  destruct (success_upsert_written db ip port raw excl ts)
    as (-> & _).
  case_bool_decide; [done|]. by destruct (snapshot_refused _ _ _ _ _ _).
Qed.

Lemma success_snapshots :
  server_snapshots db'
  = server_snapshots db
    ++ if bool_decide (same_as_prior prior excl raw)
          || snapshot_refused db ip port raw excl ts
       then []
       else [snapshot_of sid ts excl raw].
Proof.
  rewrite process_server_success_eq by done. cbv zeta.
  rewrite success_prior, success_refused.
  destruct (success_upsert_written db ip port raw excl ts)
    as (-> & _ & _ & _ & _ & Hsnap & _).
  unfold same_as_prior.
  assert (server_snapshots
            (_update_player_sessions
               (record_map (success_upsert db ip port raw excl ts).1
                  (mapname (normalized_data_of excl raw)))
               sid (previous_players_of prior)
               (normalized_players excl (GameSpy1.players raw)) ts)
          = server_snapshots db) as Heq.
  { rewrite (proj1 (proj2 (proj2 (update_sessions_frame _ _ _ _ _)))).
    by rewrite (proj1 (proj2 (record_map_frame _ _))). }
  case_bool_decide; cbn [orb].
  - by rewrite Heq, app_nil_r.
  - destruct (snapshot_refused _ _ _ _ _ _).
    + by rewrite Heq, app_nil_r.
    + unfold insert_snapshot. cbn [server_snapshots]. by rewrite Heq.
Qed.

Lemma success_servers :
  servers db' = servers (success_upsert db ip port raw excl ts).1.
Proof.
  rewrite process_server_success_eq by done. cbv zeta.
  case_bool_decide; [|destruct (identify_round_change_raises _ _)];
    unfold insert_snapshot; cbn [servers];
    rewrite (proj1 (update_sessions_frame _ _ _ _ _));
    apply record_map_frame.
Qed.

Lemma success_find :
  find_server db' ip port
  = Some (success_upsert db ip port raw excl ts).2.
Proof.
  unfold find_server. rewrite success_servers.
  apply (success_upsert_written db ip port raw excl ts).
Qed.

End Accepted.
End SuccessFacts.

Section SnapshotDedup.
Import Config DataProcessor.

Lemma newest_snoc rows r :
  Forall (λ x, ServerSnapshots.timestamp x < ServerSnapshots.timestamp r) rows →
  newest (rows ++ [r]) = Some r.
Proof.
  induction 1 as [|x rows Hx _ IH]; [done|].
  simpl. rewrite IH.
  destruct (Z.leb_spec (ServerSnapshots.timestamp r)
              (ServerSnapshots.timestamp x)); [lia | done].
Qed.

(** A snapshot newer than the stored ones of its server becomes the
    latest one. *)
Lemma latest_snapshot_snoc db db' snap :
  server_snapshots db' = server_snapshots db ++ [snap] →
  newer_than_all db (ServerSnapshots.server_id snap)
    (ServerSnapshots.timestamp snap) →
  latest_snapshot db' (ServerSnapshots.server_id snap) = Some snap.
Proof.
  unfold latest_snapshot, newer_than_all. intros -> Hnew.
  rewrite filter_app, filter_cons_True, filter_nil by done.
  apply newest_snoc, Forall_forall.
  intros x [Hx Hin]%list_elem_of_filter.
  rewrite Forall_forall in Hnew. exact (Hnew x Hin Hx).
Qed.


Lemma same_as_prior_players prior excl raw :
  same_as_prior prior excl raw →
  previous_players_of prior
  = normalized_players excl (GameSpy1.players raw).
Proof.
  intros [Hd _]. destruct prior as [snap|]; [|done].
  simpl in *. by injection Hd as ->.
Qed.

(** After an accepted probe that does not raise, and whose time is later
    than the stored snapshots of the server, the latest snapshot is that
    of the probe. *)
Lemma success_latest db ip port raw excl ts :
  ¬ excluded excl ip port raw →
  newer_than_all db (target_id db ip port) ts →
  process_server_success_raises db ip port raw excl ts = false →
  same_as_prior
    (latest_snapshot (process_server_success db ip port raw excl ts)
       (target_id db ip port))
    excl raw.
Proof.
  intros Hacc Hnew Hok.
  pose proof (success_snapshots db ip port raw excl ts Hacc) as Hsnap.
  cbv zeta in Hsnap. rewrite success_raises in Hok by done.
  case_bool_decide as Hsame.
  - simpl in Hsnap. rewrite app_nil_r in Hsnap.
    by rewrite (latest_snapshot_ext _ db _ Hsnap).
  - simpl in Hok. rewrite Hok in Hsnap. simpl in Hsnap.
    rewrite (latest_snapshot_snoc db _
               (snapshot_of (target_id db ip port) ts excl raw)); done.
Qed.

(** C2, as stated, fails: the INSERT of the snapshot is refused when the
    trigger on [server_snapshots] cannot read [roundtimeremain] as an
    integer.  The first probe of Alice's server says ["soon"]: it differs
    from the prior snapshot (there is none), her session is opened, the
    call raises and no snapshot is stored; the same probe, sent again,
    leaves no snapshot either and opens a second session for her. *)
Lemma C2_counterexample :
  ¬ excluded no_exclusions "1.2.3.4" 14567 probe_alice_soon
  ∧ latest_snapshot empty_db (target_id empty_db "1.2.3.4" 14567) = None
  ∧ process_server_success_raises empty_db "1.2.3.4" 14567 probe_alice_soon
      no_exclusions 100 = true
  ∧ server_snapshots db_after_soon = []
  ∧ open_keys (player_sessions db_after_soon) = [(1, "alice")]
  ∧ process_server_success_raises db_after_soon "1.2.3.4" 14567
      probe_alice_soon no_exclusions 120 = true
  ∧ server_snapshots
      (process_server_success db_after_soon "1.2.3.4" 14567 probe_alice_soon
         no_exclusions 120) = []
  ∧ open_keys
      (player_sessions
         (process_server_success db_after_soon "1.2.3.4" 14567
            probe_alice_soon no_exclusions 120))
    = [(1, "alice"); (1, "alice")].
Proof.
  split.
  - unfold excluded, server_excluded, no_exclusions. simpl. set_solver.
  - vm_compute. done.
Qed.


Lemma probe_alice_accepted :
  ¬ excluded no_exclusions "1.2.3.4" 14567 probe_alice.
Proof.
  unfold excluded, server_excluded, no_exclusions. simpl. set_solver.
Qed.

End SnapshotDedup.

Section FailureClaims.
Import Config DataProcessor.

(** C3. A failed probe of an address without a row inserts one with
    status offline, one failure and [first_seen = last_seen = timestamp];
    on an existing row it sets [last_seen], adds one to
    [consecutive_failures], and sets the status to offline when the new
    count has reached [OFFLINE_FAILURE_THRESHOLD] (3 by default), leaving
    it as it was otherwise.  The sessions are touched exactly when the
    resulting count has reached the threshold: then the diff is run with
    no current player against the players of the last snapshot, which
    closes their open sessions on that server at [timestamp]; when the
    open sessions of the server are sessions of those players, none stays
    open. *)
Theorem C3_failure_ingestion (settings : Settings) (db : Db)
    (ip : string) (port timestamp : Z) :
  let threshold := OFFLINE_FAILURE_THRESHOLD settings in
  let db' := process_server_failure settings db ip port timestamp in
  let server_id := target_id db ip port in
  let failures := failures_after (find_server db ip port) in
  let last_players := previous_players_of (latest_snapshot db server_id) in
  (list_find (on_address ip port) (servers db) = None →
     servers db'
     = servers db ++ [first_failure (servers_id_seq db) ip port timestamp]
     ∧ failures = 1)
  ∧ (∀ i r, list_find (on_address ip port) (servers db) = Some (i, r) →
       servers db' = <[i := failed_again threshold timestamp r]> (servers db)
       ∧ failures = Servers.consecutive_failures r + 1)
  ∧ (∀ id, Servers.status (first_failure id ip port timestamp) = offline
           ∧ Servers.consecutive_failures
               (first_failure id ip port timestamp) = 1
           ∧ Servers.first_seen (first_failure id ip port timestamp)
             = timestamp
           ∧ Servers.last_seen (first_failure id ip port timestamp)
             = timestamp)
  ∧ (∀ r, Servers.last_seen (failed_again threshold timestamp r) = timestamp
          ∧ Servers.consecutive_failures (failed_again threshold timestamp r)
            = Servers.consecutive_failures r + 1
          ∧ (threshold ≤ Servers.consecutive_failures r + 1 →
               Servers.status (failed_again threshold timestamp r) = offline)
          ∧ (Servers.consecutive_failures r + 1 < threshold →
               Servers.status (failed_again threshold timestamp r)
               = Servers.status r)
          ∧ Servers.id (failed_again threshold timestamp r) = Servers.id r
          ∧ Servers.first_seen (failed_again threshold timestamp r)
            = Servers.first_seen r)
  ∧ (threshold ≤ failures →
       player_sessions db'
       = player_sessions
           (_update_player_sessions db server_id last_players [] timestamp)
       ∧ player_sessions db'
         = close_sessions timestamp server_id (names_norm last_players)
             (player_sessions db))
  ∧ (threshold ≤ failures →
     sessions_agree server_id last_players (player_sessions db) →
       Forall (λ k, k.1 ≠ server_id) (open_keys (player_sessions db')))
  ∧ (failures < threshold → player_sessions db' = player_sessions db)
  ∧ server_snapshots db' = server_snapshots db
  ∧ (∀ dsn, OFFLINE_FAILURE_THRESHOLD (defaults dsn) = 3).
Proof.
  intros threshold db' server_id failures last_players.
  destruct (failure_upsert_written settings db ip port timestamp)
    as (Hid & Hcf & _ & Hsnap & Hsess & _).
  assert (Hdb' : db' =
    if threshold <=? failures
    then _update_player_sessions
           (failure_upsert settings db ip port timestamp).1 server_id
           last_players [] timestamp
    else (failure_upsert settings db ip port timestamp).1).
  { subst db'. rewrite process_server_failure_eq. cbv zeta.
    rewrite Hid, Hcf.
    by rewrite (latest_snapshot_ext _ db _ Hsnap). }
  split_and!.
  - intros E. subst db'. rewrite process_server_failure_servers.
    unfold failure_upsert, failures, failures_after, find_server.
    rewrite E. split; [|done].
    exact (proj1 (upsert_server_new ip port
                    (λ id, first_failure id ip port timestamp)
                    (failed_again threshold timestamp) _ E)).
  - intros i r E. subst db'. rewrite process_server_failure_servers.
    unfold failure_upsert, failures, failures_after, find_server.
    rewrite E. split; [|done].
    exact (proj1 (upsert_server_existing ip port
                    (λ id, first_failure id ip port timestamp)
                    (failed_again threshold timestamp) _ _ _ E)).
  - done.
  - intros r. unfold failed_again. simpl. split_and!; try done.
    + intros H. by rewrite (proj2 (Z.leb_le _ _) H).
    + intros H. by rewrite (proj2 (Z.leb_gt _ _) H).
  - intros H. rewrite Hdb', (proj2 (Z.leb_le _ _) H).
    rewrite (update_sessions_ext _ db) by done.
    split; [done | apply update_sessions_all_left].
  - intros H Hagree. rewrite Hdb', (proj2 (Z.leb_le _ _) H).
    rewrite (update_sessions_ext _ db) by done.
    rewrite update_sessions_all_left, open_keys_close.
    apply Forall_forall. intros k [Hk Hin]%list_elem_of_filter Hs.
    unfold sessions_agree in Hagree. rewrite Forall_forall in Hagree.
    apply Hk. split; [done | by apply Hagree].
  - intros H. by rewrite Hdb', (proj2 (Z.leb_gt _ _) H).
  - rewrite Hdb'. destruct (_ <=? _); [|done].
    by rewrite (proj1 (proj2 (proj2 (update_sessions_frame _ _ _ _ _)))).
  - done.
Qed.

Lemma C3_failure_ingestion_witness :
  servers (process_server_failure (defaults "") empty_db "1.2.3.4" 14567 7)
  = [first_failure 1 "1.2.3.4" 14567 7]
  ∧ player_sessions
      (process_server_failure (defaults "") db_after_probe "1.2.3.4" 14567 200)
    = player_sessions db_after_probe
  ∧ player_sessions
      (process_server_failure (defaults "")
         (process_server_failure (defaults "")
            (process_server_failure (defaults "") db_after_probe
               "1.2.3.4" 14567 200)
            "1.2.3.4" 14567 300)
         "1.2.3.4" 14567 400)
    = [closed_at 400
         {| PlayerSessions.server_id := 1;
            PlayerSessions.player_name := "Alice";
            PlayerSessions.player_name_norm := "alice";
            PlayerSessions.keyhash := None;
            PlayerSessions.join_ts := 100;
            PlayerSessions.leave_ts := None |}].
Proof.
  split_and!.
  - destruct (C3_failure_ingestion (defaults "") empty_db "1.2.3.4" 14567 7)
      as (H & _).
    destruct H as [-> _]; reflexivity.
  - destruct (C3_failure_ingestion (defaults "") db_after_probe
                "1.2.3.4" 14567 200) as (_ & _ & _ & _ & _ & _ & H & _).
    apply H. vm_compute. reflexivity.
  - destruct (C3_failure_ingestion (defaults "")
                (process_server_failure (defaults "")
                   (process_server_failure (defaults "") db_after_probe
                      "1.2.3.4" 14567 200)
                   "1.2.3.4" 14567 300)
                "1.2.3.4" 14567 400) as (_ & _ & _ & _ & H & _).
    destruct H as [_ ->]; [vm_compute; discriminate|].
    vm_compute. reflexivity.
Defined.
End FailureClaims.

Section FailureCounter.
Import Config DataProcessor.

Lemma find_server_Some db ip port r :
  find_server db ip port = Some r →
  ∃ i, list_find (on_address ip port) (servers db) = Some (i, r).
Proof.
  unfold find_server.
  destruct (list_find _ _) as [[i r']|]; [|done].
  intros [= ->]. by exists i.
Qed.

(** One failed probe adds one to the counter of its address and leaves
    the counters of the other addresses alone. *)
Lemma failure_step settings db ip port ts ip' port' r :
  find_server db ip' port' = Some r →
  ∃ r', find_server (process_server_failure settings db ip port ts) ip' port'
        = Some r'
        ∧ Servers.id r' = Servers.id r
        ∧ Servers.consecutive_failures r'
          = Servers.consecutive_failures r
            + (if decide ((ip', port') = (ip, port)) then 1 else 0).
Proof.
  intros Hr. rewrite process_server_failure_find. case_decide as Heq.
  - injection Heq as -> ->.
    destruct (find_server_Some _ _ _ _ Hr) as [i E].
    eexists. split; [done|]. unfold failure_upsert.
    by rewrite (proj2 (upsert_server_existing ip port
                 (λ id, first_failure id ip port ts)
                 (failed_again (OFFLINE_FAILURE_THRESHOLD settings) ts)
                 _ _ _ E)).
  - exists r. split_and!; [done..|lia].
Qed.

Lemma failure_run settings probes : ∀ db ip port r,
  find_server db ip port = Some r →
  ∃ r', find_server (ingest_failures settings db probes) ip port = Some r'
        ∧ Servers.id r' = Servers.id r
        ∧ Servers.consecutive_failures r'
          = Servers.consecutive_failures r
            + Z.of_nat (length (filter (λ probe, probe.1 = (ip, port)) probes)).
Proof.
  induction probes as [|[[ip0 port0] ts0] probes IH]; intros db ip port r Hr.
  - exists r. split_and!; [done..|]. simpl. lia.
  - destruct (failure_step settings db ip0 port0 ts0 ip port r Hr)
      as (r1 & Hr1 & Hid1 & Hcf1).
    destruct (IH _ _ _ _ Hr1) as (r2 & Hr2 & Hid2 & Hcf2).
    exists r2. simpl. split_and!; [done | congruence |].
    rewrite Hcf2, Hcf1, filter_cons. simpl.
    destruct (decide ((ip, port) = (ip0, port0))) as [->|Hne].
    + rewrite decide_True by done. simpl length. lia.
    + rewrite decide_False by congruence. lia.
Qed.

(** C9. Along any run of failure ingestions the [consecutive_failures]
    of a server row never decreases: each failed probe of its address
    adds one, the failed probes of other addresses leave it alone.  A
    success ingestion that reaches the upsert leaves the row of its
    address with [consecutive_failures = 0]; one dropped by the
    [server_id] or [gametype] pre-check writes nothing. *)
Theorem C9_consecutive_failures (settings : Settings) :
  (∀ db ip port ts ip' port' r,
     find_server db ip' port' = Some r →
     ∃ r', find_server (process_server_failure settings db ip port ts)
             ip' port' = Some r'
           ∧ Servers.consecutive_failures r
             ≤ Servers.consecutive_failures r')
  ∧ (∀ db probes more ip port r1,
       find_server (ingest_failures settings db probes) ip port = Some r1 →
       ∃ r2, find_server (ingest_failures settings db (probes ++ more))
               ip port = Some r2
             ∧ Servers.consecutive_failures r1
               ≤ Servers.consecutive_failures r2
             ∧ Servers.consecutive_failures r2
               = Servers.consecutive_failures r1
                 + Z.of_nat (length (filter (λ probe, probe.1 = (ip, port))
                                       more)))
  ∧ (∀ db ip port ts,
       ∃ r', find_server (process_server_failure settings db ip port ts)
               ip port = Some r'
             ∧ Servers.consecutive_failures r'
               = failures_after (find_server db ip port))
  ∧ (∀ db ip port raw_data exclusions ts,
       ¬ excluded exclusions ip port raw_data →
       ∃ r', find_server
               (process_server_success db ip port raw_data exclusions ts)
               ip port = Some r'
             ∧ Servers.consecutive_failures r' = 0)
  ∧ (∀ db ip port raw_data exclusions ts,
       excluded exclusions ip port raw_data →
       process_server_success db ip port raw_data exclusions ts = db).
Proof.
  split_and!.
  - intros db ip port ts ip' port' r Hr.
    destruct (failure_step settings db ip port ts ip' port' r Hr)
      as (r' & Hr' & _ & Hcf).
    exists r'. split; [done|]. rewrite Hcf. case_decide; lia.
  - intros db probes more ip port r1 Hr1.
    unfold ingest_failures. rewrite foldl_app.
    destruct (failure_run settings more _ _ _ _ Hr1) as (r2 & Hr2 & _ & Hcf).
    exists r2. split_and!; [done| |done]. rewrite Hcf. lia.
  - intros db ip port ts. eexists. rewrite process_server_failure_find.
    rewrite decide_True by done. split; [done|].
    apply (failure_upsert_written settings db ip port ts).
  - intros db ip port raw excl ts Hacc. eexists.
    split; [by apply success_find|].
    apply (success_upsert_written db ip port raw excl ts).
  - intros. by apply process_server_success_excluded.
Qed.

Lemma C9_consecutive_failures_witness :
  (Servers.consecutive_failures <$>
     find_server
       (ingest_failures (defaults "") db_after_probe
          [("1.2.3.4", 14567, 200); ("5.6.7.8", 23000, 210);
           ("1.2.3.4", 14567, 300)])
       "1.2.3.4" 14567) = Some 2
  ∧ (Servers.consecutive_failures <$>
       find_server
         (process_server_success
            (ingest_failures (defaults "") db_after_probe
               [("1.2.3.4", 14567, 200); ("5.6.7.8", 23000, 210);
                ("1.2.3.4", 14567, 300)])
            "1.2.3.4" 14567 probe_alice no_exclusions 400)
         "1.2.3.4" 14567) = Some 0.
Proof.
  destruct (C9_consecutive_failures (defaults ""))
    as (_ & Hrun & _ & Hok & _).
  split.
  - destruct (Hrun db_after_probe []
                [("1.2.3.4", 14567, 200); ("5.6.7.8", 23000, 210);
                 ("1.2.3.4", 14567, 300)] "1.2.3.4" 14567
                (success_upsert empty_db "1.2.3.4" 14567 probe_alice
                   no_exclusions 100).2)
      as (r2 & Hr2 & _ & Hcf); [vm_compute; reflexivity|].
    simpl app in Hr2. rewrite Hr2. simpl. f_equal. rewrite Hcf.
    vm_compute. reflexivity.
  - destruct (Hok (ingest_failures (defaults "") db_after_probe
                     [("1.2.3.4", 14567, 200); ("5.6.7.8", 23000, 210);
                      ("1.2.3.4", 14567, 300)])
                "1.2.3.4" 14567 probe_alice no_exclusions 400
                probe_alice_accepted) as (r' & -> & Hcf).
    simpl. by rewrite Hcf.
Defined.
End FailureCounter.

(* ===================================================================== *)
(** * Player-name exclusions and the diff *)
(* ===================================================================== *)

Section PlayerExclusions.
Import Config DataProcessor.

Lemma normalized_players_allowed excl players_raw p :
  p ∈ normalized_players excl players_raw →
  ∃ n, name p = Some n ∧ n ∉ excluded_player_name excl.
Proof.
  unfold normalized_players.
  intros (q & -> & [Hq _]%list_elem_of_filter)%list_elem_of_fmap.
  by exists (get q "player" "N/A").
Qed.

(** C6, as stated, fails.  Alice is recorded at time 100, nobody being
    excluded; her name is then put on the exclusion list.  At the next
    accepted probe, at time 120, the previous list handed to the diff is
    the stored one and still names her, and her session is closed. *)
Lemma C6_counterexample :
  ¬ excluded excluding_alice "1.2.3.4" 14567 probe_alice
  ∧ "Alice" ∈ excluded_player_name excluding_alice
  ∧ name <$> previous_players_of
               (latest_snapshot db_after_probe
                  (target_id db_after_probe "1.2.3.4" 14567))
    = [Some "Alice"]
  ∧ PlayerSessions.leave_ts <$> player_sessions db_after_probe = [None]
  ∧ PlayerSessions.leave_ts <$>
      player_sessions
        (process_server_success db_after_probe "1.2.3.4" 14567 probe_alice
           excluding_alice 120)
    = [Some 120].
Proof.
  split_and!.
  - unfold excluded, server_excluded, excluding_alice. simpl. set_solver.
  - unfold excluding_alice. simpl. set_solver.
  - vm_compute. reflexivity.
  - vm_compute. reflexivity.
  - vm_compute. reflexivity.
Qed.

(** C6, amended.  At an accepted probe the current player list is
    filtered through the [player_name] exclusions before the diff, so
    no excluded name occurs in it and no session is opened under an
    excluded name.  The previous list is the player list stored with the
    prior snapshot, as it is; when it holds no excluded name either (it
    was filtered with the exclusions of its own time), every name that
    joins or leaves is the lower-casing of a name that is not excluded. *)
Theorem C6_player_exclusions (db : Db) (ip : string) (port : Z)
    (raw_data : GameSpy1.Status) (exclusions : Exclusions) (timestamp : Z) :
  ¬ excluded exclusions ip port raw_data →
  let server_id := target_id db ip port in
  let prev := previous_players_of (latest_snapshot db server_id) in
  let curr := normalized_players exclusions (GameSpy1.players raw_data) in
  let db' := process_server_success db ip port raw_data exclusions timestamp in
  let opened :=
    new_sessions_data server_id timestamp (joined_players prev curr)
      (_build_index curr) in
  (∀ p, p ∈ curr → ∃ n, name p = Some n ∧ n ∉ excluded_player_name exclusions)
  ∧ player_sessions db'
    = close_sessions timestamp server_id (left_players prev curr)
        (player_sessions db) ++ opened
  ∧ (∀ r, r ∈ opened →
          PlayerSessions.player_name r ∉ excluded_player_name exclusions)
  ∧ ((∀ p n, p ∈ prev → name p = Some n →
             n ∉ excluded_player_name exclusions) →
     ∀ n, n ∈ joined_players prev curr ∨ n ∈ left_players prev curr →
          ∃ s, (s ∉ excluded_player_name exclusions) ∧ Py.lower s = n).
Proof.
  intros Hacc server_id prev curr db' opened.
  assert (Hcur : ∀ p, p ∈ curr →
            ∃ n, name p = Some n ∧ n ∉ excluded_player_name exclusions)
    by (intros p; apply normalized_players_allowed).
  split_and!.
  - done.
  - subst db'. rewrite (success_sessions _ _ _ _ _ _ Hacc).
    apply update_sessions_rows.
  - intros r Hr.
    destruct (opened_row _ _ _ _ _ Hr) as (p & _ & Hin & Hname & _).
    destruct (Hcur p Hin) as (n & Hn & Hex). congruence.
  - intros Hprev n Hn.
    assert (n ∈ names_norm curr ∨ n ∈ names_norm prev) as Hin.
    { rewrite joined_players_eq, left_players_eq in Hn. set_solver. }
    destruct Hin as [Hin|Hin];
      apply elem_of_names_norm in Hin as (p & s & Hp & Hs & Hlow);
      apply raw_name_Some in Hs as [Hname _]; exists s; split; try done.
    + destruct (Hcur p Hp) as (m & Hm & Hex). congruence.
    + by eapply Hprev.
Qed.

Lemma probe_alice_and_bob_accepted :
  ¬ excluded excluding_alice "1.2.3.4" 14567 probe_alice_and_bob.
Proof.
  unfold excluded, server_excluded, excluding_alice. simpl. set_solver.
Qed.

Lemma C6_player_exclusions_witness :
  "Alice" ∈ excluded_player_name excluding_alice
  ∧ PlayerSessions.player_name <$>
      player_sessions
        (process_server_success empty_db "1.2.3.4" 14567 probe_alice_and_bob
           excluding_alice 100)
    = ["Bob"]
  ∧ (∀ r, r ∈ new_sessions_data 1 100
                (joined_players []
                   (normalized_players excluding_alice
                      (GameSpy1.players probe_alice_and_bob)))
                (_build_index
                   (normalized_players excluding_alice
                      (GameSpy1.players probe_alice_and_bob))) →
          PlayerSessions.player_name r
          ∉ excluded_player_name excluding_alice)
  ∧ ∃ s, (s ∉ excluded_player_name excluding_alice) ∧ Py.lower s = "bob".
Proof.
  destruct (C6_player_exclusions empty_db "1.2.3.4" 14567 probe_alice_and_bob
              excluding_alice 100 probe_alice_and_bob_accepted)
    as (_ & H2 & H3 & H4).
  split; [apply (bool_decide_unpack _); vm_compute; exact I|].
  split; [rewrite H2; vm_compute; reflexivity|].
  split; [exact H3|].
  apply H4.
  - intros p n Hp. exfalso. clear -Hp. change (p ∈ @nil Player) in Hp.
    exact (proj1 (elem_of_nil p) Hp).
  - left. clear. apply (bool_decide_unpack _). vm_compute. exact I.
Defined.
End PlayerExclusions.

(* ===================================================================== *)
(** * P3 along a run of ingestions *)
(* ===================================================================== *)

Section Consistency.
Import Config DataProcessor.

(** What a failure ingestion does to the sessions and the snapshots. *)
Lemma failure_effect settings db ip port ts :
  (player_sessions (process_server_failure settings db ip port ts)
     = player_sessions
         (_update_player_sessions db (target_id db ip port)
            (previous_players_of (latest_snapshot db (target_id db ip port)))
            [] ts)
   ∨ player_sessions (process_server_failure settings db ip port ts)
     = player_sessions db)
  ∧ server_snapshots (process_server_failure settings db ip port ts)
    = server_snapshots db.
Proof.
  destruct (failure_upsert_written settings db ip port ts)
    as (Hid & Hcf & _ & Hsnap & Hsess & _).
  rewrite process_server_failure_eq. cbv zeta. rewrite Hid.
  destruct (_ <=? _).
  - split.
    + left. rewrite (latest_snapshot_ext _ db _ Hsnap).
      by apply update_sessions_ext.
    + by rewrite (proj1 (proj2 (proj2 (update_sessions_frame _ _ _ _ _)))).
  - split; [by right | done].
Qed.

Lemma sessions_agree_nil sid players rows :
  sessions_agree sid [] rows → sessions_agree sid players rows.
Proof.
  unfold sessions_agree. intros H. eapply Forall_impl; [exact H|].
  simpl. intros k Hk Hs. specialize (Hk Hs).
  apply elem_of_names_norm in Hk as (p & ? & Hp & _).
  by apply elem_of_nil in Hp.
Qed.

(** The transition of one server leaves the sessions of the others. *)
Lemma update_sessions_other db sid prev cur ts sid' players :
  sid' ≠ sid →
  sessions_agree sid' players (player_sessions db) →
  sessions_agree sid' players
    (player_sessions (_update_player_sessions db sid prev cur ts)).
Proof.
  unfold sessions_agree. intros Hne Hagree.
  rewrite update_sessions_rows, open_keys_app, open_keys_close, open_keys_new.
  apply Forall_app. split; apply Forall_forall.
  - intros k [_ Hin]%list_elem_of_filter.
    rewrite Forall_forall in Hagree. by apply Hagree.
  - by intros k (n & -> & _)%list_elem_of_fmap ?.
Qed.

Lemma latest_snapshot_other db db' sid sid' snaps :
  server_snapshots db' = server_snapshots db ++ snaps →
  Forall (λ r, ServerSnapshots.server_id r = sid) snaps →
  sid' ≠ sid →
  latest_snapshot db' sid' = latest_snapshot db sid'.
Proof.
  unfold latest_snapshot. intros -> Hs Hne. rewrite filter_app.
  replace (filter _ snaps) with (@nil ServerSnapshots.row);
    [by rewrite app_nil_r|].
  induction Hs as [|r snaps Hr _ IH]; [done|].
  rewrite filter_cons_False; [done | congruence].
Qed.

Lemma consistent_later db t t' : t ≤ t' → consistent db t → consistent db t'.
Proof.
  intros Ht (H1 & H2 & H3). split_and!; [done..|].
  eapply Forall_impl; [exact H3|]. simpl. intros; lia.
Qed.

Lemma consistent_newer db t sid ts :
  consistent db t → t < ts → newer_than_all db sid ts.
Proof.
  intros (_ & _ & H3) Ht. unfold newer_than_all.
  eapply Forall_impl; [exact H3|]. simpl. intros; lia.
Qed.

Lemma success_consistent db ip port raw excl t ts :
  consistent db t → t < ts →
  process_server_success_raises db ip port raw excl ts = false →
  consistent (process_server_success db ip port raw excl ts) ts.
Proof.
  intros Hc Ht Hclean.
  destruct (decide (excluded excl ip port raw)) as [Hex|Hacc].
  { rewrite process_server_success_excluded by done.
    eapply consistent_later; [|done]. lia. }
  pose proof (consistent_newer _ _ (target_id db ip port) _ Hc Ht) as Hnew.
  destruct Hc as (H1 & H2 & H3).
  pose proof (success_sessions db ip port raw excl ts Hacc) as Hsess.
  pose proof (success_snapshots db ip port raw excl ts Hacc) as Hsnap.
  cbv zeta in Hsess, Hsnap.
  destruct (update_sessions_invariant db (target_id db ip port)
              (previous_players_of (latest_snapshot db (target_id db ip port)))
              (normalized_players excl (GameSpy1.players raw)) ts H1 (H2 _))
    as [Hone Hagree].
  split_and!.
  - by rewrite Hsess.
  - intros sid. rewrite Hsess.
    destruct (decide (sid = target_id db ip port)) as [->|Hne].
    + by rewrite (same_as_prior_players _ _ _
                    (success_latest db ip port raw excl ts Hacc Hnew Hclean)).
    + rewrite (latest_snapshot_other db _ (target_id db ip port) sid _ Hsnap);
        [by apply update_sessions_other | | done].
      destruct (_ || _); [done|]. by apply Forall_singleton.
  - rewrite Hsnap. apply Forall_app. split.
    + eapply Forall_impl; [exact H3|]. simpl. intros; lia.
    + destruct (_ || _); [done|]. apply Forall_singleton. simpl. lia.
Qed.

Lemma failure_consistent settings db ip port t ts :
  consistent db t → t < ts →
  consistent (process_server_failure settings db ip port ts) ts.
Proof.
  intros (H1 & H2 & H3) Ht.
  destruct (failure_effect settings db ip port ts) as (Hsess & Hsnap).
  assert (H3' : Forall (λ r, ServerSnapshots.timestamp r ≤ ts)
                  (server_snapshots db))
    by (eapply Forall_impl; [exact H3|]; simpl; intros; lia).
  destruct Hsess as [Hsess|Hsess].
  - destruct (update_sessions_invariant db (target_id db ip port)
                (previous_players_of (latest_snapshot db (target_id db ip port)))
                [] ts H1 (H2 _)) as [Hone Hagree].
    split_and!.
    + by rewrite Hsess.
    + intros sid. rewrite Hsess, (latest_snapshot_ext _ db _ Hsnap).
      destruct (decide (sid = target_id db ip port)) as [->|Hne].
      * by apply sessions_agree_nil.
      * by apply update_sessions_other.
    + by rewrite Hsnap.
  - split_and!.
    + by rewrite Hsess.
    + intros sid. by rewrite Hsess, (latest_snapshot_ext _ db _ Hsnap).
    + by rewrite Hsnap.
Qed.

Lemma ingest_consistent settings db e t :
  consistent db t → t < ingestion_time e →
  ingest_raises settings db e = false →
  consistent (ingest settings db e) (ingestion_time e).
Proof.
  destruct e; simpl; [apply success_consistent|].
  intros Hc Ht _. by apply (failure_consistent _ _ _ _ t).
Qed.

Lemma empty_db_consistent t : consistent empty_db t.
Proof.
  split_and!; [apply NoDup_nil_2 | intros; apply Forall_nil_2 | apply Forall_nil_2].
Qed.

Lemma run_consistent settings es : ∀ db t,
  consistent db t → increasing_from t es → clean_run settings db es →
  ∃ t', consistent (ingest_all settings db es) t'.
Proof.
  induction es as [|e es IH]; intros db t Hc Hes Hclean; [by exists t|].
  destruct Hes as [Ht Hes]. destruct Hclean as [He Hclean]. simpl.
  apply (IH _ (ingestion_time e)); [|done..].
  by apply (ingest_consistent _ _ _ t).
Qed.

(** Along any run of success and failure ingestions of which none
    raises and whose clock readings go strictly up, started from the
    empty store, at most one session is open for every (server,
    normalized name). *)
Theorem at_most_one_open_along_runs settings es t :
  increasing_from t es → clean_run settings empty_db es →
  at_most_one_open (player_sessions (ingest_all settings empty_db es)).
Proof.
  intros Hes Hclean.
  by destruct (run_consistent settings es empty_db t (empty_db_consistent t)
                 Hes Hclean) as (t' & H1 & _).
Qed.
End Consistency.

(* ===================================================================== *)
(** * Addresses and their canonical strings *)
(* ===================================================================== *)

Section StringFacts.
Import Str DataProcessor SchedulerTasks.

Lemma string_app_cons x a b : String x a +:+ b = String x (a +:+ b).
Proof. done. Qed.

Lemma string_app_assoc a b c : (a +:+ b) +:+ c = a +:+ b +:+ c.
Proof.
  induction a as [|x a IH]; [done|]. by rewrite !string_app_cons, IH.
Qed.

Lemma chars_app a b : Str.chars (a +:+ b) = Str.chars a ++ Str.chars b.
Proof.
  unfold Str.chars. induction a as [|c a IH]; [done|].
  rewrite string_app_cons. simpl. by rewrite IH.
Qed.

Lemma free_of_cons c x s :
  Str.free_of c (String x s) ↔ x ≠ c ∧ Str.free_of c s.
Proof.
  unfold Str.free_of, Str.chars. simpl. rewrite not_elem_of_cons. naive_solver.
Qed.

Lemma free_of_app c a b :
  Str.free_of c (a +:+ b) ↔ Str.free_of c a ∧ Str.free_of c b.
Proof. unfold Str.free_of. rewrite chars_app, not_elem_of_app. done. Qed.

Lemma split_nonempty sep s : Str.split sep s ≠ [].
Proof.
  destruct s as [|c s]; [done|]. simpl.
  destruct (Ascii.eqb c sep); [done|]. by destruct (Str.split sep s).
Qed.

(** A string without separator is its own single field. *)
Lemma split_free sep s : Str.free_of sep s → Str.split sep s = [s].
Proof.
  induction s as [|c s IH]; [done|].
  intros [Hc Hs]%free_of_cons. simpl.
  rewrite (proj2 (Ascii.eqb_neq _ _)) by done. by rewrite IH.
Qed.

Lemma split_app sep a b :
  Str.free_of sep a →
  Str.split sep (a +:+ String sep b) = a :: Str.split sep b.
Proof.
  induction a as [|c a IH].
  - intros _. simpl. by rewrite Ascii.eqb_refl.
  - intros [Hc Ha]%free_of_cons. rewrite string_app_cons. simpl.
    rewrite (proj2 (Ascii.eqb_neq _ _)) by done. by rewrite IH.
Qed.

(** There is one field more than there are separators. *)
Lemma split_length sep s :
  length (Str.split sep s)
  = S (length (filter (λ c, c = sep) (Str.chars s))).
Proof.
  induction s as [|c s IH]; [done|].
  unfold Str.chars in *. simpl. rewrite filter_cons.
  destruct (Ascii.eqb_spec c sep) as [->|Hne].
  - rewrite decide_True by done. simpl. by rewrite IH.
  - rewrite decide_False by done.
    destruct (Str.split sep s) eqn:E; [by destruct (split_nonempty sep s)|].
    simpl in *. done.
Qed.

(** *** The decimal form of an integer *)

Lemma is_digit_plain c :
  is_digit c →
  Py.is_space c = false ∧ Ascii.eqb c "+" = false ∧ Ascii.eqb c "-" = false
  ∧ Ascii.eqb c "_" = false ∧ c ≠ ":"%char.
Proof.
  unfold is_digit. intros [d Hd]. revert Hd.
  destruct c as [[] [] [] [] [] [] [] []]; vm_compute; intros; split_and!;
    congruence.
Qed.

Lemma pretty_N_char_digit x :
  (x < 10)%N → Py.digit_val (pretty_N_char x) = Some (Z.of_N x).
Proof.
  intros Hx.
  assert (x = 0 ∨ x = 1 ∨ x = 2 ∨ x = 3 ∨ x = 4 ∨ x = 5 ∨ x = 6 ∨ x = 7
          ∨ x = 8 ∨ x = 9)%N as H by lia.
  repeat destruct H as [->|H]; try subst x; done.
Qed.

Lemma pretty_N_go_app x s : pretty_N_go x s = pretty_N_go x "" +:+ s.
Proof.
  revert s. induction (N.lt_wf_0 x) as [x _ IH]; intros s.
  assert (x = 0 ∨ 0 < x)%N as [->|Hx] by lia; [done|].
  rewrite !(pretty_N_go_step x) by done.
  rewrite IH by (by apply N.div_lt).
  rewrite (IH (x `div` 10)%N) with (s := String _ "") by (by apply N.div_lt).
  by rewrite string_app_assoc.
Qed.

Lemma pretty_N_go_decimal x :
  Forall is_digit (Str.chars (pretty_N_go x ""))
  ∧ decimal (Str.chars (pretty_N_go x "")) 0 = Z.of_N x
  ∧ ((0 < x)%N → Str.chars (pretty_N_go x "") ≠ []).
Proof.
  induction (N.lt_wf_0 x) as [x _ IH].
  assert (x = 0 ∨ 0 < x)%N as [->|Hx] by lia.
  { split_and!; [by constructor | done | lia]. }
  rewrite pretty_N_go_step, pretty_N_go_app, chars_app by done.
  destruct (IH (x `div` 10)%N) as (Hd & Hv & _); [by apply N.div_lt|].
  assert (x `mod` 10 < 10)%N as Hm by (by apply N.mod_lt).
  split_and!.
  - apply Forall_app. split; [done|]. apply Forall_singleton.
    unfold is_digit. rewrite pretty_N_char_digit by done. eauto.
  - unfold decimal in *. rewrite foldl_app, Hv. simpl.
    rewrite pretty_N_char_digit by done. simpl.
    rewrite (N.div_mod x 10) at 3 by done. lia.
  - intros _. by destruct (Str.chars (pretty_N_go (x `div` 10) "")).
Qed.

Lemma digits_all l acc b :
  Forall is_digit l → l ≠ [] ∨ b = true →
  Py.digits l acc b = Some (decimal l acc).
Proof.
  intros Hl. revert acc b. induction Hl as [|c l [d Hd] _ IH]; intros acc b Hb.
  - by destruct Hb as [?| ->].
  - simpl. rewrite Hd. simpl. apply IH. by right.
Qed.

Lemma lstrip_id l : Forall (λ c, Py.is_space c = false) l → Py.lstrip l = l.
Proof. destruct 1 as [|c l Hc _]; [done|]. simpl. by rewrite Hc. Qed.

Lemma strip_id l : Forall (λ c, Py.is_space c = false) l → Py.strip l = l.
Proof.
  intros H. unfold Py.strip. rewrite (lstrip_id l) by done.
  rewrite lstrip_id by (by apply Forall_reverse). apply reverse_involutive.
Qed.

Lemma pretty_positive_chars (p : positive) :
  ∃ c l, Str.chars (pretty (Z.pos p)) = c :: l
         ∧ Forall is_digit (c :: l) ∧ decimal (c :: l) 0 = Z.pos p.
Proof.
  destruct (pretty_N_go_decimal (N.pos p)) as (Hd & Hv & Hne).
  assert (pretty (Z.pos p) = pretty_N_go (N.pos p) "") as -> by done.
  destruct (Str.chars (pretty_N_go (N.pos p) "")) as [|c l] eqn:E.
  { by destruct Hne. }
  exists c, l. by rewrite Hv.
Qed.

(** A number of [n] digits lies between 10^(n-1) and 10^n. *)
Lemma pretty_N_go_length x :
  (0 < x)%N →
  10 ^ (Z.of_nat (length (Str.chars (pretty_N_go x ""))) - 1) ≤ Z.of_N x
  < 10 ^ Z.of_nat (length (Str.chars (pretty_N_go x ""))).
Proof.
  induction (N.lt_wf_0 x) as [x _ IH]. intros Hx.
  rewrite pretty_N_go_step, pretty_N_go_app, chars_app by done.
  rewrite length_app. simpl length.
  assert (x `mod` 10 < 10)%N as Hm by (by apply N.mod_lt).
  pose proof (N.div_mod x 10 ltac:(done)) as Hdm.
  assert (x `div` 10 = 0 ∨ 0 < x `div` 10)%N as [H0|Hq] by lia.
  - rewrite H0. change (Str.chars (pretty_N_go 0 "")) with (@nil ascii).
    simpl. lia.
  - destruct (IH (x `div` 10)%N) as [Hlo Hhi]; [by apply N.div_lt | done |].
    destruct (pretty_N_go_decimal (x `div` 10)%N) as (_ & _ & Hne).
    specialize (Hne Hq).
    set (n := length (Str.chars (pretty_N_go (x `div` 10) ""))) in *.
    assert (0 < n)%nat as Hn
      by (subst n; destruct (Str.chars _); [done | simpl; lia]).
    replace (Z.of_nat (n + 1) - 1) with (Z.succ (Z.of_nat n - 1)) by lia.
    replace (Z.of_nat (n + 1)) with (Z.succ (Z.succ (Z.of_nat n - 1))) by lia.
    replace (Z.of_nat n) with (Z.succ (Z.of_nat n - 1)) in Hhi by lia.
    rewrite !Z.pow_succ_r by lia. rewrite Z.pow_succ_r in Hhi by lia.
    revert Hlo Hhi. generalize (10 ^ (Z.of_nat n - 1)). intros A Hlo Hhi.
    clear IH Hne Hn. revert Hm Hdm Hq Hlo Hhi.
    generalize (x `div` 10)%N (x `mod` 10)%N. intros q r Hm Hdm Hq Hlo Hhi.
    lia.
Qed.

Lemma pretty_positive_length (p : positive) (k : Z) :
  0 ≤ k →
  Z.of_nat (length (Str.chars (pretty (Z.pos p)))) ≤ k ↔ Z.pos p < 10 ^ k.
Proof.
  intros Hk.
  assert (pretty (Z.pos p) = pretty_N_go (N.pos p) "") as -> by done.
  destruct (pretty_N_go_length (N.pos p)) as [Hlo Hhi]; [done|].
  revert Hlo Hhi.
  generalize (Z.of_nat (length (Str.chars (pretty_N_go (N.pos p) "")))).
  intros n Hlo Hhi. change (Z.of_N (N.pos p)) with (Z.pos p) in *. split.
  - intros Hn. eapply Z.lt_le_trans; [exact Hhi|].
    apply Z.pow_le_mono_r; lia.
  - intros Hp. destruct (decide (n ≤ k)) as [|Hgt]; [done|]. exfalso.
    assert (10 ^ k ≤ 10 ^ (n - 1)) by (apply Z.pow_le_mono_r; lia). lia.
Qed.

Lemma int_max_str_digits_nonneg : 0 ≤ Py.int_max_str_digits.
Proof. done. Qed.

Lemma literal_pretty (p : positive) :
  Py.literal (Str.chars (pretty (Z.pos p)))
  = if bool_decide (Z.pos p < 10 ^ Py.int_max_str_digits)
    then Some (Z.pos p) else None.
Proof.
  pose proof (pretty_positive_length p _ int_max_str_digits_nonneg) as Hlen.
  destruct (pretty_positive_chars p) as (c & l & Hc & Hd & Hv).
  rewrite Hc in *. unfold Py.literal.
  rewrite digits_all by auto. rewrite Hv. cbn [mbind option_bind].
  unfold Py.count_digits. rewrite filter_all by done.
  destruct (Z.ltb_spec Py.int_max_str_digits (Z.of_nat (length (c :: l))));
    case_bool_decide; try done; exfalso; lia.
Qed.

(** [int(str(n))]: the decimal form of an integer parses back to it,
    unless it has more digits than [int] accepts. *)
Lemma int_pretty (z : Z) :
  Py.int (pretty z)
  = if bool_decide (Z.abs z < 10 ^ Py.int_max_str_digits)
    then Some z else None.
Proof.
  destruct z as [|p|p].
  - rewrite bool_decide_eq_true_2; [done|].
    apply Z.pow_pos_nonneg; [done | apply int_max_str_digits_nonneg].
  - destruct (pretty_positive_chars p) as (c & l & Hc & Hd & Hv).
    pose proof (literal_pretty p) as Hlit.
    unfold Py.int. fold (Str.chars (pretty (Z.pos p))). rewrite Hc in *.
    rewrite strip_id
      by (eapply Forall_impl; [exact Hd|]; intros ? ?; by apply is_digit_plain).
    destruct (is_digit_plain c) as (_ & -> & -> & _);
      [by apply Forall_cons in Hd as [? _]|].
    exact Hlit.
  - destruct (pretty_positive_chars p) as (c & l & Hc & Hd & Hv).
    pose proof (literal_pretty p) as Hlit.
    assert (pretty (Z.neg p) = String "-" (pretty (Z.pos p))) as -> by done.
    unfold Py.int. simpl list_ascii_of_string.
    fold (Str.chars (pretty (Z.pos p))). rewrite Hc in *.
    rewrite strip_id.
    + change (Z.opp <$> Py.literal (c :: l)
              = if bool_decide (Z.pos p < 10 ^ Py.int_max_str_digits)
                then Some (Z.neg p) else None).
      rewrite Hlit. by case_bool_decide.
    + constructor; [done|].
      eapply Forall_impl; [exact Hd|]. intros ? ?. by apply is_digit_plain.
Qed.

(** The decimal form of an integer holds no colon. *)
Lemma pretty_free_of_colon (z : Z) : Str.free_of ":" (pretty z).
Proof.
  unfold Str.free_of.
  assert (∀ p : positive, ":"%char ∉ Str.chars (pretty (Z.pos p))) as Hpos.
  { intros p. destruct (pretty_positive_chars p) as (c & l & -> & Hd & _).
    intros Hin. rewrite Forall_forall in Hd.
    by destruct (is_digit_plain _ (Hd _ Hin)) as (_ & _ & _ & _ & ?). }
  destruct z as [|p|p]; [by intros ?%list_elem_of_singleton | done |].
  assert (pretty (Z.neg p) = String "-" (pretty (Z.pos p))) as -> by done.
  unfold Str.chars. simpl. apply not_elem_of_cons. split; [done|]. apply Hpos.
Qed.
End StringFacts.

Section Identifiers.
Import Str DataProcessor SchedulerTasks.

Lemma server_identifier_eq ip port :
  server_identifier ip port = ip +:+ String ":" (pretty port).
Proof. done. Qed.

Lemma app_separator_inj sep a b a' b' :
  free_of sep b → free_of sep b' →
  a +:+ String sep b = a' +:+ String sep b' → a = a' ∧ b = b'.
Proof.
  intros Hb Hb'. revert a'. induction a as [|x a IH]; intros [|x' a'].
  - by intros [= ->].
  - rewrite string_app_cons. intros [= <- ->].
    apply free_of_app in Hb as [_ Hb]. apply free_of_cons in Hb as [Hb _].
    done.
  - rewrite string_app_cons. intros [= -> <-].
    apply free_of_app in Hb' as [_ Hb']. apply free_of_cons in Hb' as [Hb' _].
    done.
  - rewrite !string_app_cons. intros [= -> H].
    destruct (IH _ H) as [-> ->]. done.
Qed.

Lemma server_identifier_inj ip port ip' port' :
  server_identifier ip port = server_identifier ip' port' →
  ip = ip' ∧ port = port'.
Proof.
  rewrite !server_identifier_eq. intros H.
  apply app_separator_inj in H as [-> H]; [|apply pretty_free_of_colon..].
  by apply (inj pretty) in H as ->.
Qed.

(** X1. The canonical string ["ip:port"] identifies the address: two
    addresses with the same string are the same address, whatever the ip
    holds (colons included). *)
Theorem X1_server_identifier_injective ip port ip' port' :
  server_identifier ip port = server_identifier ip' port' →
  ip = ip' ∧ port = port'.
Proof. apply server_identifier_inj. Qed.

Lemma X1_server_identifier_injective_witness :
  "1.2.3.4" = "1.2.3.4" ∧ 14567 = 14567.
Proof.
  apply (X1_server_identifier_injective "1.2.3.4" 14567 "1.2.3.4" 14567).
  reflexivity.
Defined.

Lemma identifier_inj a b : identifier a = identifier b → a = b.
Proof.
  destruct a as [ip port], b as [ip' port']. unfold identifier. simpl.
  intros H. by destruct (server_identifier_inj ip port ip' port' H) as [-> ->].
Qed.

Lemma parse_identifier ip port :
  free_of ":" ip →
  parse_server_id (server_identifier ip port)
  = if bool_decide (Z.abs port < 10 ^ Py.int_max_str_digits)
    then Some (ip, port) else None.
Proof.
  intros Hip. unfold parse_server_id.
  rewrite server_identifier_eq, split_app by done.
  rewrite split_free by apply pretty_free_of_colon.
  rewrite int_pretty. by case_bool_decide.
Qed.

Lemma parse_identifier_colon ip port :
  ¬ free_of ":" ip → parse_server_id (server_identifier ip port) = None.
Proof.
  intros Hip. unfold parse_server_id.
  assert (0 < length (filter (λ c, c = ":"%char) (chars ip)))%nat as Hpos.
  { unfold free_of in Hip. apply dec_stable in Hip.
    destruct (filter _ (chars ip)) eqn:E; [|simpl; lia].
    exfalso. by eapply (filter_nil_not_elem_of _ _ ":"%char) in E. }
  pose proof (split_length ":" (server_identifier ip port)) as Hlen.
  rewrite server_identifier_eq, chars_app, filter_app, length_app in Hlen.
  unfold chars at 2 in Hlen. simpl list_ascii_of_string in Hlen.
  rewrite filter_cons_True in Hlen by done. simpl in Hlen.
  rewrite server_identifier_eq.
  destruct (split ":" _) as [|f1 [|f2 [|f3 fs]]]; simpl in *; try done; lia.
Qed.

Lemma parse_identifier_Some ip port a :
  parse_server_id (server_identifier ip port) = Some a →
  a = (ip, port) ∧ free_of ":" ip
  ∧ Z.abs port < 10 ^ Py.int_max_str_digits.
Proof.
  intros H. destruct (decide (free_of ":" ip)) as [Hfree|Hcolon].
  - rewrite parse_identifier in H by done.
    case_bool_decide; [|done]. by injection H as <-.
  - by rewrite parse_identifier_colon in H.
Qed.

(** X2. Splitting the canonical string at the colon and reading the port
    with [int] gives the address back when the ip holds no colon and the
    port has no more digits than [int] accepts (4300), and raises
    otherwise. *)
Theorem X2_parse_server_id_round_trip ip port :
  parse_server_id (server_identifier ip port)
  = if bool_decide (free_of ":" ip
                    ∧ Z.abs port < 10 ^ Py.int_max_str_digits)
    then Some (ip, port) else None.
Proof.
  destruct (decide (free_of ":" ip)) as [Hfree|Hcolon].
  - rewrite parse_identifier by done. repeat case_bool_decide; tauto.
  - rewrite parse_identifier_colon by done.
    rewrite bool_decide_eq_false_2; tauto.
Qed.

End Identifiers.

(* ===================================================================== *)
(** * The scheduler keeps track of every known server *)
(* ===================================================================== *)

Section TrackedSets.
Import DataProcessor SchedulerTasks.
Implicit Types (L : list (string * Z)) (P : gset (string * Z)) (K : gset string).

Lemma tracked_sets_perm L L' P K :
  L ≡ₚ L' → tracked_sets L P K → tracked_sets L' P K.
Proof.
  unfold tracked_sets. intros HL (Hnd & Hp & Hk). split_and!.
  - by rewrite <- HL.
  - intros a Ha. rewrite <- HL. by apply Hp.
  - intros id. rewrite Hk. by setoid_rewrite HL.
Qed.

(** A server not yet known enters the queue. *)
Lemma tracked_admit_active L L' P K a :
  tracked_sets L P K → identifier a ∉ K → L' ≡ₚ a :: L →
  tracked_sets L' P ({[identifier a]} ∪ K).
Proof.
  intros Ht Hnew HL. apply (tracked_sets_perm (a :: L)); [done|].
  destruct Ht as (Hnd & Hp & Hk). split_and!.
  - apply NoDup_cons. split; [|done].
    intros Ha. apply Hnew, Hk. eauto.
  - intros b Hb [->|Hin]%elem_of_cons; [|by eapply Hp].
    apply Hnew, Hk. eauto.
  - intros id. rewrite elem_of_union, elem_of_singleton, Hk. split.
    + intros [->|(b & Hb & <-)].
      * exists a. split; [left; by left | done].
      * exists b. split; [|done]. destruct Hb; [left; by right | by right].
    + intros (b & [[->|Hb]%elem_of_cons|Hb] & <-); eauto.
Qed.

(** A server not yet known is parked. *)
Lemma tracked_admit_parked L P K a :
  tracked_sets L P K → identifier a ∉ K →
  tracked_sets L ({[a]} ∪ P) ({[identifier a]} ∪ K).
Proof.
  intros (Hnd & Hp & Hk) Hnew. split_and!.
  - done.
  - intros b [->%elem_of_singleton|Hb]%elem_of_union; [|by apply Hp].
    intros Ha. apply Hnew, Hk. eauto.
  - intros id. rewrite elem_of_union, elem_of_singleton, Hk. split.
    + intros [->|(b & Hb & <-)].
      * exists a. split; [right; set_solver | done].
      * exists b. split; [|done]. destruct Hb; [by left | right; set_solver].
    + intros (b & [Hb|[->%elem_of_singleton|Hb]%elem_of_union] & <-); eauto.
Qed.

(** A parked server goes back to the queue. *)
Lemma tracked_release L L' P K a :
  tracked_sets L P K → a ∈ P → L' ≡ₚ a :: L →
  tracked_sets L' (P ∖ {[a]}) K.
Proof.
  intros Ht Ha HL. apply (tracked_sets_perm (a :: L)); [done|].
  destruct Ht as (Hnd & Hp & Hk). split_and!.
  - apply NoDup_cons. split; [by apply Hp | done].
  - intros b [Hb Hne]%elem_of_difference [->|Hin]%elem_of_cons.
    + by apply Hne, elem_of_singleton.
    + by eapply Hp.
  - intros id. rewrite Hk. split.
    + intros (b & [Hb|Hb] & <-); exists b; split; try done.
      * left. by apply elem_of_cons; right.
      * destruct (decide (b = a)) as [->|Hne]; [left; by left|].
        right. set_solver.
    + intros (b & Hb & <-). exists b. split; [|done].
      destruct Hb as [[->|Hb]%elem_of_cons|Hb]; [by right | by left |].
      right. set_solver.
Qed.

(** A server leaves the queue for the parked set. *)
Lemma tracked_park L L' P K a :
  tracked_sets L P K → L ≡ₚ a :: L' →
  tracked_sets L' ({[a]} ∪ P) K.
Proof.
  intros Ht HL. apply (tracked_sets_perm _ (a :: L')) in Ht; [|done].
  destruct Ht as ([Ha Hnd]%NoDup_cons & Hp & Hk). split_and!.
  - done.
  - intros b [->%elem_of_singleton|Hb]%elem_of_union; [done|].
    intros Hin. apply (Hp b Hb). by right.
  - intros id. rewrite Hk. split.
    + intros (b & Hb & <-). exists b. split; [|done].
      destruct Hb as [[->|Hb]%elem_of_cons|Hb];
        [right; set_solver | by left | right; set_solver].
    + intros (b & Hb & <-). exists b. split; [|done].
      destruct Hb as [Hb|[->%elem_of_singleton|Hb]%elem_of_union];
        [left; by right | left; by left | by right].
Qed.
End TrackedSets.

Section SchedulerSteps.
Import Config DataProcessor SchedulerTasks.

Lemma queued_put self e : queued (put self e) = queued self ++ [address_of e].
Proof. unfold queued, put. simpl. by rewrite fmap_app. Qed.

(** *** [_refresh_exclusions] *)

Lemma release_all_state clock l : ∀ self,
  _exclusions (foldl (release clock) self l) = _exclusions self
  ∧ _known_servers (foldl (release clock) self l) = _known_servers self
  ∧ (∀ b, b ∈ _parked_servers (foldl (release clock) self l)
          ↔ b ∈ _parked_servers self
            ∧ (b ∈ l → _is_server_excluded self b.1 b.2))
  ∧ _queue (foldl (release clock) self l)
    = _queue self
      ++ ((λ a, (clock a, a.1, a.2))
            <$> filter (λ a, ¬ _is_server_excluded self a.1 a.2) l).
Proof.
  induction l as [|a l IH]; intros self.
  { simpl. split_and!; try done; [|by rewrite app_nil_r].
    intros b. split; [|by intros []].
    intros ?. split; [done|]. by intros ?%elem_of_nil. }
  simpl. unfold release at 2 4 6 8. case_bool_decide as Hex.
  - destruct (IH self) as (H2 & H3 & H4 & H5).
    split_and!; try done.
    + intros b. rewrite H4. split.
      * intros [Hb Hl]. split; [done|].
        intros [->|Hbl]%elem_of_cons; [done | by apply Hl].
      * intros [Hb Hl]. split; [done|]. intros Hbl. apply Hl. by right.
    + by rewrite H5, filter_cons_False by (by intros ?).
  - set (self1 := {| _queue := _queue self ++ [(clock a, a.1, a.2)];
                     _known_servers := _known_servers self;
                     _parked_servers := _parked_servers self ∖ {[a]};
                     _exclusions := _exclusions self |}).
    destruct (IH self1) as (H2 & H3 & H4 & H5).
    split_and!; try done.
    + intros b. rewrite H4. simpl. rewrite elem_of_difference, elem_of_singleton.
      unfold _is_server_excluded. simpl. split.
      * intros [[Hb Hne] Hl]. split; [done|].
        intros [->|Hbl]%elem_of_cons; [done | by apply Hl].
      * intros [Hb Hl]. split_and!; [done| |].
        -- intros ->. apply Hex, Hl. by left.
        -- intros Hbl. apply Hl. by right.
    + rewrite H5. simpl. rewrite filter_cons_True by done.
      rewrite fmap_cons, <- app_assoc. done.
Qed.

Lemma release_all_tracked clock fl l : ∀ self,
  NoDup l → (∀ a, a ∈ l → a ∈ _parked_servers self) → tracked self fl →
  tracked (foldl (release clock) self l) fl.
Proof.
  induction l as [|a l IH]; intros self Hnd Hin Ht; [done|].
  apply NoDup_cons in Hnd as [Ha Hnd]. simpl.
  assert (a ∈ _parked_servers self) as Hpa by (apply Hin; by left).
  unfold release at 2. case_bool_decide as Hex.
  - apply IH; [done| |done]. intros b Hb. apply Hin. by right.
  - apply IH; [done|..].
    + intros b Hb. simpl. apply elem_of_difference. split.
      * apply Hin. by right.
      * intros ->%elem_of_singleton. done.
    + unfold tracked, queued. simpl. rewrite fmap_app. simpl.
      apply (tracked_release (queued self ++ fl)); [done|done|].
      unfold address_of. simpl. destruct a as [ip port]. simpl.
      rewrite <- app_assoc. simpl. by rewrite <- Permutation_middle.
Qed.

Lemma refresh_state rows clock self :
  parked_are_excluded (_refresh_exclusions rows clock self)
  ∧ _known_servers (_refresh_exclusions rows clock self) = _known_servers self.
Proof.
  unfold _refresh_exclusions.
  set (self0 := {| _queue := _queue self;
                   _known_servers := _known_servers self;
                   _parked_servers := _parked_servers self;
                   _exclusions := temp_exclusions rows |}).
  destruct (release_all_state clock (elements (_parked_servers self0)) self0)
    as (H2 & H3 & H4 & H5).
  split; [|done]. intros a Ha. apply H4 in Ha as [Hin Ha].
  unfold _is_server_excluded in *. rewrite H2. apply Ha.
  by apply elem_of_elements.
Qed.

(** X4. Refreshing the exclusions replaces them by those of the rows
    read, keeps parked exactly the parked servers that are still
    excluded, and puts each of the others back in the queue, due at the
    clock reading made for it; the known servers and the entries already
    queued are untouched. *)
Theorem X4_refresh_releases_parked (rows : list ExclusionRow)
    (clock : string * Z → Q) (self : State) :
  let self' := _refresh_exclusions rows clock self in
  let still_excluded a := server_excluded (temp_exclusions rows) a.1 a.2 in
  _exclusions self' = temp_exclusions rows
  ∧ _known_servers self' = _known_servers self
  ∧ (∀ a, a ∈ _parked_servers self'
          ↔ a ∈ _parked_servers self ∧ still_excluded a)
  ∧ _queue self'
    = _queue self
      ++ ((λ a, (clock a, a.1, a.2))
            <$> filter (λ a, ¬ still_excluded a)
                  (elements (_parked_servers self)))
  ∧ parked_are_excluded self'.
Proof.
  intros self' still_excluded. subst self'. unfold _refresh_exclusions.
  set (self0 := {| _queue := _queue self;
                   _known_servers := _known_servers self;
                   _parked_servers := _parked_servers self;
                   _exclusions := temp_exclusions rows |}).
  destruct (release_all_state clock (elements (_parked_servers self0)) self0)
    as (H2 & H3 & H4 & H5).
  assert (∀ b, b ∈ _parked_servers
                     (foldl (release clock) self0
                        (elements (_parked_servers self0)))
               ↔ b ∈ _parked_servers self ∧ still_excluded b) as H4'.
  { intros b. rewrite H4. simpl. rewrite elem_of_elements.
    unfold _is_server_excluded. simpl. naive_solver. }
  split_and!; try done.
  intros a Ha. apply H4' in Ha as [_ Ha].
  unfold _is_server_excluded. by rewrite H2.
Qed.

Lemma refresh_tracked rows clock self fl :
  tracked self fl → tracked (_refresh_exclusions rows clock self) fl.
Proof.
  intros Ht. unfold _refresh_exclusions.
  apply release_all_tracked;
    [apply NoDup_elements | by intros a ?%elem_of_elements | done].
Qed.

(** *** [_seed_known_servers] *)

Lemma seed_one_step now self row fl :
  tracked self fl → parked_are_excluded self →
  tracked (seed_one now self row) fl
  ∧ parked_are_excluded (seed_one now self row)
  ∧ _exclusions (seed_one now self row) = _exclusions self
  ∧ _known_servers (seed_one now self row)
    = {[identifier row]} ∪ _known_servers self.
Proof.
  intros Ht Hp. destruct row as [ip port]. unfold seed_one. simpl.
  change (server_identifier ip port) with (identifier (ip, port)).
  case_bool_decide as Hknown.
  { split_and!; [done..|]. set_solver. }
  case_bool_decide as Hex.
  - split_and!; try done.
    + by apply (tracked_admit_parked _ _ _ (ip, port)).
    + intros a [->%elem_of_singleton|Ha]%elem_of_union; [done | by apply Hp].
  - split_and!; try done.
    unfold tracked. rewrite queued_put. simpl.
    apply (tracked_admit_active (queued self ++ fl) _ _ _ (ip, port));
      [done..|].
    unfold address_of. simpl.
    rewrite <- app_assoc. simpl. by rewrite <- Permutation_middle.
Qed.

Lemma seed_all now rows fl : ∀ self,
  tracked self fl → parked_are_excluded self →
  tracked (foldl (seed_one now) self rows) fl
  ∧ parked_are_excluded (foldl (seed_one now) self rows)
  ∧ _exclusions (foldl (seed_one now) self rows) = _exclusions self
  ∧ _known_servers (foldl (seed_one now) self rows)
    = list_to_set (identifier <$> rows) ∪ _known_servers self.
Proof.
  induction rows as [|row rows IH]; intros self Ht Hp.
  { split_and!; [done..|]. set_solver. }
  destruct (seed_one_step now self row fl Ht Hp) as (H1 & H2 & H3 & H4).
  destruct (IH _ H1 H2) as (H5 & H6 & H7 & H8). simpl.
  split_and!; [done | done | congruence |].
  rewrite H8, H4. clear. set_solver.
Qed.

(** *** [_master_list_poller] *)

Lemma discover_one_step clock self id self' address fl :
  id = identifier address →
  id ∉ _known_servers self →
  discover_one clock self id = Some self' →
  tracked self fl → parked_are_excluded self →
  tracked self' fl ∧ parked_are_excluded self'
  ∧ _exclusions self' = _exclusions self
  ∧ _known_servers self' = {[id]} ∪ _known_servers self.
Proof.
  intros -> Hnew Hd Ht Hp. unfold discover_one in Hd.
  destruct address as [ip port]. unfold identifier in *. simpl in *.
  destruct (parse_server_id (server_identifier ip port)) as [a|] eqn:Hparse;
    [|done].
  apply parse_identifier_Some in Hparse as (-> & _ & _). simpl in Hd.
  case_bool_decide as Hex; injection Hd as <-.
  - split_and!; try done.
    + by apply (tracked_admit_parked _ _ _ (ip, port)).
    + intros a [->%elem_of_singleton|Ha]%elem_of_union; [done | by apply Hp].
  - split_and!; try done.
    unfold tracked. rewrite queued_put. simpl.
    apply (tracked_admit_active (queued self ++ fl) _ _ _ (ip, port));
      [done..|].
    unfold address_of. simpl.
    rewrite <- app_assoc. simpl. by rewrite <- Permutation_middle.
Qed.

Lemma discover_all clock fl ids : ∀ self,
  NoDup ids →
  (∀ id, id ∈ ids → (id ∉ _known_servers self) ∧ ∃ a, id = identifier a) →
  tracked self fl → parked_are_excluded self →
  tracked (discover clock ids self).1 fl
  ∧ parked_are_excluded (discover clock ids self).1
  ∧ _exclusions (discover clock ids self).1 = _exclusions self
  ∧ _known_servers self ⊆ _known_servers (discover clock ids self).1
  ∧ ((discover clock ids self).2 = true →
     _known_servers (discover clock ids self).1
     = list_to_set ids ∪ _known_servers self).
Proof.
  induction ids as [|id ids IH]; intros self Hnd Hids Ht Hp.
  { simpl. split_and!; [done..|]. intros _. clear. set_solver. }
  apply NoDup_cons in Hnd as [Hid Hnd]. simpl.
  destruct (discover_one clock self id) as [self1|] eqn:E; [|done].
  destruct (Hids id) as (Hnew & a & Ha); [by left|].
  destruct (discover_one_step _ _ _ _ _ fl Ha Hnew E Ht Hp)
    as (H1 & H2 & H3 & H4).
  destruct (IH self1 Hnd) as (H5 & H6 & H7 & H8 & H9); try done.
  { intros id' Hid'. destruct (Hids id') as [Hn Hex]; [by right|].
    split; [|done]. rewrite H4, not_elem_of_union, not_elem_of_singleton.
    split; [by intros -> | done]. }
  split_and!; [done | done | congruence | |].
  - etrans; [|exact H8]. rewrite H4. clear. set_solver.
  - intros Hc. rewrite (H9 Hc), H4. clear. set_solver.
Qed.

Lemma poller_step settings clock servers self backoff fl :
  tracked self fl → parked_are_excluded self →
  tracked (_master_list_poller settings clock servers self backoff).1 fl
  ∧ parked_are_excluded
      (_master_list_poller settings clock servers self backoff).1
  ∧ _exclusions (_master_list_poller settings clock servers self backoff).1
    = _exclusions self
  ∧ _known_servers self
    ⊆ _known_servers (_master_list_poller settings clock servers self backoff).1.
Proof.
  unfold _master_list_poller. intros Ht Hp.
  destruct servers as [[|s servers]|]; [done| |done].
  set (l := s :: servers). cbn [fst].
  assert (∀ id, id ∈ elements
                       (list_to_set ((λ s, server_identifier s.1 s.2) <$> l)
                        ∖ _known_servers self) →
                (id ∉ _known_servers self) ∧ ∃ a, id = identifier a) as Hids.
  { intros id [Hin Hnew]%elem_of_elements%elem_of_difference.
    split; [done|].
    apply elem_of_list_to_set, list_elem_of_fmap in Hin as (a & -> & _).
    by exists a. }
  destruct (discover_all clock fl _ self (NoDup_elements _) Hids Ht Hp)
    as (H1 & H2 & H3 & H4 & _).
  done.
Qed.

(** *** [_worker] *)

Lemma pop_min_None q : pop_min q = None → q = [].
Proof.
  destruct q as [|e q]; [done|]. simpl.
  destruct (pop_min q) as [[m rest]|]; [|done]. by destruct (entry_leb e m).
Qed.

Lemma pop_min_perm q m rest : pop_min q = Some (m, rest) → q ≡ₚ m :: rest.
Proof.
  revert m rest. induction q as [|e q IH]; intros m rest; [done|]. simpl.
  destruct (pop_min q) as [[m' rest']|] eqn:E.
  - destruct (entry_leb e m'); intros [= <- <-]; [done|].
    rewrite (IH _ _ eq_refl). apply Permutation_swap.
  - intros [= <- <-]. by rewrite (pop_min_None _ E).
Qed.

Lemma entry_leb_time a b :
  (entry_leb a b = true → (a.1.1 <= b.1.1)%Q)
  ∧ (entry_leb a b = false → (b.1.1 <= a.1.1)%Q).
Proof.
  unfold entry_leb. destruct (a.1.1 ?= b.1.1)%Q eqn:E.
  - apply Qeq_alt in E. split; intros _; rewrite E; apply Qle_refl.
  - apply Qlt_alt in E. split; [intros _; by apply Qlt_le_weak | done].
  - apply Qgt_alt in E. split; [done | intros _; by apply Qlt_le_weak].
Qed.

Lemma pop_min_least q m rest :
  pop_min q = Some (m, rest) → Forall (λ e, (m.1.1 <= e.1.1)%Q) rest.
Proof.
  revert m rest. induction q as [|e q IH]; intros m rest; [done|]. simpl.
  destruct (pop_min q) as [[m' rest']|] eqn:E.
  - specialize (IH _ _ eq_refl).
    destruct (entry_leb e m') eqn:Hle; intros [= <- <-].
    + apply (proj1 (entry_leb_time _ _)) in Hle.
      rewrite (pop_min_perm _ _ _ E). constructor; [done|].
      eapply Forall_impl; [exact IH|]. simpl. intros x Hx.
      by eapply Qle_trans.
    + apply (proj2 (entry_leb_time _ _)) in Hle. by constructor.
  - intros [= <- <-]. constructor.
Qed.

(** X5. A worker takes the queued entry that is due first (no entry left
    in the queue is due earlier) and nothing else changes in the queue.
    If the server of the entry is excluded at that moment it is parked
    and no probe follows; otherwise the worker keeps the entry for its
    probe, and the server is not excluded.  On an empty queue the worker
    waits. *)
Theorem X5_worker_takes_earliest (self : State) :
  (worker_take self = None ↔ _queue self = [])
  ∧ ∀ self' taken, worker_take self = Some (self', taken) →
      ∃ entry,
        _queue self ≡ₚ entry :: _queue self'
        ∧ Forall (λ e, (entry.1.1 <= e.1.1)%Q) (_queue self')
        ∧ _known_servers self' = _known_servers self
        ∧ _exclusions self' = _exclusions self
        ∧ match taken with
          | None =>
              _is_server_excluded self entry.1.2 entry.2
              ∧ _parked_servers self'
                = {[address_of entry]} ∪ _parked_servers self
          | Some e =>
              e = entry
              ∧ ¬ _is_server_excluded self entry.1.2 entry.2
              ∧ _parked_servers self' = _parked_servers self
          end.
Proof.
  unfold worker_take. split.
  - destruct (pop_min (_queue self)) as [[entry rest]|] eqn:E.
    + split; [by case_bool_decide|]. intros Hq. by rewrite Hq in E.
    + split; [intros _; by apply pop_min_None | done].
  - intros self' taken H.
    destruct (pop_min (_queue self)) as [[entry rest]|] eqn:E; [|done].
    exists entry. unfold _is_server_excluded in *. simpl in H.
    case_bool_decide as Hex; injection H as <- <-; simpl;
      (split_and!; [by apply pop_min_perm | by eapply pop_min_least | done..]).
Qed.

Lemma worker_take_tracked self self' taken fl :
  worker_take self = Some (self', taken) →
  tracked self fl → parked_are_excluded self →
  tracked self' (match taken with
                 | Some e => address_of e :: fl
                 | None => fl
                 end)
  ∧ parked_are_excluded self'
  ∧ _exclusions self' = _exclusions self
  ∧ _known_servers self' = _known_servers self.
Proof.
  unfold worker_take. intros H Ht Hp.
  destruct (pop_min (_queue self)) as [[entry rest]|] eqn:E; [|done].
  apply pop_min_perm in E.
  assert (queued self ++ fl ≡ₚ address_of entry :: (address_of <$> rest) ++ fl)
    as Hperm by (unfold queued; by rewrite E).
  unfold _is_server_excluded in *. simpl in H.
  case_bool_decide as Hex; injection H as <- <-; simpl.
  - split_and!; try done.
    + unfold tracked, queued. simpl. by eapply tracked_park.
    + intros a [->%elem_of_singleton|Ha]%elem_of_union; [done | by apply Hp].
  - split_and!; try done.
    unfold tracked, queued. simpl.
    eapply tracked_sets_perm; [|exact Ht].
    rewrite Hperm. apply Permutation_middle.
Qed.

Lemma worker_finish_state settings self db ip port result now ts self' :
  (worker_finish settings self db ip port result now ts).1 = Some self' →
  self' = put self ((now + inject_Z (Scheduler.worker_delay settings result))%Q,
                    ip, port).
Proof.
  unfold worker_finish. destruct result as [status|]; cbn [fst].
  - destruct (process_server_success_outcome _ _ _ _ _ _).2; [done|].
    by intros [= <-].
  - by intros [= <-].
Qed.

Lemma put_tracked self entry before after :
  tracked self (before ++ address_of entry :: after) →
  parked_are_excluded self →
  tracked (put self entry) (before ++ after)
  ∧ parked_are_excluded (put self entry)
  ∧ _exclusions (put self entry) = _exclusions self
  ∧ _known_servers (put self entry) = _known_servers self.
Proof.
  intros Ht Hp. split_and!; try done.
  unfold tracked. rewrite queued_put. simpl.
  eapply tracked_sets_perm; [|exact Ht].
  rewrite <- !app_assoc. apply Permutation_app_head.
  simpl. by rewrite <- Permutation_middle.
Qed.

Lemma update_cache_tracked rows clock self fl :
  tracked self fl → parked_are_excluded self →
  tracked (_update_exclusions_cache rows clock self) fl
  ∧ parked_are_excluded (_update_exclusions_cache rows clock self)
  ∧ _known_servers (_update_exclusions_cache rows clock self)
    = _known_servers self.
Proof.
  intros Ht Hp. destruct rows as [rows|]; [|done]. simpl.
  split_and!; [by apply refresh_tracked | |];
    apply (refresh_state rows clock self).
Qed.

Lemma step_invariant settings sys sys' :
  step settings sys sys' →
  tracked (scheduler sys) (in_flight sys) →
  parked_are_excluded (scheduler sys) →
  tracked (scheduler sys') (in_flight sys')
  ∧ parked_are_excluded (scheduler sys')
  ∧ _known_servers (scheduler sys) ⊆ _known_servers (scheduler sys').
Proof.
  intros Hstep Ht Hp.
  destruct Hstep as [sys exclusion_rows clock rows now
                    |sys rows clock
                    |sys clock fetched turn
                    |sys self Htake
                    |sys self entry Htake
                    |sys before after ip port result now timestamp Hfl turn];
    simpl.
  - destruct (update_cache_tracked exclusion_rows clock _ _ Ht Hp)
      as (H1 & H2 & H3).
    unfold _seed_known_servers. destruct rows as [rows|].
    + destruct (seed_all now rows _ _ H1 H2) as (H4 & H5 & _ & H7).
      split_and!; [done..|]. rewrite H7, H3. clear. set_solver.
    + split_and!; [done..|]. by rewrite H3.
  - destruct (update_cache_tracked rows clock _ _ Ht Hp) as (H1 & H2 & H3).
    split_and!; [done..|]. by rewrite H3.
  - subst turn.
    by destruct (poller_step settings clock fetched _ (backoff_delay sys) _
                   Ht Hp) as (? & ? & _ & ?).
  - destruct (worker_take_tracked _ _ _ _ Htake Ht Hp) as (? & ? & _ & Hk).
    split_and!; [done..|]. by rewrite Hk.
  - destruct (worker_take_tracked _ _ _ _ Htake Ht Hp) as (? & ? & _ & Hk).
    split_and!; [done..|]. by rewrite Hk.
  - subst turn.
    destruct (worker_finish settings (scheduler sys) (store sys) ip port
                result now timestamp).1 as [self'|] eqn:E; simpl.
    + apply worker_finish_state in E as ->. rewrite Hfl in Ht.
      destruct (put_tracked (scheduler sys)
                  ((now + inject_Z (Scheduler.worker_delay settings result))%Q,
                   ip, port) before after Ht Hp) as (Ht' & Hp' & _ & Hk).
      split_and!; [exact Ht' | exact Hp' | by rewrite Hk].
    + done.
Qed.

Lemma start_tracked settings :
  tracked (scheduler (start settings)) (in_flight (start settings))
  ∧ parked_are_excluded (scheduler (start settings)).
Proof.
  split.
  - split_and!; [constructor | by intros a ?%elem_of_empty |].
    intros id. split; [by intros ?%elem_of_empty|].
    intros (a & [Ha%elem_of_nil|Ha%elem_of_empty] & _); done.
  - by intros a ?%elem_of_empty.
Qed.

Lemma reachable_invariant settings sys :
  reachable settings sys →
  tracked (scheduler sys) (in_flight sys)
  ∧ parked_are_excluded (scheduler sys).
Proof.
  unfold reachable. revert sys.
  apply (rtc_ind_r (λ sys, tracked (scheduler sys) (in_flight sys)
                           ∧ parked_are_excluded (scheduler sys)));
    [apply start_tracked|].
  intros sys1 sys2 _ Hstep [Ht Hp].
  by destruct (step_invariant _ _ _ Hstep Ht Hp) as (? & ? & _).
Qed.

(** X6. However the tasks of the scheduler interleave, every server is
    tracked exactly once: an address has at most one entry in the queue
    or in the hands of a worker, a parked address has none, and the known
    servers are the identifiers of the addresses that are queued, in
    flight or parked. *)
Theorem X6_every_known_server_is_tracked_once (settings : Settings)
    (sys : System) :
  reachable settings sys →
  NoDup (queued (scheduler sys) ++ in_flight sys)
  ∧ (∀ a, a ∈ _parked_servers (scheduler sys) →
          a ∉ queued (scheduler sys) ++ in_flight sys)
  ∧ (∀ a, a ∈ queued (scheduler sys) ++ in_flight sys
          ∨ a ∈ _parked_servers (scheduler sys) →
          identifier a ∈ _known_servers (scheduler sys))
  ∧ (∀ id, id ∈ _known_servers (scheduler sys) →
           ∃ a, (a ∈ queued (scheduler sys) ++ in_flight sys
                 ∨ a ∈ _parked_servers (scheduler sys))
                ∧ identifier a = id
                ∧ ∀ b, (b ∈ queued (scheduler sys) ++ in_flight sys
                        ∨ b ∈ _parked_servers (scheduler sys)) →
                       identifier b = id → b = a).
Proof.
  intros [(Hnd & Hp & Hk) _]%reachable_invariant. split_and!; [done..| |].
  - intros a Ha. apply Hk. eauto.
  - intros id (a & Ha & Hid)%Hk. exists a. split_and!; [done..|].
    intros b _ Hb. apply identifier_inj. congruence.
Qed.

(** X7. However the tasks interleave, a parked server is excluded by the
    exclusions the scheduler holds at that moment. *)
Theorem X7_parked_servers_are_excluded (settings : Settings) (sys : System) :
  reachable settings sys →
  ∀ ip port, (ip, port) ∈ _parked_servers (scheduler sys) →
             server_excluded (_exclusions (scheduler sys)) ip port.
Proof.
  intros [_ Hp]%reachable_invariant ip port Ha. by apply (Hp (ip, port)).
Qed.

(** X8. The set of known servers only grows: no step of any task removes
    an identifier from it. *)
Theorem X8_known_servers_only_grow (settings : Settings) (sys sys' : System) :
  reachable settings sys → rtc (step settings) sys sys' →
  _known_servers (scheduler sys) ⊆ _known_servers (scheduler sys').
Proof.
  intros Hsys Hrun.
  induction Hrun as [|sys1 sys2 sys3 Hstep _ IH]; [done|].
  destruct (reachable_invariant _ _ Hsys) as [Ht Hp].
  destruct (step_invariant _ _ _ Hstep Ht Hp) as (_ & _ & Hk).
  etrans; [exact Hk|]. apply IH.
  unfold reachable. by eapply rtc_r.
Qed.

(** *** A sample run: seeding with one exclusion, then a refresh *)

Lemma seeded_reachable settings : reachable settings (seeded settings).
Proof.
  apply rtc_once.
  exact (seed_step settings (start settings)
           (Some [exclusion_row "server_id" "1.2.3.4:14567"]) noon
           (Some [("1.2.3.4", 14567); ("5.6.7.8", 23000)]) 1000%Q).
Qed.

Lemma refreshed_after_seeded settings :
  rtc (step settings) (seeded settings) (refreshed settings).
Proof.
  apply rtc_once.
  exact (refresh_step settings (seeded settings) (Some []) noon).
Qed.

Lemma X5_worker_takes_earliest_witness :
  ∃ self' taken,
    worker_take two_servers = Some (self', taken)
    ∧ ∃ entry, _queue two_servers ≡ₚ entry :: _queue self'
               ∧ Forall (λ e, (entry.1.1 <= e.1.1)%Q) (_queue self').
Proof.
  destruct (worker_take two_servers) as [[self' taken]|] eqn:E;
    [|by vm_compute in E].
  exists self', taken. split; [reflexivity|].
  destruct (proj2 (X5_worker_takes_earliest two_servers) self' taken E)
    as (entry & H1 & H2 & _).
  exists entry. split; [exact H1 | exact H2].
Defined.

Lemma X6_every_known_server_is_tracked_once_witness :
  reachable (Config.defaults "") (seeded (Config.defaults ""))
  ∧ NoDup (queued (scheduler (seeded (Config.defaults "")))
           ++ in_flight (seeded (Config.defaults ""))).
Proof.
  split; [apply seeded_reachable|].
  destruct (X6_every_known_server_is_tracked_once (Config.defaults "")
              (seeded (Config.defaults "")) (seeded_reachable _)) as (H & _).
  exact H.
Defined.

Lemma X7_parked_servers_are_excluded_witness :
  ("1.2.3.4", 14567) ∈ _parked_servers (scheduler (seeded (Config.defaults "")))
  ∧ server_excluded (_exclusions (scheduler (seeded (Config.defaults ""))))
      "1.2.3.4" 14567.
Proof.
  assert (("1.2.3.4", 14567)
          ∈ _parked_servers (scheduler (seeded (Config.defaults "")))) as H
    by (apply (bool_decide_unpack _); vm_compute; exact I).
  split; [exact H|].
  exact (X7_parked_servers_are_excluded (Config.defaults "")
           (seeded (Config.defaults "")) (seeded_reachable _)
           "1.2.3.4" 14567 H).
Defined.

Lemma X8_known_servers_only_grow_witness :
  _known_servers (scheduler (seeded (Config.defaults "")))
  ⊆ _known_servers (scheduler (refreshed (Config.defaults ""))).
Proof.
  exact (X8_known_servers_only_grow (Config.defaults "") _ _
           (seeded_reachable _) (refreshed_after_seeded _)).
Defined.

(** *** When the poller raises *)

Lemma discover_one_None clock self id :
  discover_one clock self id = None ↔ parse_server_id id = None.
Proof.
  unfold discover_one. destruct (parse_server_id id) as [[ip port]|]; simpl;
    [|done].
  by case_bool_decide.
Qed.

Lemma discover_raises clock ids : ∀ self,
  (discover clock ids self).2 = false
  ↔ ∃ id, id ∈ ids ∧ parse_server_id id = None.
Proof.
  induction ids as [|id ids IH]; intros self; simpl.
  { split; [done|]. by intros (? & ?%elem_of_nil & _). }
  destruct (discover_one clock self id) as [self1|] eqn:E.
  - rewrite IH. split.
    + intros (id' & Hin & Hp). exists id'. split; [by right | done].
    + intros (id' & [->|Hin]%elem_of_cons & Hp).
      * apply discover_one_None with (clock := clock) (self := self) in Hp.
        congruence.
      * by exists id'.
  - split; [|done]. intros _. exists id. split; [by left|].
    by apply (discover_one_None clock self).
Qed.

(** X9. A turn of the master-list poller raises, and so ends the poller
    task, exactly when the list brings a server that is not yet known
    and whose ip holds a colon or whose port has more digits than [int]
    accepts (4300; [fetch_servers], which reads the ports with [int],
    returns no such port).  A failed fetch, an empty list, known servers
    and the other addresses never make it raise. *)
Theorem X9_poller_raises_on_colon (settings : Settings) (clock : string → Q)
    (servers : option (list (string * Z))) (self : State) (backoff : Z) :
  (_master_list_poller settings clock servers self backoff).2 = None
  ↔ ∃ list ip port,
      servers = Some list ∧ (ip, port) ∈ list
      ∧ (server_identifier ip port ∉ _known_servers self)
      ∧ (":"%char ∈ Str.chars ip
         ∨ 10 ^ Py.int_max_str_digits ≤ Z.abs port).
Proof.
  unfold _master_list_poller. destruct servers as [[|s l]|]; cbn [snd].
  - split; [done|]. by intros (? & ? & ? & [= <-] & ?%elem_of_nil & _).
  - set (ids := elements _).
    assert ((if (discover clock ids self).2
             then Some (MASTER_LIST_POLL_INTERVAL_S settings,
                        MASTER_LIST_POLL_INTERVAL_S settings)
             else None) = None
            ↔ (discover clock ids self).2 = false) as ->
      by (by destruct (discover clock ids self).2).
    rewrite discover_raises. subst ids. split.
    + intros (id & [Hin Hnew]%elem_of_elements%elem_of_difference & Hp).
      apply elem_of_list_to_set, list_elem_of_fmap in Hin as ([ip port] & -> & Hin).
      exists (s :: l), ip, port. simpl in *. split_and!; [done..|].
      destruct (decide (":"%char ∈ Str.chars ip)) as [|Hfree]; [by left|].
      right. rewrite parse_identifier in Hp by done.
      case_bool_decide; [done | lia].
    + intros (l' & ip & port & [= <-] & Hin & Hnew & Hbad).
      exists (server_identifier ip port). split.
      * apply elem_of_elements, elem_of_difference. split; [|done].
        apply elem_of_list_to_set, list_elem_of_fmap. by exists (ip, port).
      * destruct (decide (Str.free_of ":" ip)) as [Hfree|Hcolon].
        -- rewrite parse_identifier by done.
           rewrite bool_decide_eq_false_2; [done|].
           destruct Hbad as [Hc|Hbig]; [done | lia].
        -- by apply parse_identifier_colon.
  - split; [done|]. by intros (? & ? & ? & [=] & _).
Qed.

(** *** The back-off of the poller *)

Lemma backoff_doubling b k max :
  0 ≤ max → 0 ≤ k →
  Z.min (Z.min (b * 2) max * 2 ^ k) max = Z.min (b * 2 ^ (k + 1)) max.
Proof.
  intros Hmax Hk. rewrite Z.pow_add_r, Z.pow_1_r by lia.
  assert (1 ≤ 2 ^ k) as Hp by (apply Z.lt_pred_le, Z.pow_pos_nonneg; lia).
  revert Hp. generalize (2 ^ k). intros p Hp.
  destruct (Z.min_spec (b * 2) max) as [[? ->]|[? ->]]; [f_equal; lia|].
  rewrite !Z.min_r; nia.
Qed.

(** X10. While the fetch of the master list keeps failing the poller
    sleeps min(backoff * 2^k, max) after the k-th failure in a row, leaves
    the scheduler as it is, and keeps the last sleep as its back-off; a
    fetch that succeeds and does not raise sets the back-off to the poll
    interval again and sleeps that long. *)
Theorem X10_poller_backoff (settings : Settings) (clock : string → Q)
    (self : State) (backoff : Z) (n : nat) :
  0 ≤ MASTER_LIST_MAX_BACKOFF_S settings →
  let sleeps :=
    (λ k, Z.min (backoff * 2 ^ Z.of_nat k) (MASTER_LIST_MAX_BACKOFF_S settings))
      <$> seq 1 n in
  poller_run settings clock (replicate n None) self backoff
  = Some (self, default backoff (last sleeps), sleeps)
  ∧ ∀ servers,
      (_master_list_poller settings clock (Some servers) self backoff).2 = None
      ∨ (_master_list_poller settings clock (Some servers) self backoff).2
        = Some (MASTER_LIST_POLL_INTERVAL_S settings,
                MASTER_LIST_POLL_INTERVAL_S settings).
Proof.
  intros Hmax sleeps. split.
  - subst sleeps. revert backoff. induction n as [|n IH]; intros b; [done|].
    cbn [replicate poller_run _master_list_poller fst snd mbind option_bind].
    rewrite IH. cbn [mbind option_bind].
    change (seq 1 (S n)) with (1%nat :: seq 2 n).
    rewrite <- (fmap_S_seq 1), fmap_cons, <- list_fmap_compose.
    replace (b * 2 ^ Z.of_nat 1) with (b * 2) by lia.
    assert ((λ k, Z.min (Z.min (b * 2) (MASTER_LIST_MAX_BACKOFF_S settings)
                         * 2 ^ Z.of_nat k) (MASTER_LIST_MAX_BACKOFF_S settings))
              <$> seq 1 n
            = ((λ k, Z.min (b * 2 ^ Z.of_nat k)
                       (MASTER_LIST_MAX_BACKOFF_S settings)) ∘ S) <$> seq 1 n)
      as ->.
    { apply list_fmap_ext. intros _ k _. simpl.
      rewrite backoff_doubling by lia. do 2 f_equal. lia. }
    rewrite last_cons. by destruct (last _).
  - intros servers. unfold _master_list_poller. destruct servers as [|s l].
    + by right.
    + cbn [snd]. destruct (discover _ _ _).2; [by right | by left].
Qed.

Lemma X10_poller_backoff_witness :
  poller_run (Config.defaults "") (λ _, 0%Q) (replicate 3 None) init 60
  = Some (init, 300, [120; 240; 300]).
Proof.
  destruct (X10_poller_backoff (Config.defaults "") (λ _, 0%Q) init 60 3)
    as [H _]; [by vm_compute|].
  exact H.
Defined.
End SchedulerSteps.

(* ===================================================================== *)
(** * Which servers the rows of [exclusions] exclude *)
(* ===================================================================== *)

Section ExclusionRows.
Import Str DataProcessor SchedulerTasks.

Lemma refresh_exclusions_eq rows clock self :
  _exclusions (_refresh_exclusions rows clock self) = temp_exclusions rows.
Proof.
  unfold _refresh_exclusions. exact (proj1 (release_all_state _ _ _)).
Qed.

Lemma add_row_server_ids temp row x :
  x ∈ excluded_server_id (add_row temp row)
  ↔ x ∈ excluded_server_id temp
    ∨ (type row = "server_id"
       ∧ match ip_and_port row with
         | Some a => x = inl (identifier a) ∨ x = inr a
         | None => value row ≠ "" ∧ x = inl (value row)
         end).
Proof.
  unfold add_row. case_bool_decide as Hty.
  - destruct (ip_and_port row) as [[ip port]|].
    + simpl. rewrite !elem_of_union, !elem_of_singleton.
      unfold identifier. simpl. naive_solver.
    + destruct (value row) as [|c v]; simpl.
      * naive_solver.
      * rewrite elem_of_union, elem_of_singleton. naive_solver.
  - repeat case_bool_decide; simpl; naive_solver.
Qed.

Lemma fold_add_row_server_ids rows : ∀ temp x,
  x ∈ excluded_server_id (foldl add_row temp rows)
  ↔ x ∈ excluded_server_id temp
    ∨ ∃ row, row ∈ rows ∧ type row = "server_id"
             ∧ match ip_and_port row with
               | Some a => x = inl (identifier a) ∨ x = inr a
               | None => value row ≠ "" ∧ x = inl (value row)
               end.
Proof.
  induction rows as [|row rows IH]; intros temp x; simpl.
  { split; [by left|]. by intros [?|(? & ?%elem_of_nil & _)]. }
  rewrite IH, add_row_server_ids. split.
  - intros [[?|?]|(r & ? & ?)]; [by left| |].
    + right. exists row. split; [by left | done].
    + right. exists r. split; [by right | done].
  - intros [?|(r & [->|?]%elem_of_cons & ?)]; [by left; left|by left; right|].
    right. by exists r.
Qed.

Lemma server_identifier_nonempty ip port : server_identifier ip port ≠ "".
Proof. rewrite server_identifier_eq. by destruct ip. Qed.

Lemma temp_exclusions_excluded rows ip port :
  server_excluded (temp_exclusions rows) ip port
  ↔ ∃ row, row ∈ rows ∧ type row = "server_id"
           ∧ match ip_and_port row with
             | Some a => a = (ip, port)
             | None => value row = server_identifier ip port
             end.
Proof.
  unfold server_excluded, temp_exclusions.
  rewrite !fold_add_row_server_ids. simpl. split.
  - intros [[?%elem_of_empty|(row & Hin & Hty & H)]
           |[?%elem_of_empty|(row & Hin & Hty & H)]]; try done;
      exists row; (split_and!; [done..|]);
      destruct (ip_and_port row) as [a|].
    + destruct H as [[= H]|[=]].
      symmetry. by apply (identifier_inj (ip, port) a).
    + by destruct H as [_ [= ->]].
    + by destruct H as [[=]|[= ->]].
    + by destruct H as [_ [=]].
  - intros (row & Hin & Hty & H).
    destruct (ip_and_port row) as [a|] eqn:E.
    + right. right. exists row. rewrite E. subst a. auto.
    + left. right. exists row. rewrite E. rewrite H.
      split_and!; [done..| |done]. apply server_identifier_nonempty.
Qed.

(** X11. After a refresh of the exclusions a server is excluded exactly
    when some row of type [server_id] names it: by its generated ip and
    port when the row has both (a non-empty ip and a port that is not
    zero), and otherwise by a value that is the string ["ip:port"] of
    the server.  Rows of the other types exclude no server. *)
Theorem X11_excluded_after_refresh (rows : list ExclusionRow)
    (clock : string * Z → Q) (self : State) (ip : string) (port : Z) :
  _is_server_excluded (_refresh_exclusions rows clock self) ip port
  ↔ ∃ row, row ∈ rows ∧ type row = "server_id"
           ∧ match ip_and_port row with
             | Some a => a = (ip, port)
             | None => value row = server_identifier ip port
             end.
Proof.
  unfold _is_server_excluded. rewrite refresh_exclusions_eq.
  apply temp_exclusions_excluded.
Qed.

(** *** The generated columns *)

Lemma is_digits_pretty z :
  ExclusionsTable.is_digits (pretty z) = true →
  ExclusionsTable.digits_value (pretty z) = z.
Proof.
  destruct z as [|p|p]; [done| |done].
  intros _. unfold ExclusionsTable.digits_value.
  by destruct (pretty_positive_chars p) as (c & l & -> & _ & ->).
Qed.

Lemma read_identifier_row r ip port :
  ExclusionsTable.type r = "server_id" →
  ExclusionsTable.value r = server_identifier ip port →
  free_of ":" ip →
  match ip_and_port (ExclusionsTable.read_row r) with
  | Some a => a = (ip, port)
  | None => value (ExclusionsTable.read_row r) = server_identifier ip port
  end.
Proof.
  intros Hty Hv Hfree.
  unfold ip_and_port, ExclusionsTable.read_row. simpl.
  unfold ExclusionsTable.generated_ip, ExclusionsTable.generated_port.
  rewrite Hty, Hv. simpl.
  unfold ExclusionsTable.split_part.
  rewrite server_identifier_eq, split_app by done.
  rewrite split_free by apply pretty_free_of_colon. simpl.
  destruct ip as [|c ip]; [done|].
  destruct (ExclusionsTable.is_digits (pretty port)) eqn:Hd; [|done].
  rewrite is_digits_pretty by done.
  destruct (port <=? ExclusionsTable.int4_max); [|done].
  by case_bool_decide.
Qed.

(** X12. A row of the table whose type is [server_id] and whose value is
    the string ["ip:port"] of a server with a colon-free ip excludes
    that server at the next refresh, whatever else the table holds and
    whether the generated port is filled or not (it is not for a port
    that is negative, zero or beyond the range of INTEGER). *)
Theorem X12_stored_identifier_excludes (table : list ExclusionsTable.row)
    (clock : string * Z → Q) (self : State) (r : ExclusionsTable.row)
    (ip : string) (port : Z) :
  r ∈ table →
  ExclusionsTable.type r = "server_id" →
  ExclusionsTable.value r = server_identifier ip port →
  free_of ":" ip →
  _is_server_excluded
    (_refresh_exclusions (ExclusionsTable.select table) clock self) ip port.
Proof.
  intros Hin Hty Hv Hfree.
  unfold _is_server_excluded. rewrite refresh_exclusions_eq.
  apply temp_exclusions_excluded.
  exists (ExclusionsTable.read_row r). split_and!.
  - by apply list_elem_of_fmap_2.
  - done.
  - by apply read_identifier_row.
Qed.

Lemma X12_stored_identifier_excludes_witness :
  _is_server_excluded
    (_refresh_exclusions
       (ExclusionsTable.select
          [{| ExclusionsTable.id := 1; ExclusionsTable.type := "server_id";
              ExclusionsTable.value := "1.2.3.4:14567";
              ExclusionsTable.notes := None |}])
       noon two_servers)
    "1.2.3.4" 14567.
Proof.
  apply (X12_stored_identifier_excludes _ noon two_servers
           {| ExclusionsTable.id := 1; ExclusionsTable.type := "server_id";
              ExclusionsTable.value := "1.2.3.4:14567";
              ExclusionsTable.notes := None |} "1.2.3.4" 14567).
  - apply list_elem_of_here.
  - reflexivity.
  - reflexivity.
  - apply (bool_decide_unpack _). vm_compute. exact I.
Defined.

(** A colon in the ip defeats that rule: the row written for the server
    ["a:7"], port 5, is read as the server ["a"], port 7. *)
Lemma colon_in_ip_misses_the_server clock self :
  ¬ _is_server_excluded
      (_refresh_exclusions
         (ExclusionsTable.select
            [{| ExclusionsTable.id := 1; ExclusionsTable.type := "server_id";
                ExclusionsTable.value := server_identifier "a:7" 5;
                ExclusionsTable.notes := None |}])
         clock self)
      "a:7" 5.
Proof.
  unfold _is_server_excluded. rewrite refresh_exclusions_eq.
  apply (bool_decide_unpack _). vm_compute. exact I.
Qed.
End ExclusionRows.

(* ===================================================================== *)
(** * What the ingestion keeps of the store *)
(* ===================================================================== *)

Section Kept.
Import Config DataProcessor.

Lemma session_kept_trans r1 r2 r3 :
  session_kept r1 r2 → session_kept r2 r3 → session_kept r1 r3.
Proof.
  intros [->|[Ho (t & ->)]] H; [done|].
  destruct H as [->|[Ho' _]]; [|done].
  right. eauto.
Qed.

Lemma server_kept_trans r1 r2 r3 :
  server_kept r1 r2 → server_kept r2 r3 → server_kept r1 r3.
Proof. unfold server_kept. intros (?&?&?&?) (?&?&?&?). split_and!; congruence. Qed.

Lemma history_kept_refl db : history_kept db db.
Proof.
  split_and!; [done | | | done].
  - intros i r ?. exists r. split; [done | by left].
  - intros i r ?. by exists r.
Qed.

Lemma history_kept_trans db1 db2 db3 :
  history_kept db1 db2 → history_kept db2 db3 → history_kept db1 db3.
Proof.
  intros (H1 & H2 & H3 & H4) (H1' & H2' & H3' & H4'). split_and!.
  - by etrans.
  - intros i r Hr. destruct (H2 i r Hr) as (r' & Hr' & Hk).
    destruct (H2' i r' Hr') as (r'' & Hr'' & Hk'). exists r''.
    split; [done|]. by eapply session_kept_trans.
  - intros i r Hr. destruct (H3 i r Hr) as (r' & Hr' & Hk).
    destruct (H3' i r' Hr') as (r'' & Hr'' & Hk'). exists r''.
    split; [done|]. by eapply server_kept_trans.
  - by etrans.
Qed.

Lemma update_sessions_kept db sid prev cur ts i r :
  player_sessions db !! i = Some r →
  ∃ r', player_sessions (_update_player_sessions db sid prev cur ts) !! i
        = Some r'
        ∧ session_kept r r'.
Proof.
  intros Hr. rewrite update_sessions_rows. unfold close_sessions.
  exists (close_row ts sid (left_players prev cur) r). split.
  - apply lookup_app_l_Some. by rewrite list_lookup_fmap, Hr.
  - rewrite close_row_spec. case_decide as H; [|by left].
    right. split; [apply H | by exists ts].
Qed.

Lemma record_map_maps db m :
  servers_id_seq (record_map db m) = servers_id_seq db
  ∧ unique_maps (record_map db m)
    = if bool_decide (m ≠ "n/a") then {[m]} ∪ unique_maps db
      else unique_maps db.
Proof. unfold record_map. by case_bool_decide. Qed.

Section UpsertKept.
Context (ip : string) (port : Z).
Context (insert : Z → Servers.row) (update : Servers.row → Servers.row).
Hypothesis insert_address : ∀ id, on_address ip port (insert id).
Hypothesis insert_id : ∀ id, Servers.id (insert id) = id.
Hypothesis update_kept : ∀ r, server_kept r (update r).

Lemma upsert_server_kept db i r :
  servers db !! i = Some r →
  ∃ r', servers (upsert_server db ip port insert update).1 !! i = Some r'
        ∧ server_kept r r'.
Proof.
  intros Hr. unfold upsert_server.
  destruct (list_find _ _) as [[j r0]|] eqn:E; simpl.
  - apply list_find_Some in E as (Hj & _ & _).
    destruct (decide (i = j)) as [->|Hne].
    + exists (update r0). split.
      * apply list_lookup_insert_eq. by eapply lookup_lt_Some.
      * assert (r = r0) as -> by congruence. apply update_kept.
    + exists r. split; [by rewrite list_lookup_insert_ne | done].
  - exists r. split; [by apply lookup_app_l_Some | done].
Qed.

Lemma upsert_server_well_keyed db :
  servers_well_keyed db →
  servers_well_keyed (upsert_server db ip port insert update).1.
Proof.
  intros (Haddr & Hids & Hlt). unfold servers_well_keyed, upsert_server.
  destruct (list_find _ _) as [[j r0]|] eqn:E; simpl.
  - apply list_find_Some in E as (Hj & _ & _).
    destruct (update_kept r0) as (Hid & Hip & Hport & _).
    split_and!.
    + rewrite list_fmap_insert, list_insert_id; [done|].
      by rewrite list_lookup_fmap, Hj, Hip, Hport.
    + rewrite list_fmap_insert, list_insert_id; [done|].
      by rewrite list_lookup_fmap, Hj, Hid.
    + apply Forall_insert.
      * eapply Forall_impl; [exact Hlt|]. simpl. lia.
      * rewrite Hid. rewrite Forall_forall in Hlt.
        apply list_elem_of_lookup_2 in Hj. specialize (Hlt _ Hj). lia.
  - apply list_find_None in E. rewrite !fmap_app. simpl. split_and!.
    + apply NoDup_app. split_and!; [done| |apply NoDup_singleton].
      intros a (r & -> & Hin)%list_elem_of_fmap Ha%list_elem_of_singleton.
      rewrite Forall_forall in E. apply (E _ Hin).
      destruct (insert_address (servers_id_seq db)) as [Hi Hp].
      injection Ha as Ha1 Ha2. split; congruence.
    + apply NoDup_app. split_and!; [done| |apply NoDup_singleton].
      intros a (r & -> & Hin)%list_elem_of_fmap Ha%list_elem_of_singleton.
      rewrite insert_id in Ha. rewrite Forall_forall in Hlt.
      specialize (Hlt _ Hin). lia.
    + apply Forall_app. split.
      * eapply Forall_impl; [exact Hlt|]. simpl. lia.
      * apply Forall_singleton. rewrite insert_id. lia.
Qed.
End UpsertKept.

Lemma success_upsert_kept db ip port raw excl ts :
  (∀ i r, servers db !! i = Some r →
          ∃ r', servers (success_upsert db ip port raw excl ts).1 !! i
                = Some r' ∧ server_kept r r')
  ∧ (servers_well_keyed db →
     servers_well_keyed (success_upsert db ip port raw excl ts).1).
Proof.
  unfold success_upsert. split.
  - intros i r. by apply upsert_server_kept.
  - by apply upsert_server_well_keyed.
Qed.

Lemma failure_upsert_kept settings db ip port ts :
  (∀ i r, servers db !! i = Some r →
          ∃ r', servers (failure_upsert settings db ip port ts).1 !! i
                = Some r' ∧ server_kept r r')
  ∧ (servers_well_keyed db →
     servers_well_keyed (failure_upsert settings db ip port ts).1).
Proof.
  unfold failure_upsert. split.
  - intros i r. by apply upsert_server_kept.
  - by apply upsert_server_well_keyed.
Qed.

Lemma success_rest db ip port raw excl ts :
  ¬ excluded excl ip port raw →
  servers_id_seq (process_server_success db ip port raw excl ts)
  = servers_id_seq (success_upsert db ip port raw excl ts).1
  ∧ unique_maps (process_server_success db ip port raw excl ts)
    = if bool_decide (mapname (normalized_data_of excl raw) ≠ "n/a")
      then {[mapname (normalized_data_of excl raw)]} ∪ unique_maps db
      else unique_maps db.
Proof.
  intros Hacc. rewrite process_server_success_eq by done. cbv zeta.
  assert (unique_maps (success_upsert db ip port raw excl ts).1
          = unique_maps db) as Hm by (unfold success_upsert; by apply upsert_server_frame).
  case_bool_decide; [|destruct (identify_round_change_raises _ _)];
    unfold insert_snapshot; cbn [servers_id_seq unique_maps];
    rewrite (proj1 (proj2 (update_sessions_frame _ _ _ _ _))),
            (proj2 (proj2 (proj2 (update_sessions_frame _ _ _ _ _)))),
            (proj1 (record_map_maps _ _)), (proj2 (record_map_maps _ _)), Hm;
    done.
Qed.

Lemma failure_rest settings db ip port ts :
  servers_id_seq (process_server_failure settings db ip port ts)
  = servers_id_seq (failure_upsert settings db ip port ts).1
  ∧ unique_maps (process_server_failure settings db ip port ts)
    = unique_maps db.
Proof.
  rewrite process_server_failure_eq. cbv zeta.
  destruct (failure_upsert_written settings db ip port ts)
    as (_ & _ & _ & _ & _ & Hm).
  destruct (_ <=? _); [|done].
  by rewrite (proj1 (proj2 (update_sessions_frame _ _ _ _ _))),
             (proj2 (proj2 (proj2 (update_sessions_frame _ _ _ _ _)))).
Qed.

Lemma ingest_history settings db e : history_kept db (ingest settings db e).
Proof.
  destruct e as [ip port raw excl ts|ip port ts]; simpl.
  - destruct (decide (excluded excl ip port raw)) as [Hex|Hacc].
    { rewrite process_server_success_excluded by done.
      apply history_kept_refl. }
    split_and!.
    + rewrite success_snapshots by done. by apply prefix_app_r.
    + intros i r Hr. rewrite success_sessions by done.
      by apply update_sessions_kept.
    + intros i r Hr. rewrite success_servers by done.
      by apply success_upsert_kept.
    + rewrite (proj2 (success_rest _ _ _ _ _ ts Hacc)).
      case_bool_decide; [|done]. apply union_subseteq_r.
  - split_and!.
    + by rewrite (proj2 (failure_effect _ _ _ _ _)).
    + intros i r Hr.
      destruct (proj1 (failure_effect settings db ip port ts)) as [->| ->].
      * by apply update_sessions_kept.
      * exists r. split; [done | by left].
    + intros i r Hr. rewrite process_server_failure_servers.
      by apply failure_upsert_kept.
    + by rewrite (proj2 (failure_rest _ _ _ _ _)).
Qed.

Lemma ingest_well_keyed settings db e :
  servers_well_keyed db → servers_well_keyed (ingest settings db e).
Proof.
  intros Hk. destruct e as [ip port raw excl ts|ip port ts]; simpl.
  - destruct (decide (excluded excl ip port raw)) as [Hex|Hacc].
    { by rewrite process_server_success_excluded. }
    unfold servers_well_keyed.
    rewrite success_servers, (proj1 (success_rest _ _ _ _ _ ts Hacc)) by done.
    by apply success_upsert_kept.
  - unfold servers_well_keyed.
    rewrite process_server_failure_servers,
            (proj1 (failure_rest _ _ _ _ _)).
    by apply failure_upsert_kept.
Qed.

(** X13. Whatever the store holds and whatever probes are ingested, in
    any order and with any clock readings: the snapshots already stored
    stay, in order, at the head of their table; every session row stays
    at its place and is left as it is or, when it was open, closed, so
    that a closed session never changes again; every server row stays at
    its place with its id, its address and [first_seen]; and no map name
    is forgotten. *)
Theorem X13_history_is_kept (settings : Settings) (db : Db)
    (es : list ingestion) :
  history_kept db (ingest_all settings db es)
  ∧ ∀ i r, player_sessions db !! i = Some r → ¬ is_open r →
           player_sessions (ingest_all settings db es) !! i = Some r.
Proof.
  assert (history_kept db (ingest_all settings db es)) as H.
  { revert db. induction es as [|e es IH]; intros db; simpl.
    - apply history_kept_refl.
    - eapply history_kept_trans; [apply ingest_history | apply IH]. }
  split; [done|]. intros i r Hr Hclosed.
  destruct H as (_ & H & _). destruct (H i r Hr) as (r' & Hr' & [->|[? _]]);
    done.
Qed.

(** X14. Along every run of ingestions from the empty store, no two rows
    of [servers] share an address or an id, and every id is below the
    next value of the sequence. *)
Theorem X14_servers_stay_well_keyed (settings : Settings)
    (es : list ingestion) :
  servers_well_keyed (ingest_all settings empty_db es).
Proof.
  assert (∀ db, servers_well_keyed db →
                servers_well_keyed (ingest_all settings db es)) as H.
  { induction es as [|e es IH]; intros db Hk; [done|]. simpl.
    by apply IH, ingest_well_keyed. }
  apply H. split_and!; [apply NoDup_nil_2 | apply NoDup_nil_2 | done].
Qed.
End Kept.

(* ===================================================================== *)
(** * Sessions, maps and delays along the runs *)
(* ===================================================================== *)

Section StoreRuns.
Import Config DataProcessor.



Lemma close_sessions_none ts sid names rows :
  no_open_session sid rows → close_sessions ts sid names rows = rows.
Proof.
  unfold no_open_session, open_keys, close_sessions.
  rewrite Forall_fmap, Forall_forall. intros H.
  apply list_eq. intros i. rewrite list_lookup_fmap.
  destruct (rows !! i) as [r|] eqn:E; [|done]. simpl. f_equal.
  rewrite close_row_spec. case_decide as Hc; [|done].
  destruct Hc as (Hsid & _ & Hopen). exfalso.
  apply (H r); [|done].
  apply list_elem_of_filter. split; [done|].
  by eapply list_elem_of_lookup_2.
Qed.

(** X16. An accepted probe opens sessions only for names that the latest
    snapshot of the server does not hold.  So when every name of the
    probe is in that snapshot and no session of the server is open, as
    after an outage that closed them, the probe leaves [player_sessions]
    as it is: the players who are still there get no session. *)
Theorem X16_no_session_for_names_of_latest_snapshot (db : Db) (ip : string)
    (port : Z) (raw_data : GameSpy1.Status) (exclusions : Exclusions)
    (timestamp : Z) :
  ¬ excluded exclusions ip port raw_data →
  names_norm (normalized_players exclusions (GameSpy1.players raw_data))
  ⊆ names_norm
      (previous_players_of (latest_snapshot db (target_id db ip port))) →
  no_open_session (target_id db ip port) (player_sessions db) →
  player_sessions
    (process_server_success db ip port raw_data exclusions timestamp)
  = player_sessions db.
Proof.
  intros Hacc Hnames Hopen.
  rewrite success_sessions, update_sessions_rows, joined_players_eq by done.
  assert (names_norm (normalized_players exclusions (GameSpy1.players raw_data))
          ∖ names_norm
              (previous_players_of (latest_snapshot db (target_id db ip port)))
          = ∅) as -> by (clear -Hnames; set_solver).
  by rewrite new_sessions_data_empty, app_nil_r, close_sessions_none.
Qed.

Lemma X16_no_session_for_names_of_latest_snapshot_witness :
  no_open_session 1 (player_sessions db_after_outage)
  ∧ player_sessions
      (process_server_success db_after_outage "1.2.3.4" 14567 probe_alice
         no_exclusions 500)
    = player_sessions db_after_outage.
Proof.
  assert (no_open_session (target_id db_after_outage "1.2.3.4" 14567)
            (player_sessions db_after_outage)) as H
    by (apply (bool_decide_unpack _); vm_compute; exact I).
  split; [exact H|].
  apply (X16_no_session_for_names_of_latest_snapshot db_after_outage
           "1.2.3.4" 14567 probe_alice no_exclusions 500).
  - apply probe_alice_accepted.
  - apply (bool_decide_unpack _). vm_compute. exact I.
  - exact H.
Defined.

(** X17. With positive poll intervals the delay before the next probe of
    a server is positive, and it is at most the largest of the offline
    interval, the empty interval and the active interval plus 7 (a round
    about to end can push the next probe beyond the active interval). *)
Theorem X17_delay_bounds (settings : Settings)
    (result : option GameSpy1.Status) :
  0 < POLL_INTERVAL_ACTIVE_S settings →
  0 < POLL_INTERVAL_EMPTY_S settings →
  0 < POLL_INTERVAL_OFFLINE_S settings →
  0 < Scheduler.worker_delay settings result
  ≤ Z.max (POLL_INTERVAL_ACTIVE_S settings + 7)
      (Z.max (POLL_INTERVAL_EMPTY_S settings)
         (POLL_INTERVAL_OFFLINE_S settings)).
Proof.
  intros Ha He Ho. unfold Scheduler.worker_delay, Scheduler.success_delay.
  destruct result as [r|]; [|lia].
  destruct (_ =? 0); [lia|].
  destruct (Z.ltb_spec 0 (Scheduler.time_remaining (GameSpy1.info r)));
    [|simpl; lia].
  destruct (Z.ltb_spec (Scheduler.time_remaining (GameSpy1.info r))
              (POLL_INTERVAL_ACTIVE_S settings + 5)); simpl; lia.
Qed.

Lemma X17_delay_bounds_witness :
  0 < Scheduler.worker_delay (defaults "")
        (Some {| GameSpy1.info := info_round_ending; GameSpy1.players := [] |})
  ≤ 900.
Proof.
  apply (X17_delay_bounds (defaults "")
           (Some {| GameSpy1.info := info_round_ending;
                    GameSpy1.players := [] |}));
    reflexivity.
Defined.

Lemma ingest_maps settings db e m :
  m ∈ unique_maps (ingest settings db e)
  ↔ m ∈ unique_maps db ∨ (m ≠ "n/a" ∧ brings_map m e).
Proof.
  destruct e as [ip port raw excl ts|ip port ts]; simpl.
  - destruct (decide (excluded excl ip port raw)) as [Hex|Hacc].
    { rewrite process_server_success_excluded by done. naive_solver. }
    rewrite (proj2 (success_rest _ _ _ _ _ ts Hacc)).
    change (mapname (normalized_data_of excl raw))
      with (Py.lower (get (GameSpy1.info raw) "mapname" "N/A")).
    case_bool_decide as Hm.
    + rewrite elem_of_union, elem_of_singleton. naive_solver.
    + naive_solver.
  - rewrite (proj2 (failure_rest _ _ _ _ _)). naive_solver.
Qed.

(** X18. A map name is in [unique_maps] after a run exactly when it was
    there before or an accepted probe of the run brought it, lower-cased,
    and it is not ["n/a"], the name that a probe without [mapname]
    comes to. *)
Theorem X18_unique_maps_of_a_run (settings : Settings) (db : Db)
    (es : list ingestion) (m : string) :
  m ∈ unique_maps (ingest_all settings db es)
  ↔ m ∈ unique_maps db ∨ (m ≠ "n/a" ∧ ∃ e, e ∈ es ∧ brings_map m e).
Proof.
  revert db. induction es as [|e es IH]; intros db; simpl.
  { split; [by left|]. by intros [?|(_ & ? & ?%elem_of_nil & _)]. }
  rewrite IH, ingest_maps. split.
  - intros [[?|[? ?]]|(? & e' & ? & ?)]; [by left| |].
    + right. split; [done|]. exists e. split; [by left | done].
    + right. split; [done|]. exists e'. split; [by right | done].
  - intros [?|(? & e' & [->|?]%elem_of_cons & ?)];
      [by left; left | by left; right |].
    right. split; [done|]. by exists e'.
Qed.

(** X19. A player record without a ['player'] key is stored under the
    name ["N/A"], and takes part in the sessions under ["n/a"]: unless
    that name is excluded or the latest snapshot already holds it, the
    accepted probe opens a session for ["n/a"]. *)
Theorem X19_session_for_the_nameless (db : Db) (ip : string) (port : Z)
    (raw_data : GameSpy1.Status) (exclusions : Exclusions) (timestamp : Z)
    (p : gmap string string) :
  ¬ excluded exclusions ip port raw_data →
  p ∈ GameSpy1.players raw_data → p !! "player" = None →
  "N/A" ∉ excluded_player_name exclusions →
  "n/a" ∉ names_norm
            (previous_players_of (latest_snapshot db (target_id db ip port))) →
  ∃ r, r ∈ player_sessions
             (process_server_success db ip port raw_data exclusions timestamp)
       ∧ PlayerSessions.server_id r = target_id db ip port
       ∧ PlayerSessions.player_name_norm r = "n/a"
       ∧ Py.lower (PlayerSessions.player_name r) = "n/a"
       ∧ PlayerSessions.join_ts r = timestamp
       ∧ is_open r.
Proof.
  intros Hacc Hp Hkey Hex Hprev.
  set (cur := normalized_players exclusions (GameSpy1.players raw_data)).
  assert ("n/a" ∈ names_norm cur) as Hcur.
  { apply elem_of_names_norm. exists (normalize_player p), "N/A".
    split_and!; [|by unfold normalize_player, get; simpl; rewrite Hkey|done].
    unfold cur, normalized_players. apply list_elem_of_fmap_2.
    apply list_elem_of_filter. split; [|done].
    unfold get. by rewrite Hkey. }
  destruct (new_session_indexed (target_id db ip port) timestamp cur "n/a" Hcur)
    as [r Hr].
  exists r. split.
  - rewrite success_sessions, update_sessions_rows by done.
    apply elem_of_app. right. unfold new_sessions_data.
    apply list_elem_of_omap. exists "n/a". split; [|done].
    apply elem_of_elements. rewrite joined_players_eq.
    by apply elem_of_difference.
  - destruct (new_session_Some _ _ _ _ _ Hr) as (q & s & Hq & Hs & ->).
    destruct (build_index_lookup _ _ _ Hq) as (_ & s' & Hs' & Hlow).
    simpl. split_and!; [done..| |done|done]. congruence.
Qed.

Lemma X19_session_for_the_nameless_witness :
  ∃ r, r ∈ player_sessions
             (process_server_success empty_db "1.2.3.4" 14567
                probe_without_name no_exclusions 100)
       ∧ PlayerSessions.player_name_norm r = "n/a"
       ∧ is_open r.
Proof.
  destruct (X19_session_for_the_nameless empty_db "1.2.3.4" 14567
              probe_without_name no_exclusions 100 (<["score" := "3"]> ∅))
    as (r & H1 & _ & H2 & _ & _ & H3).
  - unfold excluded, server_excluded, no_exclusions. simpl. set_solver.
  - apply list_elem_of_here.
  - reflexivity.
  - apply not_elem_of_empty.
  - apply (bool_decide_unpack _). vm_compute. exact I.
  - exists r. split; [exact H1|]. split; [exact H2 | exact H3].
Defined.
End StoreRuns.

(* ===================================================================== *)
(** * What [fetch_servers] makes of each response *)
(* ===================================================================== *)

Section FetchOutcomes.
Import MasterList.

Lemma no_pair_among_strings {A} (f : A → string) (l : list A) :
  filter (λ item, is_pair item = true) ((λ x, JStr (f x)) <$> l) = [].
Proof.
  induction l as [|x l IH]; [done|]. rewrite fmap_cons.
  by rewrite filter_cons_False.
Qed.

(** X20. The fetch of the master list fails when the exchange fails and
    when the body is null, a number or a boolean.  A body that is an
    object or a string is no failure: it gives the empty list.  For a
    body that is an array the fetch fails exactly when a two-element
    entry has a port that [int] refuses, and otherwise returns, in
    order, one server per two-element entry, the first element with the
    second read by [int]. *)
Theorem X20_fetch_servers_outcomes (response : Response) :
  match response with
  | Body (JArr items) =>
      (fetch_servers response = None
       ↔ ∃ ip port, JArr [ip; port] ∈ items ∧ int_of port = None)
      ∧ ∀ servers,
          fetch_servers response = Some servers ↔
          Forall2 (λ item server,
                     ∃ port, item = JArr [server.1; port]
                             ∧ int_of port = Some server.2)
            (filter (λ item, is_pair item = true) items) servers
  | Body (JObj _) | Body (JStr _) => fetch_servers response = Some []
  | _ => fetch_servers response = None
  end.
Proof.
  destruct response as [| | |[| | | |s|items|members]]; try done.
  - simpl. unfold comprehension. simpl. by rewrite no_pair_among_strings.
  - split; [apply fetch_servers_fails_iff|].
    intros servers. rewrite fetch_servers_array, mapM_Some.
    assert (∀ item server,
              is_pair item = true →
              entry item = Some server
              ↔ ∃ port, item = JArr [server.1; port]
                        ∧ int_of port = Some server.2) as Hentry.
    { intros item [ip n] Hpair.
      destruct item as [| | | | |[|a [|b [|]]]|]; try done. simpl.
      split.
      - destruct (int_of b) as [k|] eqn:E; simpl; [|done].
        intros [= <- <-]. by exists b.
      - intros (port & [= <- <-] & ->). done. }
    generalize (filter (λ item, is_pair item = true) items)
               (λ item, proj1 (list_elem_of_filter
                  (λ item, is_pair item = true) items item)).
    intros l Hl. split.
    + intros H. induction H as [|x y l k Hxy _ IH]; constructor.
      * apply Hentry; [|done]. apply (Hl x). by left.
      * apply IH. intros z Hz. apply Hl. by right.
    + intros H. induction H as [|x y l k Hxy _ IH]; constructor.
      * apply Hentry; [|done]. apply (Hl x). by left.
      * apply IH. intros z Hz. apply Hl. by right.
  - simpl. unfold comprehension. simpl.
    by rewrite (no_pair_among_strings (λ kv : string * Json, kv.1)).
Qed.
End FetchOutcomes.
